(** * Swarm integration-branch management (internal/swarm/integration.go)

    A shallow embedding of the branch lifecycle controller of the swarm
    package: the Go functions become Rocq functions in a small
    state-and-log monad over an abstract host (the git processes, the
    clock, the lock file and the issue store), and the properties of the
    package are proved as theorems about these functions. *)

From Stdlib Require Import String Ascii List ZArith Lia Bool.
From Stdlib Require Import Sorted Permutation.
Import ListNotations.
Open Scope string_scope.
Open Scope list_scope.

Set Implicit Arguments.

(** ** Go strings *)

Module GoString.

(** [strings.HasPrefix]. *)
Fixpoint HasPrefix (s pre : string) {struct pre} : bool :=
  match pre with
  | EmptyString => true
  | String c pre' =>
      match s with
      | EmptyString => false
      | String d s' => Ascii.eqb d c && HasPrefix s' pre'
      end
  end.

(** [strings.Contains]: a left-to-right scan for the first occurrence. *)
Fixpoint Contains (s substr : string) : bool :=
  if HasPrefix s substr then true
  else match s with
       | EmptyString => false
       | String _ s' => Contains s' substr
       end.

(** [strings.Split] with a one-byte separator (the package only splits on
    "\n"). *)
Fixpoint Split (s : string) (sep : ascii) : list string :=
  match s with
  | EmptyString => [EmptyString]
  | String c s' =>
      if Ascii.eqb c sep then EmptyString :: Split s' sep
      else match Split s' sep with
           | h :: t => String c h :: t
           | [] => [String c EmptyString]
           end
  end.

Definition newline : ascii := Ascii.ascii_of_nat 10.
Definition slash : ascii := "/"%char.

(** Does the byte [c] occur in [s]? *)
Fixpoint hasByte (c : ascii) (s : string) : bool :=
  match s with
  | EmptyString => false
  | String d s' => Ascii.eqb d c || hasByte c s'
  end.

(** [fmt.Sprintf] restricted to the verbs the package uses ([%s], [%v] and
    [%w]), with operands already turned into their text (for an error, the
    result of its [Error] method). [%%] is a literal percent sign and a
    verb without an operand prints Go's [%!v(MISSING)]. *)
Definition isVerb (c : ascii) : bool :=
  Ascii.eqb c "s" || Ascii.eqb c "v" || Ascii.eqb c "w".

Fixpoint Sprintf (format : string) (args : list string) : string :=
  match format with
  | EmptyString => EmptyString
  | String c rest =>
      if Ascii.eqb c "%" then
        match rest with
        | String v rest' =>
            if isVerb v then
              match args with
              | a :: args' => a ++ Sprintf rest' args'
              | [] => "%!" ++ String v "(MISSING)" ++ Sprintf rest' []
              end
            else if Ascii.eqb v "%" then String "%" (Sprintf rest' args)
            else String c (String v (Sprintf rest' args))
        | EmptyString => "%!(NOVERB)"
        end
      else String c (Sprintf rest args)
  end.

(** The two functions of Go's [strings] package whose behaviour depends on
    Unicode tables; the development is parametric in them. *)
Class Unicode : Type := {
  ToLower : string -> string;
  TrimSpace : string -> string
}.

(** Their restriction to 7-bit text, which is what git prints in the C
    locale: Go takes exactly this path when every byte is below 0x80. *)
Definition lowerByte (c : ascii) : ascii :=
  let n := Ascii.nat_of_ascii c in
  if (65 <=? n)%nat && (n <=? 90)%nat then Ascii.ascii_of_nat (n + 32) else c.

Fixpoint asciiToLower (s : string) : string :=
  match s with
  | EmptyString => EmptyString
  | String c s' => String (lowerByte c) (asciiToLower s')
  end.

Definition isSpaceByte (c : ascii) : bool :=
  let n := Ascii.nat_of_ascii c in
  ((9 <=? n)%nat && (n <=? 13)%nat) || (n =? 32)%nat.

Fixpoint trimLeft (s : string) : string :=
  match s with
  | EmptyString => EmptyString
  | String c s' => if isSpaceByte c then trimLeft s' else s
  end.

Fixpoint trimRight (s : string) : string :=
  match s with
  | EmptyString => EmptyString
  | String c s' =>
      match trimRight s' with
      | EmptyString => if isSpaceByte c then EmptyString else String c EmptyString
      | t => String c t
      end
  end.

Definition asciiTrimSpace (s : string) : string := trimRight (trimLeft s).

Definition asciiText : Unicode :=
  {| ToLower := asciiToLower; TrimSpace := asciiTrimSpace |}.

End GoString.
Import GoString.

(** ** Errors *)

(** The error values the package handles: opaque errors that only carry a
    message ([errors.New], and foreign errors such as [*exec.ExitError] or
    a lock I/O failure), the package's own [*SwarmGitError], and the
    wrapper [fmt.Errorf] builds for the [%w] verb. A Go [error] interface
    value is an [option error], [None] being [nil]. *)
#[warnings="-register-all"]
Inductive error : Type :=
| errorString (s : string)
| SwarmGitError (Command Stdout Stderr : string) (Err : option error)
| wrapError (msg : string) (err : error).

Definition Stderr (e : error) : string :=
  match e with
  | SwarmGitError _ _ s _ => s
  | _ => EmptyString
  end.

(** The [Error] method of each of the three kinds. *)
Fixpoint Error (e : error) : string :=
  match e with
  | errorString s => s
  | SwarmGitError c _ se err =>
      if String.eqb se "" then
        Sprintf "%s: %v" [c; match err with
                             | Some e' => Error e'
                             | None => "<nil>"
                             end]
      else Sprintf "%s: %s" [c; se]
  | wrapError msg _ => msg
  end.

(** [fmt.Errorf(format, sargs..., err)] where the last verb of [format] is
    [%w] and [err] is its operand. *)
Definition Errorf (format : string) (sargs : list string) (err : error) : error :=
  wrapError (Sprintf format (sargs ++ [Error err])) err.

(** [errors.As(err, &gitErr)] for a target of type [*SwarmGitError]: walk
    the [Unwrap] chain until a [*SwarmGitError] is found. *)
Fixpoint errors_As (err : error) : option error :=
  match err with
  | SwarmGitError _ _ _ _ => Some err
  | wrapError _ inner => errors_As inner
  | errorString _ => None
  end.

Definition ErrBranchExists : error := errorString "branch already exists".
Definition ErrBranchNotFound : error := errorString "branch not found".
Definition ErrNotOnIntegration : error := errorString "not on integration branch".

(** ** Branch names *)

(** Modelled from the spec: the [Manager] struct is declared outside
    integration.go; the only field this file reads is the repository
    directory [gitDir]. *)
Record Manager : Type := { gitDir : string }.

Definition GetWorkerBranch (m : Manager) (swarmID worker taskID : string) : string :=
  Sprintf "%s/%s/%s" [swarmID; worker; taskID].

(** ** The fetch classifier *)

Section Classifier.
Context {U : Unicode}.

Definition permanentPatterns : list string :=
  [ "couldn't find remote ref";
    "not found";
    "does not appear to be a git repository";
    "permission denied";
    "authentication failed" ].

(** The [for _, pattern := range permanentPatterns] loop. *)
Fixpoint scanPatterns (stderr : string) (patterns : list string) : bool :=
  match patterns with
  | [] => true
  | pattern :: rest =>
      if Contains stderr pattern then false else scanPatterns stderr rest
  end.

Definition isTransientFetchError (err : option error) : bool :=
  match err with
  | None => false
  | Some e =>
      match errors_As e with
      | None => true
      | Some gitErr => scanPatterns (ToLower (Stderr gitErr)) permanentPatterns
      end
  end.

End Classifier.

(** ** The swarm, as loaded from the issue store *)

(** Modelled from the spec: the [SwarmTask] and [Swarm] structs are
    declared outside integration.go. A task has an identifier, the name of
    its worker branch, the identifiers it depends on and a completion
    flag; a swarm has an identifier, a base commit, the names of its
    integration and target branches, and its tasks in order. *)
Record SwarmTask : Type := {
  TaskID : string;
  Branch : string;
  Dependencies : list string;
  Completed : bool
}.

Record Swarm : Type := {
  ID : string;
  BaseCommit : string;
  Integration : string;
  TargetBranch : string;
  Tasks : list SwarmTask
}.

(** ** The host: processes, clock, lock file and store *)

(** What [cmd.Run()] leaves behind: the error it returns ([None] for exit
    status 0) and the two captured streams. *)
Record ProcResult : Type := {
  runErr : option error;
  stdout : string;
  stderr : string
}.

(** Everything the package reaches outside itself, as transitions of an
    abstract world [W]: running [git args...] in a directory, sleeping,
    [m.lockSwarm] and [fl.Unlock] (the lock manager is outside
    integration.go) and [m.LoadSwarm] (the issue store). *)
Class Host (W : Type) : Type := {
  run_git : string -> list string -> W -> ProcResult * W;
  sleep : Z -> W -> W;
  lock_swarm : string -> W -> option error * W;
  unlock_swarm : string -> W -> W;
  load_swarm : string -> W -> (Swarm + error) * W
}.

(** The observable actions of an operation, in order, each with what the
    host answered. *)
Inductive event : Type :=
| EvLock (swarmID : string) (err : option error)
| EvUnlock (swarmID : string)
| EvLoad (swarmID : string) (r : Swarm + error)
| EvGit (args : list string) (r : ProcResult)
| EvSleep (d : Z).

(** A computation changes the world and logs its actions. *)
Definition M (W A : Type) : Type := W -> A * list event * W.

Definition ret {W A} (a : A) : M W A := fun w => (a, [], w).

Definition bind {W A B} (m : M W A) (f : A -> M W B) : M W B :=
  fun w =>
    let '(a, t1, w1) := m w in
    let '(b, t2, w2) := f a w1 in
    (b, t1 ++ t2, w2).

Declare Scope go_scope.
Delimit Scope go_scope with go.
Notation "x <- m ;; k" := (bind m (fun x => k))
  (at level 61, m at next level, right associativity) : go_scope.
Notation "m ;;; k" := (bind m (fun _ => k))
  (at level 61, right associativity) : go_scope.
Open Scope go_scope.

(** [defer cleanup] around the rest of a function body. *)
Definition deferring {W A} (cleanup : M W unit) (body : M W A) : M W A :=
  a <- body ;; cleanup ;;; ret a.

(** The result, the log and the final world of a run. *)
Definition result {W A} (r : A * list event * W) : A := fst (fst r).
Definition trace {W A} (r : A * list event * W) : list event := snd (fst r).
Definition final {W A} (r : A * list event * W) : W := snd r.

(** The git command lines of a log, in order. *)
Definition gitArgs (ev : event) : list (list string) :=
  match ev with
  | EvGit args _ => [args]
  | _ => []
  end.

Definition gitCommands (t : list event) : list (list string) :=
  flat_map gitArgs t.

(** [time.Duration] is a signed 64-bit count of nanoseconds. *)
Definition wrap64 (z : Z) : Z := ((z + 2 ^ 63) mod 2 ^ 64 - 2 ^ 63)%Z.
Definition Second : Z := 1000000000%Z.

Definition fetchRetries : Z := 3%Z.
Definition fetchRetryDelay : Z := wrap64 (2 * Second)%Z.

(** ** The operations of integration.go *)

Section Integration.
Context {U : Unicode} {W : Type} {H : Host W}.
Variable m : Manager.

Definition lockSwarm (swarmID : string) : M W (option error) :=
  fun w => let '(e, w') := lock_swarm swarmID w in (e, [EvLock swarmID e], w').

Definition Unlock (swarmID : string) : M W unit :=
  fun w => (tt, [EvUnlock swarmID], unlock_swarm swarmID w).

Definition LoadSwarm (swarmID : string) : M W (Swarm + error) :=
  fun w => let '(r, w') := load_swarm swarmID w in (r, [EvLoad swarmID r], w').

Definition Sleep (d : Z) : M W unit :=
  fun w => (tt, [EvSleep d], sleep d w).

(** [exec.Command("git", args...)] with [cmd.Dir = m.gitDir], then
    [cmd.Run()]. *)
Definition runGit (args : list string) : M W ProcResult :=
  fun w => let '(r, w') := run_git (gitDir m) args w in (r, [EvGit args r], w').

(** The command name [gitRun] reports: the first argument that does not
    start with a dash, and the first argument when that gives nothing. *)
Fixpoint firstNonFlag (args : list string) : string :=
  match args with
  | [] => EmptyString
  | arg :: rest => if negb (HasPrefix arg "-") then arg else firstNonFlag rest
  end.

Definition commandName (args : list string) : string :=
  let command := firstNonFlag args in
  if String.eqb command "" && (0 <? length args)%nat then hd EmptyString args
  else command.

(** What [gitRun] returns for a finished process. *)
Definition gitRunError (args : list string) (r : ProcResult) : option error :=
  match runErr r with
  | None => None
  | Some err =>
      Some (SwarmGitError (commandName args)
              (TrimSpace (stdout r)) (TrimSpace (stderr r)) (Some err))
  end.

Definition gitRun (args : list string) : M W (option error) :=
  r <- runGit args ;; ret (gitRunError args r).

Definition branchExists (branch : string) : M W bool :=
  err <- gitRun ["show-ref"; "--verify"; "--quiet"; ("refs/heads/" ++ branch)%string] ;;
  ret (match err with None => true | Some _ => false end).

Definition getCurrentBranch : M W (string * option error) :=
  r <- runGit ["rev-parse"; "--abbrev-ref"; "HEAD"] ;;
  match runErr r with
  | Some err => ret (EmptyString, Some err)
  | None => ret (TrimSpace (stdout r), None)
  end.

(** The loop of [getConflictingFiles] that keeps the non-empty lines. *)
Fixpoint nonEmpty (files : list string) : list string :=
  match files with
  | [] => []
  | f :: rest => if String.eqb f "" then nonEmpty rest else f :: nonEmpty rest
  end.

(** What [getConflictingFiles] makes of the finished [git diff]. *)
Definition conflictsOf (r : ProcResult) : list string * option error :=
  match runErr r with
  | Some err => ([], Some err)
  | None =>
      let out := TrimSpace (stdout r) in
      if String.eqb out "" then ([], None)
      else (nonEmpty (Split out newline), None)
  end.

Definition diffUnmerged : list string :=
  ["diff"; "--name-only"; "--diff-filter=U"].

Definition getConflictingFiles : M W (list string * option error) :=
  r <- runGit diffUnmerged ;; ret (conflictsOf r).

(** The body of the [for i := 0; i < fetchRetries; i++] loop of
    [fetchWithRetry], by recursion on the iterations left. *)
Fixpoint fetchLoop (remote branch : string) (fuel : nat) (i : Z)
    (lastErr : option error) : M W (option error) :=
  match fuel with
  | O => ret lastErr
  | S fuel' =>
      if (i <? fetchRetries)%Z then
        lastErr <- gitRun ["fetch"; remote; branch] ;;
        match lastErr with
        | None => ret None
        | Some _ =>
            if negb (isTransientFetchError lastErr) then ret lastErr
            else
              (if (i <? fetchRetries - 1)%Z
               then Sleep (wrap64 (fetchRetryDelay * (i + 1))%Z)
               else ret tt) ;;;
              fetchLoop remote branch fuel' (i + 1)%Z lastErr
        end
      else ret lastErr
  end.

Definition fetchWithRetry (remote branch : string) : M W (option error) :=
  fetchLoop remote branch (Z.to_nat fetchRetries) 0 None.

(** The prologue the four locking operations share, word for word: take
    the lock of the swarm ([return err] when that fails), [defer] its
    release, load the swarm ([return err] when that fails), and go on
    with the rest of the function. *)
Definition withSwarmLock (swarmID : string) (rest : Swarm -> M W (option error))
    : M W (option error) :=
  lockErr <- lockSwarm swarmID ;;
  match lockErr with
  | Some err => ret (Some err)
  | None =>
      deferring (Unlock swarmID)
        (loaded <- LoadSwarm swarmID ;;
         match loaded with
         | inr err => ret (Some err)
         | inl swarm => rest swarm
         end)
  end.

(** [CreateIntegrationBranch] from [branchName := swarm.Integration] on. *)
Definition createIntegrationBranch (swarm : Swarm) : M W (option error) :=
  let branchName := Integration swarm in
  exists_ <- branchExists branchName ;;
  if exists_ : bool then ret (Some ErrBranchExists)
  else
    err <- gitRun ["checkout"; "-b"; branchName; BaseCommit swarm] ;;
    match err with
    | Some e => ret (Some (Errorf "creating branch: %w" [] e))
    | None =>
        gitRun ["push"; "-u"; "origin"; branchName] ;;;
        ret None
    end.

Definition CreateIntegrationBranch (swarmID : string) : M W (option error) :=
  withSwarmLock swarmID createIntegrationBranch.

(** What a merge that failed with [err] returns once the unmerged files
    have been listed: [wrap] is the [fmt.Errorf] of the caller. *)
Definition mergeVerdict (wrap : error -> error) (err : error)
    (listing : list string * option error) : option error :=
  let '(conflicts, conflictErr) := listing in
  match conflictErr with
  | None => if (0 <? length conflicts)%nat then Some err else Some (wrap err)
  | Some _ => Some (wrap err)
  end.

(** The [if err != nil] block after [git merge], the same in both merges. *)
Definition afterFailedMerge (wrap : error -> error) (err : error)
    : M W (option error) :=
  listing <- getConflictingFiles ;;
  ret (mergeVerdict wrap err listing).

Definition mergeArgs (message branch : string) : list string :=
  ["merge"; "--no-ff"; "-m"; message; branch].

(** [MergeToIntegration] from [m.getCurrentBranch()] on. *)
Definition mergeToIntegration (workerBranch : string) (swarm : Swarm)
    : M W (option error) :=
  cur <- getCurrentBranch ;;
  let '(currentBranch, err) := cur in
  match err with
  | Some e => ret (Some (Errorf "getting current branch: %w" [] e))
  | None =>
      checkoutErr <-
        (if negb (String.eqb currentBranch (Integration swarm))
         then gitRun ["checkout"; Integration swarm]
         else ret None) ;;
      match checkoutErr with
      | Some e => ret (Some (Errorf "checking out integration: %w" [] e))
      | None =>
          fetchWithRetry "origin" workerBranch ;;;
          err <- gitRun (mergeArgs
                           (Sprintf "Merge %s into %s"
                              [workerBranch; Integration swarm])
                           workerBranch) ;;
          match err with
          | Some e => afterFailedMerge (Errorf "merging: %w" []) e
          | None => ret None
          end
      end
  end.

Definition MergeToIntegration (swarmID workerBranch : string) : M W (option error) :=
  withSwarmLock swarmID (mergeToIntegration workerBranch).

Definition AbortMerge : M W (option error) :=
  gitRun ["merge"; "--abort"].

(** [LandToMain] from the checkout of the target branch on. *)
Definition landToMain (swarmID : string) (swarm : Swarm) : M W (option error) :=
  err <- gitRun ["checkout"; TargetBranch swarm] ;;
  match err with
  | Some e => ret (Some (Errorf "checking out %s: %w" [TargetBranch swarm] e))
  | None =>
      fetchWithRetry "origin" (TargetBranch swarm) ;;;
      err <- gitRun (mergeArgs (Sprintf "Land swarm %s" [swarmID])
                       (Integration swarm)) ;;
      match err with
      | Some e =>
          afterFailedMerge (Errorf "merging to %s: %w" [TargetBranch swarm]) e
      | None =>
          err <- gitRun ["push"; "origin"; TargetBranch swarm] ;;
          match err with
          | Some e => ret (Some (Errorf "pushing: %w" [] e))
          | None => ret None
          end
      end
  end.

Definition LandToMain (swarmID : string) : M W (option error) :=
  withSwarmLock swarmID (landToMain swarmID).

(** The [for _, task := range swarm.Tasks] loop of [CleanupBranches]. *)
Fixpoint deleteWorkerBranches (tasks : list SwarmTask) : M W unit :=
  match tasks with
  | [] => ret tt
  | task :: rest =>
      (if negb (String.eqb (Branch task) "") then
         gitRun ["branch"; "-D"; Branch task] ;;;
         gitRun ["push"; "origin"; "--delete"; Branch task] ;;;
         ret tt
       else ret tt) ;;;
      deleteWorkerBranches rest
  end.

(** [CleanupBranches] from [var lastErr error] on. *)
Definition cleanupBranches (swarm : Swarm) : M W (option error) :=
  err <- gitRun ["branch"; "-D"; Integration swarm] ;;
  let lastErr := err in
  gitRun ["push"; "origin"; "--delete"; Integration swarm] ;;;
  deleteWorkerBranches (Tasks swarm) ;;;
  ret lastErr.

Definition CleanupBranches (swarmID : string) : M W (option error) :=
  withSwarmLock swarmID cleanupBranches.

Definition GetIntegrationBranch (swarmID : string) : M W (string * option error) :=
  loaded <- LoadSwarm swarmID ;;
  match loaded with
  | inr err => ret (EmptyString, Some err)
  | inl swarm => ret (Integration swarm, None)
  end.

End Integration.


(** ** Reading a log *)

(** An event of the retry loop: a fetch of the given branch, or a sleep. *)
Definition fetchEvent (args : list string) (ev : event) : Prop :=
  match ev with
  | EvGit a _ => a = args
  | EvSleep _ => True
  | _ => False
  end.

(** An event of the work done under the lock: a git process or a sleep. *)
Definition working (ev : event) : Prop :=
  match ev with
  | EvGit _ _ | EvSleep _ => True
  | _ => False
  end.

(** The events of the lock manager. *)
Definition isLockEvent (ev : event) : bool :=
  match ev with
  | EvLock _ _ | EvUnlock _ => true
  | _ => false
  end.

(** The lock discipline of a run on the swarm [swarmID]: either the lock is
    refused and the run ends there, returning that error; or the lock is
    taken first, released last, and no lock event happens in between. *)
Definition lockDiscipline {W} (swarmID : string)
    (run : option error * list event * W) : Prop :=
  (exists err, trace run = [EvLock swarmID (Some err)] /\ result run = Some err)
  \/ (exists held,
         trace run = EvLock swarmID None :: held ++ [EvUnlock swarmID]
         /\ Forall (fun ev => isLockEvent ev = false) held).

(** The world in which the rest of a locking operation starts: the lock
    has been asked for and the swarm loaded. *)
Definition afterPrologue {W} {H : Host W} (swarmID : string) (w : W) : W :=
  snd (load_swarm swarmID (snd (lock_swarm swarmID w))).

(** Every event a computation logs satisfies [P], whatever the world. *)
Definition emits {W A} (P : event -> Prop) (c : M W A) : Prop :=
  forall w, Forall P (trace (c w)).

(** An event that is neither a [git merge] nor a [git diff]: what the
    merging operations do before they merge. *)
Definition preparing (ev : event) : Prop :=
  match ev with
  | EvGit ("merge" :: _) _ => False
  | EvGit ("diff" :: _) _ => False
  | _ => True
  end.

(** A computation decides its failed merges by the listing of the unmerged
    files: a [git merge] it ran and that failed with [e] comes after
    preparations only, is followed by that listing and by nothing else,
    and the result is the verdict on [e] and the listing. *)
Definition decided {W} {U : Unicode} (wrap : error -> error)
    (c : M W (option error)) : Prop :=
  forall w margs r e,
    In (EvGit ("merge" :: margs) r) (trace (c w)) ->
    gitRunError ("merge" :: margs) r = Some e ->
    exists pre rd,
      trace (c w) = pre ++ [EvGit ("merge" :: margs) r; EvGit diffUnmerged rd]
      /\ Forall preparing pre
      /\ result (c w) = mergeVerdict wrap e (conflictsOf rd).



(** A failed fetch as the tests of the package build it. *)
Definition fetchFailure (text : string) : error :=
  SwarmGitError "fetch" "" text None.

(** ** A scripted host *)

(** A host for running the operations on concrete inputs: git answers
    with the next result of a script (and succeeds silently once the
    script is used up), the lock and the store answer as configured, and
    sleeping changes nothing. *)
Module Scripted.

Record World : Type := {
  answers : list ProcResult;
  lockAnswer : option error;
  storeAnswer : Swarm + error
}.

Definition ok : ProcResult :=
  {| runErr := None; stdout := EmptyString; stderr := EmptyString |}.

(** A process that exits with status [n], having printed [out] and [err]. *)
Definition exited (n out err : string) : ProcResult :=
  {| runErr := Some (errorString ("exit status " ++ n)%string);
     stdout := out; stderr := err |}.

Definition next (w : World) : ProcResult * World :=
  match answers w with
  | [] => (ok, w)
  | r :: rest =>
      (r, {| answers := rest; lockAnswer := lockAnswer w;
             storeAnswer := storeAnswer w |})
  end.

#[export] Instance host : Host World := {|
  run_git := fun _ _ w => next w;
  sleep := fun _ w => w;
  lock_swarm := fun _ w => (lockAnswer w, w);
  unlock_swarm := fun _ w => w;
  load_swarm := fun _ w => (storeAnswer w, w)
|}.

Definition task (id branch : string) : SwarmTask :=
  {| TaskID := id; Branch := branch; Dependencies := []; Completed := false |}.

Definition sw1 : Swarm :=
  {| ID := "sw-1"; BaseCommit := "abc123"; Integration := "swarm/sw-1";
     TargetBranch := "main";
     Tasks := [task "task-1" "sw-1/Toast/task-1"; task "task-2" "";
               task "task-3" "sw-1/Nux/task-3"] |}.

Definition world (script : list ProcResult) : World :=
  {| answers := script; lockAnswer := None; storeAnswer := inl sw1 |}.

Definition rig : Manager := {| gitDir := "/tmp/test-rig" |}.

End Scripted.

(** ** The retry schedule *)

(** The log of a retry loop whose attempts were answered by [rs], the
    first of them being attempt number [k]: a fetch per answer and, between
    two fetches, a sleep of [k] times the base delay. *)
Fixpoint schedule (args : list string) (k : Z) (rs : list ProcResult) : list event :=
  match rs with
  | [] => []
  | r :: rest =>
      match rest with
      | [] => [EvGit args r]
      | _ :: _ =>
          EvGit args r :: EvSleep (wrap64 (fetchRetryDelay * k))
            :: schedule args (k + 1) rest
      end
  end.



(** ** The four locking operations, as one *)

Inductive Operation : Type :=
| Create
| Merge (workerBranch : string)
| Land
| Cleanup.

Definition perform {U : Unicode} {W : Type} {H : Host W} (m : Manager)
    (swarmID : string) (op : Operation) : M W (option error) :=
  match op with
  | Create => CreateIntegrationBranch m swarmID
  | Merge workerBranch => MergeToIntegration m swarmID workerBranch
  | Land => LandToMain m swarmID
  | Cleanup => CleanupBranches m swarmID
  end.

(** ** Lines *)

(** The names [files], one per line: what [git diff --name-only] prints for
    them, less the final newline. *)
Fixpoint joinLines (files : list string) : string :=
  match files with
  | [] => EmptyString
  | f :: rest =>
      match rest with
      | [] => f
      | _ :: _ => (f ++ String newline (joinLines rest))%string
      end
  end.

(** A name [getConflictingFiles] can return: not empty, and on one line. *)
Definition fileName (f : string) : Prop :=
  f <> EmptyString /\ hasByte newline f = false.

(** An argument that starts with a dash. *)
Definition isFlag (arg : string) : bool := HasPrefix arg "-".

(** Worlds of the scripted host for the runs below. *)
Module Runs.

(** The checkout is on the integration branch already. *)
Definition onIntegration : ProcResult :=
  {| runErr := None; stdout := "swarm/sw-1
"; stderr := "" |}.

(** The checkout is on another branch. *)
Definition onMain : ProcResult :=
  {| runErr := None; stdout := "main
"; stderr := "" |}.

Definition conflict : ProcResult :=
  Scripted.exited "1" "CONFLICT (content): Merge conflict in a.go" "".

Definition unreachable : ProcResult :=
  Scripted.exited "128" "" "fatal: unable to access: Could not resolve host".

Definition rejected : ProcResult :=
  Scripted.exited "1" "" "! [rejected] main -> main (fetch first)".

Definition listing : ProcResult :=
  {| runErr := None; stdout := "a.go
"; stderr := "" |}.

Definition storeDown : error := errorString "bd: issue store unavailable".

(** A world whose store cannot load the swarm. *)
Definition noStore : Scripted.World :=
  {| Scripted.answers := []; Scripted.lockAnswer := None;
     Scripted.storeAnswer := inr storeDown |}.

End Runs.

(** * Agent identities (internal/session/identity.go) *)

Module Session.

(** [strings.TrimPrefix] and [strings.TrimSuffix]. *)
Fixpoint dropBytes (n : nat) (s : string) : string :=
  match n, s with
  | O, _ => s
  | S n', String _ s' => dropBytes n' s'
  | S _, EmptyString => EmptyString
  end.

Definition TrimPrefix (s pre : string) : string :=
  if HasPrefix s pre then dropBytes (String.length pre) s else s.

Fixpoint HasSuffix (s suffix : string) : bool :=
  if String.eqb s suffix then true
  else match s with
       | EmptyString => false
       | String _ s' => HasSuffix s' suffix
       end.

Fixpoint TrimSuffix (s suffix : string) : string :=
  if String.eqb s suffix then EmptyString
  else match s with
       | EmptyString => EmptyString
       | String c s' =>
           if HasSuffix s' suffix then String c (TrimSuffix s' suffix) else s
       end.

(** [type Role string] and its six constants. *)
Definition RoleName : Type := string.

Definition RoleMayor : RoleName := "mayor".
Definition RoleDeacon : RoleName := "deacon".
Definition RoleWitness : RoleName := "witness".
Definition RoleRefinery : RoleName := "refinery".
Definition RoleCrew : RoleName := "crew".
Definition RolePolecat : RoleName := "polecat".

Record AgentIdentity : Type := {
  Role : RoleName;
  Rig : string;
  Name : string;
  Prefix : string
}.

(** A Go [map[string]string]: the bindings, at most one per key. The
    order of the list is not the order Go ranges over the map in, which
    is any order. *)
Definition GoMap : Type := list (string * string).

Fixpoint lookup (k : string) (m : GoMap) : option string :=
  match m with
  | [] => None
  | (k', v) :: rest => if String.eqb k' k then Some v else lookup k rest
  end.

Fixpoint remove (k : string) (m : GoMap) : GoMap :=
  match m with
  | [] => []
  | (k', v) :: rest =>
      if String.eqb k' k then remove k rest else (k', v) :: remove k rest
  end.

(** [m[k] = v]. *)
Definition store (k v : string) (m : GoMap) : GoMap := (k, v) :: remove k m.

Definition keys (m : GoMap) : list string := map fst m.

(** The two package-level maps of the prefix registry. *)
Record Registry : Type := {
  prefixToRig : GoMap;
  rigToPrefix : GoMap
}.

Definition emptyRegistry : Registry := {| prefixToRig := []; rigToPrefix := [] |}.

Definition RegisterRigPrefix (rigName pre : string) (reg : Registry) : Registry :=
  {| prefixToRig := store pre rigName (prefixToRig reg);
     rigToPrefix := store rigName pre (rigToPrefix reg) |}.

Definition PrefixForRig (reg : Registry) (rigName : string) : string :=
  match lookup rigName (rigToPrefix reg) with
  | Some p => p
  | None => "gt"
  end.

Definition RigForPrefix (reg : Registry) (pre : string) : string :=
  match lookup pre (prefixToRig reg) with
  | Some r => r
  | None => pre
  end.

Definition ClearPrefixRegistry (reg : Registry) : Registry := emptyRegistry.

(** The states of the registry: the two maps start empty, and
    [RegisterRigPrefix] and [ClearPrefixRegistry] are the only functions of
    identity.go that write them. *)
Inductive reachable : Registry -> Prop :=
| reachable_start : reachable emptyRegistry
| reachable_register (rigName pre : string) (reg : Registry) :
    reachable reg -> reachable (RegisterRigPrefix rigName pre reg)
| reachable_clear (reg : Registry) :
    reachable reg -> reachable (ClearPrefixRegistry reg).

(** What [sort.Slice] with [len(prefixes[i]) > len(prefixes[j])] leaves:
    no prefix comes before a longer one. *)
Definition longestFirst (l : list string) : Prop :=
  StronglySorted (fun a b => String.length b <= String.length a) l.

(** The slices [RegisteredPrefixes] can return: the keys of the map, in
    whatever order the range and the unstable sort leave those of one
    length. *)
Definition registeredPrefixes (reg : Registry) (l : list string) : Prop :=
  Permutation l (keys (prefixToRig reg)) /\ longestFirst l.

(** One of them, by insertion. *)
Fixpoint insertByLength (p : string) (l : list string) : list string :=
  match l with
  | [] => [p]
  | q :: rest =>
      if (String.length q <? String.length p)%nat then p :: q :: rest
      else q :: insertByLength p rest
  end.

Definition RegisteredPrefixes (reg : Registry) : list string :=
  fold_right insertByLength [] (keys (prefixToRig reg)).

(** [strconv.Quote], which the [%q] verb applies to a string: it depends
    on Unicode tables and is a parameter. *)
Class Quoting : Type := { Quote : string -> string }.

(** The constant [HQPrefix] and the functions that build session names are
    declared outside identity.go: they are parameters. *)
Class SessionNames : Type := {
  HQPrefix : string;
  MayorSessionName : string;
  DeaconSessionName : string;
  BootSessionName : string;
  WitnessSessionName : string -> string;
  RefinerySessionName : string -> string;
  CrewSessionName : string -> string -> string;
  PolecatSessionName : string -> string -> string
}.

(** The names as the doc comment of [ParseSessionName] lists them and as
    the tests of the package expect them. *)
Definition documentedNames : SessionNames := {|
  HQPrefix := "hq-";
  MayorSessionName := "hq-mayor";
  DeaconSessionName := "hq-deacon";
  BootSessionName := "hq-boot";
  WitnessSessionName := fun p => (p ++ "-witness")%string;
  RefinerySessionName := fun p => (p ++ "-refinery")%string;
  CrewSessionName := fun p name => (p ++ "-crew-" ++ name)%string;
  PolecatSessionName := fun p name => (p ++ "-" ++ name)%string
|}.

(** A quoting for running the functions: double quotes around the text,
    which is [strconv.Quote] on printable text without quotes or
    backslashes. *)
Definition plainQuoting : Quoting :=
  {| Quote := fun s => (String (Ascii.ascii_of_nat 34) s
                          ++ String (Ascii.ascii_of_nat 34) EmptyString)%string |}.

(** What a parser returns: the identity, or nil, and the error, or nil. *)
Definition Parsed : Type := (option AgentIdentity * option error)%type.

Definition identity (role : RoleName) (rig name pre : string) : AgentIdentity :=
  {| Role := role; Rig := rig; Name := name; Prefix := pre |}.

Section Parsing.
Context {U : Unicode} {Q : Quoting} {N : SessionNames}.

(** [fmt.Errorf] without [%w]: an error that only carries its message;
    [%q] of a string is [%s] of its quotation. *)
Definition invalidAddress (address : string) : Parsed :=
  (None, Some (errorString (Sprintf "invalid address %s" [Quote address]))).

Definition ParseAddress (address : string) : Parsed :=
  let address := TrimSpace address in
  if String.eqb address "" then (None, Some (errorString "empty address"))
  else if String.eqb address "mayor" || String.eqb address "mayor/"
  then (Some (identity RoleMayor "" "" ""), None)
  else if String.eqb address "deacon" || String.eqb address "deacon/"
  then (Some (identity RoleDeacon "" "" ""), None)
  else if String.eqb address "overseer"
  then (None, Some (errorString "overseer has no session"))
  else
    let address := TrimSuffix address "/" in
    let parts := Split address slash in
    if (length parts <? 2)%nat then invalidAddress address
    else
      let rig := nth 0 parts EmptyString in
      match length parts with
      | 2 =>
          let name := nth 1 parts EmptyString in
          if String.eqb name "witness"
          then (Some (identity RoleWitness rig "" ""), None)
          else if String.eqb name "refinery"
          then (Some (identity RoleRefinery rig "" ""), None)
          else if String.eqb name "crew" || String.eqb name "polecats"
          then invalidAddress address
          else (Some (identity RolePolecat rig name ""), None)
      | 3 =>
          let role := nth 1 parts EmptyString in
          let name := nth 2 parts EmptyString in
          if String.eqb role "crew"
          then (Some (identity RoleCrew rig name ""), None)
          else if String.eqb role "polecats"
          then (Some (identity RolePolecat rig name ""), None)
          else invalidAddress address
      | _ => invalidAddress address
      end.

Definition parseRigSuffix (suffix rigName pre : string) : Parsed :=
  if String.eqb suffix "witness"
  then (Some (identity RoleWitness rigName "" pre), None)
  else if String.eqb suffix "refinery"
  then (Some (identity RoleRefinery rigName "" pre), None)
  else if HasPrefix suffix "crew-" then
    let name := TrimPrefix suffix "crew-" in
    if String.eqb name ""
    then (None, Some (errorString
                        (Sprintf "invalid session suffix %s: empty crew name"
                           [Quote suffix])))
    else (Some (identity RoleCrew rigName name pre), None)
  else (Some (identity RolePolecat rigName suffix pre), None).

(** The [for _, prefix := range prefixes] loop of [ParseSessionName]. *)
Fixpoint parseRegistered (reg : Registry) (prefixes : list string)
    (session : string) : Parsed :=
  match prefixes with
  | [] =>
      (None, Some (errorString
                     (Sprintf "invalid session name %s: no registered prefix matches"
                        [Quote session])))
  | pre :: rest =>
      let marker := (pre ++ "-")%string in
      if negb (HasPrefix session marker) then parseRegistered reg rest session
      else
        let suffix := TrimPrefix session marker in
        if String.eqb suffix ""
        then (None, Some (errorString
                            (Sprintf "invalid session name %s: empty after prefix"
                               [Quote session])))
        else parseRigSuffix suffix (RigForPrefix reg pre) pre
  end.

(** [ParseSessionName], given the slice [RegisteredPrefixes] returned. *)
Definition ParseSessionNameWith (reg : Registry) (prefixes : list string)
    (session : string) : Parsed :=
  if HasPrefix session HQPrefix then
    let suffix := TrimPrefix session HQPrefix in
    if String.eqb suffix "mayor"
    then (Some (identity RoleMayor "" "" "hq"), None)
    else if String.eqb suffix "deacon"
    then (Some (identity RoleDeacon "" "" "hq"), None)
    else if String.eqb suffix "boot"
    then (Some (identity RoleDeacon "" "boot" "hq"), None)
    else if String.eqb suffix "overseer"
    then (Some (identity "" "" "" "hq"),
          Some (errorString
                  (Sprintf "invalid session name %s: overseer is not an agent"
                     [Quote session])))
    else (None, Some (errorString
                        (Sprintf "invalid session name %s: unknown hq- role"
                           [Quote session])))
  else parseRegistered reg prefixes session.

Definition ParseSessionName (reg : Registry) (session : string) : Parsed :=
  ParseSessionNameWith reg (RegisteredPrefixes reg) session.

Definition SessionName (reg : Registry) (a : AgentIdentity) : string :=
  let pre := if String.eqb (Prefix a) "" then PrefixForRig reg (Rig a)
             else Prefix a in
  if String.eqb (Role a) RoleMayor then MayorSessionName
  else if String.eqb (Role a) RoleDeacon then
    if String.eqb (Name a) "boot" then BootSessionName else DeaconSessionName
  else if String.eqb (Role a) RoleWitness then WitnessSessionName pre
  else if String.eqb (Role a) RoleRefinery then RefinerySessionName pre
  else if String.eqb (Role a) RoleCrew then CrewSessionName pre (Name a)
  else if String.eqb (Role a) RolePolecat then PolecatSessionName pre (Name a)
  else EmptyString.

Definition Address (a : AgentIdentity) : string :=
  if String.eqb (Role a) RoleMayor then "mayor"
  else if String.eqb (Role a) RoleDeacon then "deacon"
  else if String.eqb (Role a) RoleWitness then Sprintf "%s/witness" [Rig a]
  else if String.eqb (Role a) RoleRefinery then Sprintf "%s/refinery" [Rig a]
  else if String.eqb (Role a) RoleCrew then Sprintf "%s/crew/%s" [Rig a; Name a]
  else if String.eqb (Role a) RolePolecat
  then Sprintf "%s/polecats/%s" [Rig a; Name a]
  else EmptyString.

Definition GTRole (a : AgentIdentity) : string := Address a.

End Parsing.

(** The registry of the tests: gastown, beads and foo-bar. *)
Definition testRegistry : Registry :=
  RegisterRigPrefix "foo-bar" "fb"
    (RegisterRigPrefix "beads" "bd"
       (RegisterRigPrefix "gastown" "gt" emptyRegistry)).

End Session.

(** ** Facts about strings *)

Section StringFacts.

Lemma append_nil_r (s : string) : (s ++ "")%string = s.
Proof. induction s; simpl; congruence. Qed.

Lemma append_assoc (a b c : string) :
  ((a ++ b) ++ c)%string = (a ++ (b ++ c))%string.
Proof. induction a; simpl; congruence. Qed.

Lemma append_inv_head (a b c : string) :
  (a ++ b)%string = (a ++ c)%string -> b = c.
Proof. induction a; simpl; intros E; [assumption | injection E; auto]. Qed.

Lemma HasPrefix_iff (s p : string) :
  HasPrefix s p = true <-> exists b, s = (p ++ b)%string.
Proof.
  revert s; induction p as [|c p IH]; intros s; simpl.
  - split; [intros _; exists s; reflexivity | reflexivity].
  - destruct s as [|d s].
    + split; [discriminate | intros [b E]; discriminate].
    + rewrite andb_true_iff, Ascii.eqb_eq, IH. split.
      * intros [-> [b ->]]. exists b. reflexivity.
      * intros [b E]. injection E as -> ->. eauto.
Qed.

(** [Contains] finds exactly the substrings. *)
Lemma Contains_iff (s p : string) :
  Contains s p = true <-> exists a b, s = (a ++ p ++ b)%string.
Proof.
  induction s as [|c s IH]; simpl.
  - destruct (HasPrefix "" p) eqn:E.
    + split; [intros _ | reflexivity].
      apply HasPrefix_iff in E. destruct E as [b E]. exists ""%string, b. exact E.
    + split; [discriminate|]. intros [a [b Eab]].
      destruct a; simpl in Eab.
      * assert (HasPrefix "" p = true) by (apply HasPrefix_iff; eauto). congruence.
      * discriminate.
  - destruct (HasPrefix (String c s) p) eqn:E.
    + split; [intros _ | reflexivity].
      apply HasPrefix_iff in E. destruct E as [b E]. exists ""%string, b. exact E.
    + rewrite IH. split.
      * intros [a [b Eab]]. exists (String c a), b. simpl. congruence.
      * intros [a [b Eab]]. destruct a as [|d a]; simpl in Eab.
        -- assert (HasPrefix (String c s) p = true) by (apply HasPrefix_iff; eauto).
           congruence.
        -- injection Eab as _ Eab. eauto.
Qed.

Lemma hasByte_append (c : ascii) (a b : string) :
  hasByte c (a ++ b) = hasByte c a || hasByte c b.
Proof.
  induction a as [|d a IH]; simpl; [reflexivity|].
  rewrite IH. apply orb_assoc.
Qed.

(** Two texts cut at a separator that the left parts do not contain are
    cut at the same place. *)
Lemma cut_left_unique (c : ascii) (a1 b1 a2 b2 : string) :
  hasByte c a1 = false -> hasByte c a2 = false ->
  (a1 ++ String c b1)%string = (a2 ++ String c b2)%string ->
  a1 = a2 /\ b1 = b2.
Proof.
  revert a2; induction a1 as [|d a1 IH]; intros [|e a2]; simpl; intros H1 H2 E.
  - injection E; auto.
  - injection E as <- _. rewrite Ascii.eqb_refl in H2. discriminate.
  - injection E as -> _. rewrite Ascii.eqb_refl in H1. discriminate.
  - injection E as <- E. apply orb_false_iff in H1, H2.
    destruct (IH a2) as [-> ->]; tauto.
Qed.

(** The same when it is the right parts that do not contain it. *)
Lemma cut_right_unique (c : ascii) (a1 b1 a2 b2 : string) :
  hasByte c b1 = false -> hasByte c b2 = false ->
  (a1 ++ String c b1)%string = (a2 ++ String c b2)%string ->
  a1 = a2 /\ b1 = b2.
Proof.
  revert a2; induction a1 as [|d a1 IH]; intros [|e a2]; simpl; intros H1 H2 E.
  - injection E; auto.
  - injection E as <- E. subst b1. rewrite hasByte_append in H1. simpl in H1.
    rewrite Ascii.eqb_refl in H1. rewrite orb_true_r in H1. discriminate.
  - injection E as -> E. subst b2. rewrite hasByte_append in H2. simpl in H2.
    rewrite Ascii.eqb_refl in H2. rewrite orb_true_r in H2. discriminate.
  - injection E as <- E. destruct (IH a2) as [-> ->]; auto.
Qed.

Lemma GetWorkerBranch_eq (m : Manager) (s w t : string) :
  GetWorkerBranch m s w t = (s ++ "/" ++ w ++ "/" ++ t)%string.
Proof.
  unfold GetWorkerBranch. simpl. rewrite append_nil_r. reflexivity.
Qed.

End StringFacts.

(** ** Worker branch names *)

(** C7. [GetWorkerBranch] is a pure function of its three arguments: it
    returns the swarm, the worker and the task joined by slashes, in
    particular "sw-1/Toast/task-123" for "sw-1", "Toast" and "task-123",
    and the manager it is called on has no influence on the value. *)
Theorem GetWorkerBranch_pure :
  (forall m swarmID worker taskID,
      GetWorkerBranch m swarmID worker taskID
      = (swarmID ++ "/" ++ worker ++ "/" ++ taskID)%string)
  /\ (forall m, GetWorkerBranch m "sw-1" "Toast" "task-123" = "sw-1/Toast/task-123")
  /\ (forall m m' swarmID worker taskID,
         GetWorkerBranch m swarmID worker taskID
         = GetWorkerBranch m' swarmID worker taskID).
Proof.
  split; [|split].
  - intros; apply GetWorkerBranch_eq.
  - reflexivity.
  - reflexivity.
Qed.

(** C8, as stated, fails: a worker name may itself contain a slash, and
    then two different (worker, task) pairs of one swarm get one name. *)
Lemma GetWorkerBranch_collides :
  ("a/b", "c") <> ("a", "b/c")
  /\ GetWorkerBranch Scripted.rig "sw-1" "a/b" "c"
     = GetWorkerBranch Scripted.rig "sw-1" "a" "b/c".
Proof. split; [discriminate | reflexivity]. Qed.

(** C8, amended. Under one swarm, two distinct (worker, task) pairs get two
    distinct branch names whenever neither worker name contains a slash, or
    neither task identifier does. *)
Theorem GetWorkerBranch_injective :
  forall m swarmID worker1 taskID1 worker2 taskID2,
    (hasByte slash worker1 = false /\ hasByte slash worker2 = false)
    \/ (hasByte slash taskID1 = false /\ hasByte slash taskID2 = false) ->
    (worker1, taskID1) <> (worker2, taskID2) ->
    GetWorkerBranch m swarmID worker1 taskID1
    <> GetWorkerBranch m swarmID worker2 taskID2.
Proof.
  intros m s w1 t1 w2 t2 Hs Hne E. apply Hne.
  rewrite !GetWorkerBranch_eq in E.
  apply append_inv_head in E. simpl in E. injection E as E.
  destruct Hs as [[H1 H2]|[H1 H2]].
  - destruct (cut_left_unique slash w1 t1 w2 t2 H1 H2 E) as [-> ->]. reflexivity.
  - destruct (cut_right_unique slash w1 t1 w2 t2 H1 H2 E) as [-> ->]. reflexivity.
Qed.

Lemma GetWorkerBranch_injective_witness :
  GetWorkerBranch Scripted.rig "sw-1" "Toast" "task-1"
  <> GetWorkerBranch Scripted.rig "sw-1" "Nux" "task-1".
Proof.
  apply (@GetWorkerBranch_injective Scripted.rig "sw-1" "Toast" "task-1" "Nux" "task-1").
  - left. split; reflexivity.
  - discriminate.
Defined.

(** ** The fetch classifier *)

Section ClassifierFacts.
Context {U : Unicode}.

Lemma scanPatterns_false_iff (stderr : string) (patterns : list string) :
  scanPatterns stderr patterns = false
  <-> exists p, In p patterns /\ Contains stderr p = true.
Proof.
  induction patterns as [|q rest IH]; simpl.
  - split; [discriminate | intros [p [[] _]]].
  - destruct (Contains stderr q) eqn:E.
    + split; [intros _; exists q; auto | reflexivity].
    + rewrite IH. split.
      * intros [p [Hin Hc]]. exists p. auto.
      * intros [p [[->|Hin] Hc]]; [congruence | eauto].
Qed.

Lemma errors_As_git (e g : error) :
  errors_As e = Some g -> exists c so se err, g = SwarmGitError c so se err.
Proof.
  induction e; simpl; intros E; try discriminate; eauto.
  injection E as <-. eauto.
Qed.

End ClassifierFacts.

(** C2. [isTransientFetchError] answers "not transient" exactly for nil and
    for an error that is, or wraps, a [SwarmGitError] whose lowercased
    stderr contains one of the five permanent patterns; every other error
    is transient: an error that holds no [SwarmGitError], and a
    [SwarmGitError] without these patterns, as in the table of the tests. *)
Theorem isTransientFetchError_spec :
  (forall (U : Unicode) (err : option error),
      isTransientFetchError err = false
      <-> (err = None
           \/ exists e gitErr pattern before after,
               err = Some e
               /\ errors_As e = Some gitErr
               /\ In pattern [ "couldn't find remote ref"; "not found";
                               "does not appear to be a git repository";
                               "permission denied"; "authentication failed" ]
               /\ ToLower (Stderr gitErr) = (before ++ pattern ++ after)%string))
  /\ (forall (U : Unicode) (text : string),
         isTransientFetchError (Some (errorString text)) = true)
  /\ (let transient := @isTransientFetchError asciiText in
      transient None = false
      /\ transient (Some (fetchFailure "fatal: couldn't find remote ref some-branch")) = false
      /\ transient (Some (fetchFailure "Permission denied (publickey)")) = false
      /\ transient (Some (fetchFailure "Authentication failed for 'https://...'")) = false
      /\ transient (Some (fetchFailure "does not appear to be a git repository")) = false
      /\ transient (Some (fetchFailure "fatal: unable to access: Could not resolve host")) = true
      /\ transient (Some (fetchFailure "Could not resolve host")) = true
      /\ transient (Some (fetchFailure "fatal: the remote end hung up unexpectedly")) = true
      /\ transient (Some (fetchFailure "the remote end hung up unexpectedly")) = true
      /\ transient (Some (errorString "some other error")) = true).
Proof.
  split; [|split].
  - intros U [e|]; unfold isTransientFetchError.
    + destruct (errors_As e) as [g|] eqn:Eg.
      * rewrite scanPatterns_false_iff. unfold permanentPatterns. split.
        -- intros [p [Hin Hc]]. right. apply Contains_iff in Hc.
           destruct Hc as [a [b Hab]]. exists e, g, p, a, b. auto.
        -- intros [Hn|[e' [g' [p [a [b [He [Hg [Hin Hab]]]]]]]]]; [discriminate|].
           injection He as <-. rewrite Eg in Hg. injection Hg as <-.
           exists p. split; [exact Hin|]. apply Contains_iff. eauto.
      * split; [discriminate|].
        intros [Hn|[e' [g' [p [a [b [He [Hg _]]]]]]]]; [discriminate|].
        injection He as <-. congruence.
    + split; auto.
  - reflexivity.
  - cbv zeta. repeat split; vm_compute; reflexivity.
Qed.

(** ** Runs of the operations *)

Arguments wrap64 : simpl never.
Arguments fetchWithRetry : simpl never.
Arguments Sprintf : simpl nomatch.
Arguments isTransientFetchError : simpl never.
Arguments fetchRetryDelay : simpl never.

Section Runs.
Context {U : Unicode} {W : Type} {H : Host W}.
Variable m : Manager.

Lemma bind_run {A B} (c : M W A) (f : A -> M W B) (w : W) :
  bind c f w
  = (result (f (result (c w)) (final (c w))),
     trace (c w) ++ trace (f (result (c w)) (final (c w))),
     final (f (result (c w)) (final (c w)))).
Proof.
  unfold bind, result, trace, final.
  destruct (c w) as [[a t1] w1]; simpl.
  destruct (f a w1) as [[b t2] w2]; reflexivity.
Qed.

Lemma gitRun_run (args : list string) (w : W) :
  gitRun m args w
  = (gitRunError args (fst (run_git (gitDir m) args w)),
     [EvGit args (fst (run_git (gitDir m) args w))],
     snd (run_git (gitDir m) args w)).
Proof.
  unfold gitRun, runGit, bind, ret.
  destruct (run_git (gitDir m) args w) as [r w']; reflexivity.
Qed.

(** One iteration of the retry loop. *)
Lemma fetchLoop_step (remote branch : string) (fuel : nat) (i : Z)
    (lastErr : option error) (w : W) :
  let args := ["fetch"; remote; branch] in
  let r := fst (run_git (gitDir m) args w) in
  let w1 := snd (run_git (gitDir m) args w) in
  fetchLoop m remote branch (S fuel) i lastErr w
  = if (i <? fetchRetries)%Z then
      match gitRunError args r with
      | None => (None, [EvGit args r], w1)
      | Some e =>
          if isTransientFetchError (Some e) then
            if (i <? fetchRetries - 1)%Z then
              let d := wrap64 (fetchRetryDelay * (i + 1)) in
              let rest := fetchLoop m remote branch fuel (i + 1) (Some e) (sleep d w1) in
              (result rest, EvGit args r :: EvSleep d :: trace rest, final rest)
            else
              let rest := fetchLoop m remote branch fuel (i + 1) (Some e) w1 in
              (result rest, EvGit args r :: trace rest, final rest)
          else (Some e, [EvGit args r], w1)
      end
    else (lastErr, [], w).
Proof.
  intros args r w1. cbn [fetchLoop].
  destruct (i <? fetchRetries)%Z; [|reflexivity].
  rewrite bind_run, gitRun_run. unfold result, trace, final; cbn [fst snd].
  fold args; fold r; fold w1.
  destruct (gitRunError args r) as [e|]; [|reflexivity].
  destruct (isTransientFetchError (Some e)); cbn [negb]; [|reflexivity].
  destruct (i <? fetchRetries - 1)%Z; unfold bind, Sleep, ret; cbv zeta.
  - destruct (fetchLoop m remote branch fuel (i + 1) (Some e) _) as [[a t] w2].
    reflexivity.
  - destruct (fetchLoop m remote branch fuel (i + 1) (Some e) w1) as [[a t] w2].
    reflexivity.
Qed.

Lemma fetchLoop_events (remote branch : string) (fuel : nat) :
  forall i lastErr w,
    Forall (fetchEvent ["fetch"; remote; branch])
      (trace (fetchLoop m remote branch fuel i lastErr w)).
Proof.
  induction fuel as [|fuel IH]; intros i lastErr w.
  - constructor.
  - rewrite fetchLoop_step.
    destruct (i <? fetchRetries)%Z; [|constructor].
    destruct (gitRunError _ _) as [e|].
    + destruct (isTransientFetchError (Some e)).
      * destruct (i <? fetchRetries - 1)%Z; cbv zeta; unfold trace at 1; simpl;
          repeat (constructor; [simpl; auto|]); apply IH.
      * repeat constructor.
    + repeat constructor.
Qed.




End Runs.

(** ** The shared prologue and the bodies of the operations *)

Section Bodies.
Context {U : Unicode} {W : Type} {H : Host W}.
Variable m : Manager.

Lemma emits_ret {A} (P : event -> Prop) (a : A) : emits P (@ret W A a).
Proof. intros w. constructor. Qed.

Lemma emits_bind {A B} (P : event -> Prop) (c : M W A) (f : A -> M W B) :
  emits P c -> (forall a, emits P (f a)) -> emits P (bind c f).
Proof.
  intros Hc Hf w. rewrite bind_run. unfold trace at 1; cbn [fst snd].
  apply Forall_app. split; [apply Hc | apply Hf].
Qed.

Lemma emits_gitRun (P : event -> Prop) (args : list string) :
  (forall r, P (EvGit args r)) -> emits P (gitRun m args).
Proof.
  intros HP w. rewrite gitRun_run. unfold trace; cbn [fst snd].
  constructor; [apply HP | constructor].
Qed.

Lemma emits_runGit (P : event -> Prop) (args : list string) :
  (forall r, P (EvGit args r)) -> emits P (runGit m args).
Proof.
  intros HP w. unfold runGit, trace.
  destruct (run_git (gitDir m) args w) as [r w']; cbn [fst snd].
  constructor; [apply HP | constructor].
Qed.

Lemma emits_weaken {A} (P Q : event -> Prop) (c : M W A) :
  (forall ev, P ev -> Q ev) -> emits P c -> emits Q c.
Proof. intros HPQ Hc w. eapply Forall_impl; [exact HPQ | apply Hc]. Qed.

Lemma emits_fetchWithRetry (remote branch : string) :
  emits (fetchEvent ["fetch"; remote; branch]) (fetchWithRetry m remote branch).
Proof. intros w. apply fetchLoop_events. Qed.

Lemma fetchEvent_working (args : list string) (ev : event) :
  fetchEvent args ev -> working ev.
Proof. destruct ev; simpl; auto. Qed.

(** Proves that a body built from the primitives only logs events that
    satisfy the predicate at hand. *)
Ltac emits_step :=
  match goal with
  | |- emits _ (ret _) => apply emits_ret
  | |- emits _ (bind _ _) => apply emits_bind; [|intros ?]
  | |- emits _ (gitRun _ _) => apply emits_gitRun; intros ?
  | |- emits _ (runGit _ _) => apply emits_runGit; intros ?
  | |- emits _ (fetchWithRetry _ _ _) =>
      eapply emits_weaken; [|apply emits_fetchWithRetry]; intros ? ?
  | |- emits _ (match ?x with _ => _ end) => destruct x
  | |- emits _ (let '(_, _) := ?x in _) => destruct x
  end.

Lemma working_createIntegrationBranch (swarm : Swarm) :
  emits working (createIntegrationBranch m swarm).
Proof.
  unfold createIntegrationBranch, branchExists.
  repeat emits_step; simpl; auto.
Qed.

Lemma working_mergeToIntegration (workerBranch : string) (swarm : Swarm) :
  emits working (mergeToIntegration m workerBranch swarm).
Proof.
  unfold mergeToIntegration, getCurrentBranch, afterFailedMerge, getConflictingFiles.
  repeat emits_step; simpl; eauto using fetchEvent_working.
Qed.

Lemma working_landToMain (swarmID : string) (swarm : Swarm) :
  emits working (landToMain m swarmID swarm).
Proof.
  unfold landToMain, afterFailedMerge, getConflictingFiles.
  repeat emits_step; simpl; eauto using fetchEvent_working.
Qed.

Lemma working_deleteWorkerBranches (tasks : list SwarmTask) :
  emits working (deleteWorkerBranches m tasks).
Proof.
  induction tasks as [|task rest IH]; cbn [deleteWorkerBranches].
  - apply emits_ret.
  - apply emits_bind; [|intros _; exact IH].
    repeat emits_step; simpl; auto.
Qed.

Lemma working_cleanupBranches (swarm : Swarm) :
  emits working (cleanupBranches m swarm).
Proof.
  unfold cleanupBranches.
  repeat emits_step; simpl; auto.
  apply working_deleteWorkerBranches.
Qed.

(** The run of the shared prologue, case by case. *)
Lemma withSwarmLock_run (swarmID : string) (rest : Swarm -> M W (option error))
    (w : W) :
  let w1 := snd (lock_swarm swarmID w) in
  let w2 := snd (load_swarm swarmID w1) in
  withSwarmLock swarmID rest w
  = match fst (lock_swarm swarmID w) with
    | Some err => (Some err, [EvLock swarmID (Some err)], w1)
    | None =>
        match fst (load_swarm swarmID w1) with
        | inr err =>
            (Some err, [EvLock swarmID None; EvLoad swarmID (inr err);
                        EvUnlock swarmID],
             unlock_swarm swarmID w2)
        | inl swarm =>
            (result (rest swarm w2),
             EvLock swarmID None :: EvLoad swarmID (inl swarm)
               :: trace (rest swarm w2) ++ [EvUnlock swarmID],
             unlock_swarm swarmID (final (rest swarm w2)))
        end
    end.
Proof.
  intros w1 w2. subst w1 w2.
  unfold withSwarmLock, deferring, lockSwarm, LoadSwarm, Unlock, bind, ret.
  destruct (lock_swarm swarmID w) as [[err|] w1]; cbn [fst snd]; [reflexivity|].
  destruct (load_swarm swarmID w1) as [[swarm|err] w2]; cbn [fst snd];
    [|reflexivity].
  unfold result, trace, final.
  destruct (rest swarm w2) as [[res t] w3]; cbn [fst snd app].
  reflexivity.
Qed.

(** Under the prologue the lock is taken first and released last, whatever
    the rest of the operation does and returns. *)
Lemma withSwarmLock_discipline (swarmID : string)
    (rest : Swarm -> M W (option error)) (w : W) :
  (forall swarm, emits working (rest swarm)) ->
  lockDiscipline swarmID (withSwarmLock swarmID rest w).
Proof.
  intros Hrest. rewrite withSwarmLock_run. cbv zeta.
  destruct (fst (lock_swarm swarmID w)) as [err|].
  - left. exists err. split; reflexivity.
  - right. destruct (fst (load_swarm swarmID _)) as [swarm|err].
    + eexists (_ :: _). split; [reflexivity|].
      constructor; [reflexivity|].
      eapply Forall_impl; [|apply Hrest]. intros [] Hw; simpl in *; tauto.
    + exists [EvLoad swarmID (inr err)]. split; [reflexivity|].
      repeat constructor.
Qed.

(** A run that loaded a swarm is the prologue, the rest of the operation on
    that swarm, and the release. *)
Lemma withSwarmLock_loaded (swarmID : string)
    (rest : Swarm -> M W (option error)) (w : W) (swarm : Swarm) :
  (forall sw, emits working (rest sw)) ->
  In (EvLoad swarmID (inl swarm)) (trace (withSwarmLock swarmID rest w)) ->
  let w2 := afterPrologue swarmID w in
  trace (withSwarmLock swarmID rest w)
  = EvLock swarmID None :: EvLoad swarmID (inl swarm)
      :: trace (rest swarm w2) ++ [EvUnlock swarmID]
  /\ result (withSwarmLock swarmID rest w) = result (rest swarm w2)
  /\ final (withSwarmLock swarmID rest w)
     = unlock_swarm swarmID (final (rest swarm w2)).
Proof.
  intros Hrest. rewrite withSwarmLock_run. unfold afterPrologue. cbv zeta.
  destruct (fst (lock_swarm swarmID w)) as [err|].
  - intros [E|[]]. discriminate.
  - destruct (fst (load_swarm swarmID _)) as [sw|err].
    + unfold trace at 1, result at 1, final at 1; cbn [fst snd].
      intros [E|[E|Hin]]; [discriminate| |].
      * injection E as ->. repeat split; reflexivity.
      * exfalso. apply in_app_or in Hin. destruct Hin as [Hin|[E|[]]];
          [|discriminate].
        pose proof (Hrest sw) as Hw. unfold emits in Hw.
        setoid_rewrite Forall_forall in Hw. apply (Hw _ _ Hin).
    + intros [E|[E|[E|[]]]]; discriminate.
Qed.

(** A git command of the run was issued by the rest of the operation. *)
Lemma withSwarmLock_git (swarmID : string)
    (rest : Swarm -> M W (option error)) (w : W) (args : list string)
    (r : ProcResult) :
  In (EvGit args r) (trace (withSwarmLock swarmID rest w)) ->
  exists swarm w2,
    trace (withSwarmLock swarmID rest w)
    = EvLock swarmID None :: EvLoad swarmID (inl swarm)
        :: trace (rest swarm w2) ++ [EvUnlock swarmID]
    /\ result (withSwarmLock swarmID rest w) = result (rest swarm w2)
    /\ In (EvGit args r) (trace (rest swarm w2)).
Proof.
  rewrite withSwarmLock_run. cbv zeta.
  destruct (fst (lock_swarm swarmID w)) as [err|].
  - intros [E|[]]. discriminate.
  - destruct (fst (load_swarm swarmID _)) as [sw|err].
    + unfold trace at 1, result at 1; cbn [fst snd].
      intros [E|[E|Hin]]; [discriminate|discriminate|].
      apply in_app_or in Hin. destruct Hin as [Hin|[E|[]]]; [|discriminate].
      eexists _, _. split; [reflexivity|]. split; [reflexivity|]. exact Hin.
    + intros [E|[E|[E|[]]]]; discriminate.
Qed.

Lemma runGit_run (args : list string) (w : W) :
  runGit m args w
  = (fst (run_git (gitDir m) args w),
     [EvGit args (fst (run_git (gitDir m) args w))],
     snd (run_git (gitDir m) args w)).
Proof.
  unfold runGit. destruct (run_git (gitDir m) args w) as [r w']; reflexivity.
Qed.

Lemma afterFailedMerge_run (wrap : error -> error) (e : error) (w : W) :
  afterFailedMerge m wrap e w
  = (mergeVerdict wrap e (conflictsOf (fst (run_git (gitDir m) diffUnmerged w))),
     [EvGit diffUnmerged (fst (run_git (gitDir m) diffUnmerged w))],
     snd (run_git (gitDir m) diffUnmerged w)).
Proof.
  unfold afterFailedMerge, getConflictingFiles.
  rewrite !bind_run, runGit_run. reflexivity.
Qed.

Lemma fetchEvent_preparing (remote branch : string) (ev : event) :
  fetchEvent ["fetch"; remote; branch] ev -> preparing ev.
Proof. destruct ev; simpl; auto. intros ->. exact I. Qed.

Lemma decided_ret (wrap : error -> error) (res : option error) :
  decided wrap (@ret W _ res).
Proof. intros w margs r e []. Qed.

Lemma decided_bind {A} (wrap : error -> error) (c : M W A)
    (f : A -> M W (option error)) :
  emits preparing c -> (forall a, decided wrap (f a)) -> decided wrap (bind c f).
Proof.
  intros Hc Hf w margs r e. rewrite bind_run.
  unfold trace at 1 2, result at 1; cbn [fst snd].
  intros Hin He. apply in_app_or in Hin. destruct Hin as [Hin|Hin].
  - exfalso. specialize (Hc w). rewrite Forall_forall in Hc.
    apply (Hc _ Hin).
  - destruct (Hf _ _ _ _ _ Hin He) as [pre [rd [Ht [Hpre Hr]]]].
    exists (trace (c w) ++ pre), rd. rewrite Ht, app_assoc.
    split; [reflexivity|]. split; [|exact Hr].
    apply Forall_app. split; [apply Hc | exact Hpre].
Qed.

(** The merge itself: when it fails, the unmerged files are listed and the
    verdict returned; when it succeeds, whatever follows runs no merge. *)
Lemma decided_merge (wrap : error -> error) (margs0 : list string)
    (k : M W (option error)) :
  emits preparing k ->
  decided wrap
    (err <- gitRun m ("merge" :: margs0) ;;
     match err with
     | Some e => afterFailedMerge m wrap e
     | None => k
     end).
Proof.
  intros Hk w margs r e. rewrite bind_run, gitRun_run.
  cbn [result trace final fst snd app].
  set (r0 := fst (run_git (gitDir m) ("merge" :: margs0) w)).
  set (w0 := snd (run_git (gitDir m) ("merge" :: margs0) w)).
  destruct (gitRunError ("merge" :: margs0) r0) as [e0|] eqn:E0.
  - rewrite afterFailedMerge_run. cbn [fst snd].
    intros [E|[E|[]]] He; [|discriminate].
    injection E as E1 E2. rewrite <- E1, <- E2 in He |- *.
    exists [], (fst (run_git (gitDir m) diffUnmerged w0)).
    split; [reflexivity|]. split; [constructor|]. cbn [result fst]. congruence.
  - intros [E|Hin] He; exfalso.
    + injection E as E1 E2. rewrite <- E1, <- E2 in He. congruence.
    + specialize (Hk w0). rewrite Forall_forall in Hk. apply (Hk _ Hin).
Qed.

Lemma mergeToIntegration_decided (workerBranch : string) (swarm : Swarm) :
  decided (Errorf "merging: %w" []) (mergeToIntegration m workerBranch swarm).
Proof.
  unfold mergeToIntegration, mergeArgs.
  apply decided_bind.
  { unfold getCurrentBranch. repeat emits_step; exact I. }
  intros [currentBranch [e|]]; [apply decided_ret|].
  apply decided_bind.
  { repeat emits_step; exact I. }
  intros [e|]; [apply decided_ret|].
  apply decided_bind.
  { eapply emits_weaken; [|apply emits_fetchWithRetry].
    apply fetchEvent_preparing. }
  intros _. apply decided_merge, emits_ret.
Qed.

Lemma landToMain_decided (swarmID : string) (swarm : Swarm) :
  decided (Errorf "merging to %s: %w" [TargetBranch swarm])
    (landToMain m swarmID swarm).
Proof.
  unfold landToMain, mergeArgs.
  apply decided_bind.
  { repeat emits_step; exact I. }
  intros [e|]; [apply decided_ret|].
  apply decided_bind.
  { eapply emits_weaken; [|apply emits_fetchWithRetry].
    apply fetchEvent_preparing. }
  intros _. apply decided_merge.
  repeat emits_step; exact I.
Qed.

End Bodies.

(** ** The bounded retry *)



(** ** Conflicts and other merge failures *)

(** ** Lines of output *)

Lemma Split_lines (s : string) :
  Forall (fun f => hasByte newline f = false) (Split s newline).
Proof.
  induction s as [|c s IH]; cbn [Split].
  - repeat constructor.
  - destruct (Ascii.eqb c newline) eqn:Ec.
    + constructor; [reflexivity|exact IH].
    + destruct (Split s newline) as [|h t].
      * constructor; [|constructor]. cbn [hasByte]. rewrite Ec. reflexivity.
      * inversion IH as [|? ? Hh Ht]; subst.
        constructor; [|exact Ht]. cbn [hasByte]. rewrite Ec, Hh. reflexivity.
Qed.

Lemma nonEmpty_names (l : list string) :
  Forall (fun f => hasByte newline f = false) l ->
  Forall fileName (nonEmpty l).
Proof.
  induction 1 as [|f l Hf _ IH]; cbn [nonEmpty]; [constructor|].
  destruct (String.eqb f "") eqn:E; [exact IH|].
  constructor; [|exact IH]. split; [|exact Hf].
  intros ->. discriminate.
Qed.

Lemma nonEmpty_id (l : list string) :
  Forall fileName l -> nonEmpty l = l.
Proof.
  induction 1 as [|f l [Hf _] _ IH]; cbn [nonEmpty]; [reflexivity|].
  destruct (String.eqb f "") eqn:E; [apply String.eqb_eq in E; contradiction|].
  rewrite IH. reflexivity.
Qed.

Lemma Split_no_sep (s : string) (sep : ascii) :
  hasByte sep s = false -> Split s sep = [s].
Proof.
  induction s as [|c s IH]; cbn [Split hasByte]; [reflexivity|].
  intros Hs. apply orb_false_iff in Hs. destruct Hs as [Hc Hs].
  rewrite Hc, (IH Hs). reflexivity.
Qed.

Lemma Split_append (a b : string) (sep : ascii) :
  hasByte sep a = false ->
  Split (a ++ String sep b) sep = a :: Split b sep.
Proof.
  induction a as [|c a IH]; cbn [Split hasByte append].
  - intros _. rewrite Ascii.eqb_refl. reflexivity.
  - intros Hs. apply orb_false_iff in Hs. destruct Hs as [Hc Hs].
    rewrite Hc, (IH Hs). reflexivity.
Qed.

Lemma Split_joinLines (files : list string) :
  files <> [] ->
  Forall fileName files ->
  Split (joinLines files) newline = files.
Proof.
  induction files as [|f rest IH]; [congruence|].
  intros _ Hall. inversion Hall as [|? ? [_ Hf] Hrest]; subst.
  destruct rest as [|g rest].
  - apply Split_no_sep. exact Hf.
  - change (joinLines (f :: g :: rest))
      with (f ++ String newline (joinLines (g :: rest)))%string.
    rewrite Split_append by exact Hf.
    rewrite IH; [reflexivity|discriminate|exact Hrest].
Qed.

Lemma nonEmpty_In (l : list string) (f : string) :
  In f (nonEmpty l) <-> In f l /\ f <> "".
Proof.
  induction l as [|g l IH]; cbn [nonEmpty In]; [tauto|].
  destruct (String.eqb_spec g "") as [->|Hg]; cbn [In]; rewrite IH.
  - split; [tauto|]. intros [[<-|Hin] Hf]; [congruence|tauto].
  - split; [intros [<-|[Hin Hf]]; tauto|tauto].
Qed.

Lemma nonEmpty_nil (l : list string) :
  (forall f, In f l -> f = "") -> nonEmpty l = [].
Proof.
  intros Hl. destruct (nonEmpty l) as [|f rest] eqn:E; [reflexivity|].
  assert (Hin : In f (nonEmpty l)) by (rewrite E; left; reflexivity).
  apply nonEmpty_In in Hin. destruct Hin as [Hin Hf].
  elim Hf. apply Hl. exact Hin.
Qed.

Section MergeFacts.
Context {U : Unicode}.

(** The verdict on a failed merge, by the listing alone. *)
Lemma mergeVerdict_cases (wrap : error -> error) (e : error) (rd : ProcResult) :
  (fst (conflictsOf rd) <> [] -> mergeVerdict wrap e (conflictsOf rd) = Some e)
  /\ (fst (conflictsOf rd) = [] ->
      mergeVerdict wrap e (conflictsOf rd) = Some (wrap e))
  /\ (runErr rd <> None -> mergeVerdict wrap e (conflictsOf rd) = Some (wrap e)).
Proof.
  unfold conflictsOf, mergeVerdict.
  destruct (runErr rd) as [err|]; cbn [fst].
  - repeat split; congruence.
  - destruct (String.eqb (TrimSpace (stdout rd)) ""); cbn [fst].
    + repeat split; congruence.
    + destruct (nonEmpty _) as [|f files]; cbn [length Nat.ltb Nat.leb];
        repeat split; congruence.
Qed.

Lemma Errorf_merging (e : error) :
  Error (Errorf "merging: %w" [] e) = ("merging: " ++ Error e)%string.
Proof. unfold Errorf. cbn. rewrite append_nil_r. reflexivity. Qed.

(** What [getConflictingFiles] finds, read off what [git diff] printed: a
    file when some line of the trimmed output is not empty, none when
    every line is empty. *)
Lemma conflictsOf_files (rd : ProcResult) :
  runErr rd = None ->
  ((exists f, In f (Split (TrimSpace (stdout rd)) newline) /\ f <> "") ->
   fst (conflictsOf rd) <> [])
  /\ ((forall f, In f (Split (TrimSpace (stdout rd)) newline) -> f = "") ->
      fst (conflictsOf rd) = []).
Proof.
  intros Hrd. unfold conflictsOf. rewrite Hrd.
  destruct (String.eqb_spec (TrimSpace (stdout rd)) "") as [E|_]; cbn [fst].
  - rewrite E. split; [|reflexivity].
    intros [f [[<-|[]] Hf]]. congruence.
  - split.
    + intros [f Hf] E. apply nonEmpty_In in Hf. rewrite E in Hf. exact Hf.
    + apply nonEmpty_nil.
Qed.

(** The verdict on a failed merge, by what the listing printed. *)
Lemma mergeVerdict_listing (wrap : error -> error) (e : error) (rd : ProcResult) :
  runErr rd = None ->
  ((exists f, In f (Split (TrimSpace (stdout rd)) newline) /\ f <> "") ->
   mergeVerdict wrap e (conflictsOf rd) = Some e)
  /\ (forall files,
        files <> [] -> Forall fileName files ->
        TrimSpace (stdout rd) = joinLines files ->
        mergeVerdict wrap e (conflictsOf rd) = Some e)
  /\ ((forall f, In f (Split (TrimSpace (stdout rd)) newline) -> f = "") ->
      mergeVerdict wrap e (conflictsOf rd) = Some (wrap e))
  /\ (TrimSpace (stdout rd) = "" ->
      mergeVerdict wrap e (conflictsOf rd) = Some (wrap e)).
Proof.
  intros Hrd.
  destruct (mergeVerdict_cases wrap e rd) as [Hsome [Hnone _]].
  destruct (conflictsOf_files rd Hrd) as [Hfile Hempty].
  assert (Hlist : forall files,
             files <> [] -> Forall fileName files ->
             TrimSpace (stdout rd) = joinLines files ->
             exists f, In f (Split (TrimSpace (stdout rd)) newline) /\ f <> "").
  { intros files Hne Hall Hout. rewrite Hout, (Split_joinLines Hne Hall).
    destruct files as [|f rest]; [congruence|].
    exists f. split; [left; reflexivity|].
    inversion Hall as [|? ? [Hf _] _]. exact Hf. }
  split; [|split; [|split]].
  - intros Hf. apply Hsome, Hfile, Hf.
  - intros files Hne Hall Hout. apply Hsome, Hfile. eapply Hlist; eassumption.
  - intros He. apply Hnone, Hempty, He.
  - intros Hout. apply Hnone, Hempty. rewrite Hout.
    intros f [<-|[]]. reflexivity.
Qed.

End MergeFacts.

(** C1. When the merge of [MergeToIntegration] fails, the unmerged files
    are listed with [git diff --name-only --diff-filter=U] and the lock is
    released. If the listing succeeds and some line of what it printed,
    trimmed, is not empty, so whenever it printed one or more file names
    one per line, the result is the merge failure itself; if it succeeds
    and every line is empty, so whenever it printed nothing, the result is
    that failure wrapped by [fmt.Errorf] with the message prefix
    "merging: ", as it is when the listing fails. The choice is made on
    the answer of the listing, never on the text of the failure, which is
    the [SwarmGitError] of the merge with its raw output. *)
Theorem MergeToIntegration_conflict :
  forall (U : Unicode) (W : Type) (H : Host W) (m : Manager)
         (swarmID workerBranch : string) (w : W)
         (margs : list string) (r : ProcResult) (e : error),
    let run := MergeToIntegration m swarmID workerBranch w in
    In (EvGit ("merge" :: margs) r) (trace run) ->
    gitRunError ("merge" :: margs) r = Some e ->
    exists pre rd,
      trace run = pre ++ [EvGit ("merge" :: margs) r;
                          EvGit ["diff"; "--name-only"; "--diff-filter=U"] rd;
                          EvUnlock swarmID]
      /\ (runErr rd = None ->
          (exists f, In f (Split (TrimSpace (stdout rd)) newline) /\ f <> "") ->
          result run = Some e)
      /\ (forall files,
            runErr rd = None ->
            files <> [] -> Forall fileName files ->
            TrimSpace (stdout rd) = joinLines files ->
            result run = Some e)
      /\ (runErr rd = None ->
          (forall f, In f (Split (TrimSpace (stdout rd)) newline) -> f = "") ->
          result run = Some (wrapError ("merging: " ++ Error e) e))
      /\ (runErr rd = None -> TrimSpace (stdout rd) = "" ->
          result run = Some (wrapError ("merging: " ++ Error e) e))
      /\ (runErr rd <> None ->
          result run = Some (wrapError ("merging: " ++ Error e) e))
      /\ e = SwarmGitError "merge" (TrimSpace (stdout r)) (TrimSpace (stderr r))
                (runErr r).
Proof.
  intros U W H m swarmID workerBranch w margs r e run Hin He. subst run.
  unfold MergeToIntegration in *.
  destruct (withSwarmLock_git _ _ _ _ _ Hin) as [swarm [w2 [Ht [Hr Hin2]]]].
  destruct (mergeToIntegration_decided m workerBranch swarm _ _ _ Hin2 He)
    as [pre [rd [Ht2 [_ Hr2]]]].
  exists (EvLock swarmID None :: EvLoad swarmID (inl swarm) :: pre), rd.
  rewrite Ht, Hr, Ht2, Hr2. split.
  - cbn [app]. rewrite <- app_assoc. reflexivity.
  - rewrite <- Errorf_merging.
    destruct (mergeVerdict_cases (Errorf "merging: %w" []) e rd) as [_ [_ Hfail]].
    split; [|split; [|split; [|split; [|split]]]].
    + intros Hrd. exact (proj1 (mergeVerdict_listing _ e rd Hrd)).
    + intros files Hrd.
      exact (proj1 (proj2 (mergeVerdict_listing _ e rd Hrd)) files).
    + intros Hrd. exact (proj1 (proj2 (proj2 (mergeVerdict_listing _ e rd Hrd)))).
    + intros Hrd. exact (proj2 (proj2 (proj2 (mergeVerdict_listing _ e rd Hrd)))).
    + exact Hfail.
    + unfold gitRunError in He. destruct (runErr r); [|discriminate].
      injection He as <-. reflexivity.
Qed.

(** The merge of a conflicting worker branch, on the scripted host: the
    checkout is already the integration branch, the fetch succeeds and the
    merge stops on a conflict. When the listing prints a.go and b.go the
    failure of the merge comes back as it is, and when it prints nothing
    it comes back wrapped. *)
Lemma MergeToIntegration_conflict_witness :
  let conflict := Scripted.exited "1" "CONFLICT (content): Merge conflict in a.go" "" in
  let listing := {| runErr := None; stdout := "a.go
b.go
"; stderr := "" |} in
  let run rd := @MergeToIntegration asciiText _ Scripted.host Scripted.rig
                  "sw-1" "sw-1/Toast/task-1"
                  (Scripted.world
                     [ {| runErr := None; stdout := "swarm/sw-1"; stderr := "" |};
                       Scripted.ok; conflict; rd ]) in
  let e := SwarmGitError "merge" "CONFLICT (content): Merge conflict in a.go" ""
             (Some (errorString "exit status 1")) in
  result (run listing) = Some e
  /\ result (run Scripted.ok) = Some (wrapError "merging: merge: exit status 1" e).
Proof.
  intros conflict listing run e.
  assert (Hlast : forall (pre : list event) (a : event) (rd : ProcResult) (l : list event)
                         (a' : event) (rd' : ProcResult),
             l ++ [a'; EvGit diffUnmerged rd'; EvUnlock "sw-1"]
             = pre ++ [a; EvGit diffUnmerged rd; EvUnlock "sw-1"] -> rd = rd').
  { intros pre a rd l a' rd' E.
    apply (f_equal (@rev event)) in E. rewrite !rev_app_distr in E.
    cbn [rev app] in E. congruence. }
  split.
  - destruct (@MergeToIntegration_conflict asciiText _ Scripted.host Scripted.rig
                "sw-1" "sw-1/Toast/task-1"
                (Scripted.world
                   [ {| runErr := None; stdout := "swarm/sw-1"; stderr := "" |};
                     Scripted.ok; conflict; listing ])
                ["--no-ff"; "-m"; "Merge sw-1/Toast/task-1 into swarm/sw-1";
                 "sw-1/Toast/task-1"] conflict e)
      as [pre [rd [Ht [_ [Hfiles _]]]]].
    + vm_compute. do 4 right. left. reflexivity.
    + reflexivity.
    + assert (rd = listing) as ->.
      { refine (Hlast pre _ rd [_; _; _; _] _ listing _). exact Ht. }
      apply (Hfiles ["a.go"; "b.go"]).
      * reflexivity.
      * discriminate.
      * repeat constructor; discriminate.
      * reflexivity.
  - destruct (@MergeToIntegration_conflict asciiText _ Scripted.host Scripted.rig
                "sw-1" "sw-1/Toast/task-1"
                (Scripted.world
                   [ {| runErr := None; stdout := "swarm/sw-1"; stderr := "" |};
                     Scripted.ok; conflict; Scripted.ok ])
                ["--no-ff"; "-m"; "Merge sw-1/Toast/task-1 into swarm/sw-1";
                 "sw-1/Toast/task-1"] conflict e)
      as [pre [rd [Ht [_ [_ [_ [Hnone _]]]]]]].
    + vm_compute. do 4 right. left. reflexivity.
    + reflexivity.
    + assert (rd = Scripted.ok) as ->.
      { refine (Hlast pre _ rd [_; _; _; _] _ Scripted.ok _). exact Ht. }
      apply Hnone; reflexivity.
Defined.

(** The same run, evaluated: the two files are found and the failure of
    the merge comes back as it is. *)
Example MergeToIntegration_conflict_run :
  let conflict := Scripted.exited "1" "CONFLICT (content): Merge conflict in a.go" "" in
  let script := [ {| runErr := None; stdout := "swarm/sw-1"; stderr := "" |};
                  Scripted.ok; conflict;
                  {| runErr := None; stdout := "a.go
b.go
"; stderr := "" |} ] in
  let run := @MergeToIntegration asciiText _ Scripted.host Scripted.rig
               "sw-1" "sw-1/Toast/task-1" (Scripted.world script) in
  @conflictsOf asciiText {| runErr := None; stdout := "a.go
b.go
"; stderr := "" |} = (["a.go"; "b.go"], None)
  /\ result run
     = Some (SwarmGitError "merge" "CONFLICT (content): Merge conflict in a.go" ""
               (Some (errorString "exit status 1"))).
Proof. split; vm_compute; reflexivity. Qed.

Section ListingFacts.
Context {U : Unicode} {W : Type} {H : Host W}.
Variable m : Manager.

(** In a run of a decided operation under the prologue, the listing that
    follows a failed merge is the only [git diff] of the run. *)
Lemma decided_listing (swarmID : string) (wrap : Swarm -> error -> error)
    (rest : Swarm -> M W (option error)) (w : W) (swarm : Swarm)
    (margs : list string) (r rd : ProcResult) (e : error) :
  (forall sw, emits working (rest sw)) ->
  (forall sw, decided (wrap sw) (rest sw)) ->
  let run := withSwarmLock swarmID rest w in
  In (EvLoad swarmID (inl swarm)) (trace run) ->
  In (EvGit ("merge" :: margs) r) (trace run) ->
  gitRunError ("merge" :: margs) r = Some e ->
  In (EvGit diffUnmerged rd) (trace run) ->
  result run = mergeVerdict (wrap swarm) e (conflictsOf rd).
Proof.
  intros Hw Hd run Hload Hin He Hdiff. subst run.
  destruct (withSwarmLock_loaded _ _ _ _ Hw Hload) as [Ht [Hr _]].
  set (w2 := afterPrologue swarmID w) in *.
  rewrite Ht in Hin, Hdiff. rewrite Hr.
  assert (Hbody : forall args x,
             In (EvGit args x)
               (EvLock swarmID None :: EvLoad swarmID (inl swarm)
                  :: trace (rest swarm w2) ++ [EvUnlock swarmID]) ->
             In (EvGit args x) (trace (rest swarm w2))).
  { intros args x [E|[E|Hx]]; try discriminate.
    apply in_app_or in Hx. destruct Hx as [Hx|[E|[]]]; [exact Hx|discriminate]. }
  apply Hbody in Hin, Hdiff.
  destruct (Hd swarm _ _ _ _ Hin He) as [pre [rd' [Ht2 [Hpre Hr2]]]].
  rewrite Ht2 in Hdiff. rewrite Hr2.
  apply in_app_or in Hdiff. destruct Hdiff as [Hx|[E|[E|[]]]].
  - exfalso. rewrite Forall_forall in Hpre. apply (Hpre _ Hx).
  - discriminate.
  - injection E as ->. reflexivity.
Qed.

End ListingFacts.

(** C9. In [MergeToIntegration] and in [LandToMain], when the merge has
    failed and the command that lists the unmerged files fails too, the
    result is the wrapped merge error, whatever that command printed and
    whatever the working tree holds: the merge failure comes back as it is
    only when the listing itself succeeds. *)
Theorem failed_listing_hides_conflict :
  forall (U : Unicode) (W : Type) (H : Host W) (m : Manager)
         (swarmID workerBranch : string) (w : W) (swarm : Swarm)
         (margs : list string) (r rd : ProcResult) (e : error),
    gitRunError ("merge" :: margs) r = Some e ->
    runErr rd <> None ->
    (let run := MergeToIntegration m swarmID workerBranch w in
     In (EvLoad swarmID (inl swarm)) (trace run) ->
     In (EvGit ("merge" :: margs) r) (trace run) ->
     In (EvGit ["diff"; "--name-only"; "--diff-filter=U"] rd) (trace run) ->
     result run = Some (wrapError ("merging: " ++ Error e) e))
    /\ (let run := LandToMain m swarmID w in
        In (EvLoad swarmID (inl swarm)) (trace run) ->
        In (EvGit ("merge" :: margs) r) (trace run) ->
        In (EvGit ["diff"; "--name-only"; "--diff-filter=U"] rd) (trace run) ->
        result run
        = Some (wrapError ("merging to " ++ TargetBranch swarm ++ ": " ++ Error e) e)).
Proof.
  intros U W H m swarmID workerBranch w swarm margs r rd e He Hrd.
  split; intros run Hload Hin Hdiff; subst run.
  - unfold MergeToIntegration in *.
    rewrite (@decided_listing U W H swarmID (fun _ => Errorf "merging: %w" [])
               (mergeToIntegration m workerBranch) w swarm margs r rd e
               (working_mergeToIntegration m workerBranch)
               (mergeToIntegration_decided m workerBranch)
               Hload Hin He Hdiff).
    destruct (mergeVerdict_cases (Errorf "merging: %w" []) e rd) as [_ [_ H3]].
    rewrite (H3 Hrd), <- Errorf_merging. reflexivity.
  - unfold LandToMain in *.
    rewrite (@decided_listing U W H swarmID
               (fun sw => Errorf "merging to %s: %w" [TargetBranch sw])
               (landToMain m swarmID) w swarm margs r rd e
               (working_landToMain m swarmID)
               (landToMain_decided m swarmID)
               Hload Hin He Hdiff).
    destruct (mergeVerdict_cases (Errorf "merging to %s: %w" [TargetBranch swarm]) e rd)
      as [_ [_ H3]].
    rewrite (H3 Hrd). unfold Errorf. cbn. rewrite append_nil_r. reflexivity.
Qed.

(** A merge that fails and a listing that fails after it, on the scripted
    host, for both operations: the listing even printed a file name. *)
Lemma failed_listing_hides_conflict_witness :
  let conflict := Scripted.exited "1" "CONFLICT (content): Merge conflict in a.go" "" in
  let broken := Scripted.exited "128" "a.go" "fatal: unable to read tree" in
  let e := SwarmGitError "merge" "CONFLICT (content): Merge conflict in a.go" ""
             (Some (errorString "exit status 1")) in
  result (@MergeToIntegration asciiText _ Scripted.host Scripted.rig
            "sw-1" "sw-1/Toast/task-1"
            (Scripted.world
               [ {| runErr := None; stdout := "swarm/sw-1"; stderr := "" |};
                 Scripted.ok; conflict; broken ]))
  = Some (wrapError "merging: merge: exit status 1" e)
  /\ result (@LandToMain asciiText _ Scripted.host Scripted.rig "sw-1"
               (Scripted.world [Scripted.ok; Scripted.ok; conflict; broken]))
     = Some (wrapError "merging to main: merge: exit status 1" e).
Proof.
  intros conflict broken e. split.
  - refine (proj1 (@failed_listing_hides_conflict asciiText _ Scripted.host
                     Scripted.rig "sw-1" "sw-1/Toast/task-1"
                     (Scripted.world
                        [ {| runErr := None; stdout := "swarm/sw-1"; stderr := "" |};
                          Scripted.ok; conflict; broken ])
                     Scripted.sw1
                     ["--no-ff"; "-m"; "Merge sw-1/Toast/task-1 into swarm/sw-1";
                      "sw-1/Toast/task-1"]
                     conflict broken e _ _) _ _ _).
    + reflexivity.
    + discriminate.
    + vm_compute. right. left. reflexivity.
    + vm_compute. do 4 right. left. reflexivity.
    + vm_compute. do 5 right. left. reflexivity.
  - refine (proj2 (@failed_listing_hides_conflict asciiText _ Scripted.host
                     Scripted.rig "sw-1" ""
                     (Scripted.world [Scripted.ok; Scripted.ok; conflict; broken])
                     Scripted.sw1
                     ["--no-ff"; "-m"; "Land swarm sw-1"; "swarm/sw-1"]
                     conflict broken e _ _) _ _ _).
    + reflexivity.
    + discriminate.
    + vm_compute. right. left. reflexivity.
    + vm_compute. do 4 right. left. reflexivity.
    + vm_compute. do 5 right. left. reflexivity.
Defined.

(** ** Creating the integration branch *)

Section CreateFacts.
Context {U : Unicode} {W : Type} {H : Host W}.
Variable m : Manager.

(** The run of [CreateIntegrationBranch] on a loaded swarm, case by case. *)
Lemma createIntegrationBranch_run (swarm : Swarm) (w : W) :
  let showRef := ["show-ref"; "--verify"; "--quiet";
                  ("refs/heads/" ++ Integration swarm)%string] in
  let create := ["checkout"; "-b"; Integration swarm; BaseCommit swarm] in
  let push := ["push"; "-u"; "origin"; Integration swarm] in
  let r := fst (run_git (gitDir m) showRef w) in
  let w1 := snd (run_git (gitDir m) showRef w) in
  let rc := fst (run_git (gitDir m) create w1) in
  let w2 := snd (run_git (gitDir m) create w1) in
  let rp := fst (run_git (gitDir m) push w2) in
  createIntegrationBranch m swarm w
  = match runErr r with
    | None => (Some ErrBranchExists, [EvGit showRef r], w1)
    | Some _ =>
        match gitRunError create rc with
        | Some e =>
            (Some (Errorf "creating branch: %w" [] e),
             [EvGit showRef r; EvGit create rc], w2)
        | None =>
            (None, [EvGit showRef r; EvGit create rc; EvGit push rp],
             snd (run_git (gitDir m) push w2))
        end
    end.
Proof.
  intros showRef create push r w1 rc w2 rp.
  unfold createIntegrationBranch, branchExists.
  rewrite !bind_run, gitRun_run. cbn [result trace final fst snd app ret].
  fold showRef; fold r; fold w1. unfold gitRunError at 1 2 3.
  destruct (runErr r) as [err|]; [|reflexivity].
  rewrite bind_run, gitRun_run. cbn [result trace final fst snd app].
  fold create; fold rc; fold w2.
  destruct (gitRunError create rc) as [e|]; [reflexivity|].
  rewrite bind_run, gitRun_run. cbn [result trace final fst snd app ret].
  reflexivity.
Qed.

End CreateFacts.




(** No branch yet and no remote: the branch is created, the push fails,
    and the operation succeeds all the same. *)
Example CreateIntegrationBranch_push_fails :
  let run := @CreateIntegrationBranch asciiText _ Scripted.host Scripted.rig "sw-1"
               (Scripted.world
                  [ Scripted.exited "1" "" ""; Scripted.ok;
                    Scripted.exited "128" ""
                      "fatal: 'origin' does not appear to be a git repository" ]) in
  result run = None
  /\ gitCommands (trace run)
     = [["show-ref"; "--verify"; "--quiet"; "refs/heads/swarm/sw-1"];
        ["checkout"; "-b"; "swarm/sw-1"; "abc123"];
        ["push"; "-u"; "origin"; "swarm/sw-1"]].
Proof. split; vm_compute; reflexivity. Qed.

(** ** Cleaning up *)

Section CleanupFacts.
Context {U : Unicode} {W : Type} {H : Host W}.
Variable m : Manager.


(** The run of [CleanupBranches] on a loaded swarm. *)
Lemma cleanupBranches_run (swarm : Swarm) (w : W) :
  let local := ["branch"; "-D"; Integration swarm] in
  let remote := ["push"; "origin"; "--delete"; Integration swarm] in
  let r1 := fst (run_git (gitDir m) local w) in
  let w1 := snd (run_git (gitDir m) local w) in
  let r2 := fst (run_git (gitDir m) remote w1) in
  let w2 := snd (run_git (gitDir m) remote w1) in
  result (cleanupBranches m swarm w) = gitRunError local r1
  /\ trace (cleanupBranches m swarm w)
     = EvGit local r1 :: EvGit remote r2
         :: trace (deleteWorkerBranches m (Tasks swarm) w2).
Proof.
  intros local remote r1 w1 r2 w2. unfold cleanupBranches.
  rewrite !bind_run, !gitRun_run. cbn [result trace final fst snd app ret].
  rewrite app_nil_r. split; reflexivity.
Qed.

End CleanupFacts.





Example CleanupBranches_first_failure :
  result (@CleanupBranches asciiText _ Scripted.host Scripted.rig "sw-1"
            (Scripted.world
               [Scripted.exited "1" "" "error: branch 'swarm/sw-1' not found."]))
  = Some (SwarmGitError "branch" "" "error: branch 'swarm/sw-1' not found."
            (Some (errorString "exit status 1"))).
Proof. vm_compute. reflexivity. Qed.


(** ** The lock *)

(** C6, as stated, fails: [AbortMerge] is among the operations listed, and
    it takes no lock at all. Its whole run is one [git merge --abort]. *)
Lemma AbortMerge_takes_no_lock :
  trace (@AbortMerge asciiText _ Scripted.host Scripted.rig (Scripted.world []))
  = [EvGit ["merge"; "--abort"] Scripted.ok]
  /\ ~ exists swarmID,
         lockDiscipline swarmID
           (@AbortMerge asciiText _ Scripted.host Scripted.rig (Scripted.world [])).
Proof.
  split; [reflexivity|].
  intros [swarmID [[err [Ht _]]|[held [Ht _]]]]; vm_compute in Ht; discriminate Ht.
Qed.

(** C6, amended. [CreateIntegrationBranch], [MergeToIntegration],
    [LandToMain] and [CleanupBranches] start by asking for the lock of
    their swarm; when it is refused they return that error and do nothing
    else, and when it is granted everything else they do happens before a
    single release, which is their last action on every path, error
    returns included. [AbortMerge] takes no swarm and no lock: it only
    runs [git merge --abort]. *)
Theorem lifecycle_lock_discipline :
  forall (U : Unicode) (W : Type) (H : Host W) (m : Manager)
         (swarmID workerBranch : string) (w : W),
    lockDiscipline swarmID (CreateIntegrationBranch m swarmID w)
    /\ lockDiscipline swarmID (MergeToIntegration m swarmID workerBranch w)
    /\ lockDiscipline swarmID (LandToMain m swarmID w)
    /\ lockDiscipline swarmID (CleanupBranches m swarmID w)
    /\ (exists r, trace (AbortMerge m w) = [EvGit ["merge"; "--abort"] r]
                  /\ result (AbortMerge m w) = gitRunError ["merge"; "--abort"] r).
Proof.
  intros U W H m swarmID workerBranch w. repeat split.
  - apply withSwarmLock_discipline, working_createIntegrationBranch.
  - apply withSwarmLock_discipline, working_mergeToIntegration.
  - apply withSwarmLock_discipline, working_landToMain.
  - apply withSwarmLock_discipline, working_cleanupBranches.
  - unfold AbortMerge. rewrite gitRun_run. eexists. split; reflexivity.
Qed.

(** ** The shape of every retry *)

Section RetryShape.
Context {U : Unicode} {W : Type} {H : Host W}.
Variable m : Manager.

Lemma fetchLoop_done (remote branch : string) (fuel : nat) (i : Z)
    (lastErr : option error) (w : W) :
  (fetchRetries <= i)%Z ->
  fetchLoop m remote branch fuel i lastErr w = (lastErr, [], w).
Proof.
  intros Hi. destruct fuel as [|fuel]; [reflexivity|].
  rewrite fetchLoop_step.
  destruct (i <? fetchRetries)%Z eqn:E; [|reflexivity].
  apply Z.ltb_lt in E. lia.
Qed.

(** Every run of the loop is a schedule: its attempts but the last failed
    transiently, the last one gives the result, and the loop gives up
    early only on an attempt that is not a transient failure. *)
Lemma fetchLoop_schedule (remote branch : string) (fuel : nat) :
  forall i lastErr w,
    let args := ["fetch"; remote; branch] in
    let run := fetchLoop m remote branch fuel i lastErr w in
    (0 <= i < fetchRetries)%Z ->
    (Z.to_nat (fetchRetries - i) <= fuel)%nat ->
    exists rs r,
      trace run = schedule args (i + 1) (rs ++ [r])
      /\ result run = gitRunError args r
      /\ (length rs < Z.to_nat (fetchRetries - i))%nat
      /\ Forall (fun a => isTransientFetchError (gitRunError args a) = true) rs
      /\ ((S (length rs) < Z.to_nat (fetchRetries - i))%nat ->
          isTransientFetchError (gitRunError args r) = false).
Proof.
  induction fuel as [|fuel IH]; intros i lastErr w args run Hi Hfuel; subst run.
  - exfalso. lia.
  - rewrite fetchLoop_step. fold args.
    destruct (i <? fetchRetries)%Z eqn:Ei; [|apply Z.ltb_ge in Ei; lia].
    set (r1 := fst (run_git (gitDir m) args w)).
    set (w1 := snd (run_git (gitDir m) args w)).
    destruct (gitRunError args r1) as [e|] eqn:Er1.
    + destruct (isTransientFetchError (Some e)) eqn:Et.
      * destruct (i <? fetchRetries - 1)%Z eqn:Ei1; cbv zeta.
        -- apply Z.ltb_lt in Ei1.
           destruct (IH (i + 1)%Z (Some e)
                       (sleep (wrap64 (fetchRetryDelay * (i + 1))) w1))
             as [rs [r [Ht [Hr [Hlen [Hall Hstop]]]]]]; [lia|lia|].
           exists (r1 :: rs), r. cbn [trace result fst snd].
           rewrite Ht, Hr.
           split; [|split; [reflexivity|split; [|split]]].
           ++ cbn [app schedule]. destruct (rs ++ [r]) eqn:Eapp;
                [destruct rs; discriminate|reflexivity].
           ++ cbn [length]. lia.
           ++ constructor; [rewrite Er1; exact Et|exact Hall].
           ++ intros Hs. apply Hstop. cbn [length] in Hs. lia.
        -- apply Z.ltb_ge in Ei1.
           rewrite fetchLoop_done by lia.
           exists [], r1. cbn [trace result fst snd app schedule length].
           repeat split; try reflexivity; try (symmetry; exact Er1).
           ++ lia.
           ++ constructor.
           ++ intros Hs. exfalso. unfold fetchRetries in *. lia.
      * exists [], r1. cbn [trace result fst snd app schedule length].
        repeat split; try (symmetry; exact Er1); try lia; [constructor|].
        intros _. rewrite Er1. exact Et.
    + exists [], r1. cbn [trace result fst snd app schedule length].
      repeat split; try (symmetry; exact Er1); try lia; [constructor|].
      intros _. rewrite Er1. reflexivity.
Qed.


Lemma gitCommands_schedule (args : list string) (rs : list ProcResult) :
  forall k, gitCommands (schedule args k rs) = repeat args (length rs).
Proof.
  induction rs as [|r rest IH]; intros k; [reflexivity|].
  destruct rest as [|r' rest']; [reflexivity|].
  change (schedule args k (r :: r' :: rest'))
    with (EvGit args r :: EvSleep (wrap64 (fetchRetryDelay * k))
            :: schedule args (k + 1) (r' :: rest')).
  unfold gitCommands. cbn [flat_map gitArgs app].
  fold (gitCommands (schedule args (k + 1) (r' :: rest'))).
  rewrite IH. reflexivity.
Qed.

(** A retry runs its fetch between one and three times, and no other
    command. *)
Lemma fetchWithRetry_commands (remote branch : string) (w : W) :
  exists n,
    (1 <= n <= 3)%nat
    /\ gitCommands (trace (fetchWithRetry m remote branch w))
       = repeat ["fetch"; remote; branch] n.
Proof.
  unfold fetchWithRetry.
  destruct (@fetchLoop_schedule remote branch (Z.to_nat fetchRetries) 0%Z None w)
    as [rs [r [Ht [_ [Hlen _]]]]].
  - unfold fetchRetries. lia.
  - apply Nat.le_refl.
  - change (Z.to_nat (fetchRetries - 0)) with 3%nat in *.
    exists (S (length rs)). split; [lia|].
    rewrite Ht, gitCommands_schedule, length_app. cbn [length].
    rewrite Nat.add_1_r. reflexivity.
Qed.

Lemma fetchWithRetry_event (remote branch : string) (w : W)
    (args : list string) (r : ProcResult) :
  In (EvGit args r) (trace (fetchWithRetry m remote branch w)) ->
  args = ["fetch"; remote; branch].
Proof.
  intros Hin. pose proof (emits_fetchWithRetry m remote branch w) as Hf.
  rewrite Forall_forall in Hf. exact (Hf _ Hin).
Qed.

End RetryShape.

(** C3 gives the run when every attempt fails transiently; this is every
    run. *)

(** X1. Every run of [fetchWithRetry] is between one and three fetches; the
    attempts before the last all failed transiently, the last one gives the
    result, it is the last event of the run, and the run stops before the
    third attempt only on an attempt that succeeded or failed for good. *)
Theorem fetchWithRetry_last_attempt :
  forall (U : Unicode) (W : Type) (H : Host W) (m : Manager)
         (remote branch : string) (w : W),
    let args := ["fetch"; remote; branch] in
    let run := fetchWithRetry m remote branch w in
    exists earlier r pre,
      trace run = pre ++ [EvGit args r]
      /\ trace run = schedule args 1 (earlier ++ [r])
      /\ gitCommands (trace run) = repeat args (S (length earlier))
      /\ (length earlier <= 2)%nat
      /\ result run = gitRunError args r
      /\ Forall (fun a => isTransientFetchError (gitRunError args a) = true) earlier
      /\ ((length earlier < 2)%nat ->
          isTransientFetchError (gitRunError args r) = false).
Proof.
  intros U W H m remote branch w args run. subst run. unfold fetchWithRetry.
  destruct (@fetchLoop_schedule U W H m remote branch (Z.to_nat fetchRetries)
              0%Z None w)
    as [rs [r [Ht [Hr [Hlen [Hall Hstop]]]]]].
  - unfold fetchRetries. lia.
  - apply Nat.le_refl.
  - change (Z.to_nat (fetchRetries - 0)) with 3%nat in *.
    change (0 + 1)%Z with 1%Z in Ht. fold args in Ht, Hr, Hall, Hstop.
    assert (Hlast : forall k l, exists pre,
               schedule args k (l ++ [r]) = pre ++ [EvGit args r]).
    { intros k l. revert k. induction l as [|a l IH]; intros k.
      - exists []. reflexivity.
      - destruct (IH (k + 1)%Z) as [pre Hpre].
        exists (EvGit args a :: EvSleep (wrap64 (fetchRetryDelay * k)) :: pre).
        cbn [app schedule]. destruct (l ++ [r]) eqn:E;
          [destruct l; discriminate|]. rewrite Hpre. reflexivity. }
    destruct (Hlast 1%Z rs) as [pre Hpre].
    exists rs, r, pre. rewrite Ht, Hr.
    split; [exact Hpre|]. split; [reflexivity|]. split.
    { rewrite gitCommands_schedule, length_app. cbn [length].
      rewrite Nat.add_1_r. reflexivity. }
    split; [lia|]. split; [reflexivity|]. split; [exact Hall|].
    intros Hs. apply Hstop. lia.
Qed.


(** ** The paths of the two merges *)

Section MergePaths.
Context {U : Unicode} {W : Type} {H : Host W}.
Variable m : Manager.

(** The fetch, the merge and what follows it, which the two operations
    share: [k] is what the caller does after a merge that succeeded. *)
Lemma mergeStep_run (wrap : error -> error) (branch : string)
    (margs : list string) (k : M W (option error)) (w : W) :
  let F := fetchWithRetry m "origin" branch w in
  let rm := fst (run_git (gitDir m) margs (final F)) in
  let w1 := snd (run_git (gitDir m) margs (final F)) in
  let rd := fst (run_git (gitDir m) diffUnmerged w1) in
  (fetchWithRetry m "origin" branch ;;;
   err <- gitRun m margs ;;
   match err with
   | Some e => afterFailedMerge m wrap e
   | None => k
   end) w
  = match gitRunError margs rm with
    | Some e =>
        (mergeVerdict wrap e (conflictsOf rd),
         trace F ++ [EvGit margs rm; EvGit diffUnmerged rd],
         snd (run_git (gitDir m) diffUnmerged w1))
    | None =>
        (result (k w1), trace F ++ EvGit margs rm :: trace (k w1), final (k w1))
    end.
Proof.
  intros F rm w1 rd. rewrite bind_run. fold F.
  rewrite bind_run, gitRun_run. cbn [result trace final fst snd app].
  fold rm; fold w1.
  destruct (gitRunError margs rm) as [e|]; [|reflexivity].
  rewrite afterFailedMerge_run. reflexivity.
Qed.

(** The run of [MergeToIntegration] on a loaded swarm, path by path. *)
Lemma mergeToIntegration_run (workerBranch : string) (swarm : Swarm) (w : W) :
  let revParse := ["rev-parse"; "--abbrev-ref"; "HEAD"] in
  let checkout := ["checkout"; Integration swarm] in
  let margs := mergeArgs (Sprintf "Merge %s into %s"
                            [workerBranch; Integration swarm]) workerBranch in
  let r0 := fst (run_git (gitDir m) revParse w) in
  let w0 := snd (run_git (gitDir m) revParse w) in
  let rc := fst (run_git (gitDir m) checkout w0) in
  let wc := snd (run_git (gitDir m) checkout w0) in
  let rest := fun (pre : list event) (wx : W) =>
    let F := fetchWithRetry m "origin" workerBranch wx in
    let rm := fst (run_git (gitDir m) margs (final F)) in
    let w1 := snd (run_git (gitDir m) margs (final F)) in
    let rd := fst (run_git (gitDir m) diffUnmerged w1) in
    match gitRunError margs rm with
    | Some e =>
        (mergeVerdict (Errorf "merging: %w" []) e (conflictsOf rd),
         pre ++ trace F ++ [EvGit margs rm; EvGit diffUnmerged rd],
         snd (run_git (gitDir m) diffUnmerged w1))
    | None => (None, pre ++ trace F ++ [EvGit margs rm], w1)
    end in
  mergeToIntegration m workerBranch swarm w
  = match runErr r0 with
    | Some cause =>
        (Some (Errorf "getting current branch: %w" [] cause),
         [EvGit revParse r0], w0)
    | None =>
        if String.eqb (TrimSpace (stdout r0)) (Integration swarm)
        then rest [EvGit revParse r0] w0
        else match gitRunError checkout rc with
             | Some e =>
                 (Some (Errorf "checking out integration: %w" [] e),
                  [EvGit revParse r0; EvGit checkout rc], wc)
             | None => rest [EvGit revParse r0; EvGit checkout rc] wc
             end
    end.
Proof.
  intros revParse checkout margs r0 w0 rc wc rest.
  unfold mergeToIntegration, getCurrentBranch.
  rewrite bind_run, bind_run, runGit_run.
  cbn [result trace final fst snd app]. fold revParse; fold r0; fold w0.
  destruct (runErr r0) as [cause|]; cbn [ret result trace final fst snd app];
    [reflexivity|].
  rewrite bind_run.
  destruct (String.eqb (TrimSpace (stdout r0)) (Integration swarm));
    cbn [negb ret result trace final fst snd app].
  - fold margs. rewrite mergeStep_run. subst rest. cbv beta zeta.
    destruct (gitRunError margs _); reflexivity.
  - rewrite gitRun_run. cbn [result trace final fst snd app].
    fold checkout; fold rc; fold wc.
    destruct (gitRunError checkout rc) as [e|]; [reflexivity|].
    fold margs. rewrite mergeStep_run. subst rest. cbv beta zeta.
    destruct (gitRunError margs _); reflexivity.
Qed.

(** The run of [LandToMain] on a loaded swarm, path by path. *)
Lemma landToMain_run (swarmID : string) (swarm : Swarm) (w : W) :
  let checkout := ["checkout"; TargetBranch swarm] in
  let margs := mergeArgs (Sprintf "Land swarm %s" [swarmID]) (Integration swarm) in
  let push := ["push"; "origin"; TargetBranch swarm] in
  let rc := fst (run_git (gitDir m) checkout w) in
  let wc := snd (run_git (gitDir m) checkout w) in
  let F := fetchWithRetry m "origin" (TargetBranch swarm) wc in
  let rm := fst (run_git (gitDir m) margs (final F)) in
  let w1 := snd (run_git (gitDir m) margs (final F)) in
  let rd := fst (run_git (gitDir m) diffUnmerged w1) in
  let rp := fst (run_git (gitDir m) push w1) in
  landToMain m swarmID swarm w
  = match gitRunError checkout rc with
    | Some e =>
        (Some (Errorf "checking out %s: %w" [TargetBranch swarm] e),
         [EvGit checkout rc], wc)
    | None =>
        match gitRunError margs rm with
        | Some e =>
            (mergeVerdict (Errorf "merging to %s: %w" [TargetBranch swarm]) e
               (conflictsOf rd),
             EvGit checkout rc :: trace F ++ [EvGit margs rm; EvGit diffUnmerged rd],
             snd (run_git (gitDir m) diffUnmerged w1))
        | None =>
            (match gitRunError push rp with
             | Some e => Some (Errorf "pushing: %w" [] e)
             | None => None
             end,
             EvGit checkout rc :: trace F ++ [EvGit margs rm; EvGit push rp],
             snd (run_git (gitDir m) push w1))
        end
    end.
Proof.
  intros checkout margs push rc wc F rm w1 rd rp.
  unfold landToMain. rewrite bind_run, gitRun_run.
  cbn [result trace final fst snd app]. fold checkout; fold rc; fold wc.
  destruct (gitRunError checkout rc) as [e|]; [reflexivity|].
  fold margs. rewrite mergeStep_run. cbv zeta. fold F; fold rm; fold w1; fold rd.
  destruct (gitRunError margs rm) as [e|]; [reflexivity|].
  rewrite bind_run, gitRun_run. cbn [result trace final fst snd app].
  fold push; fold rp.
  destruct (gitRunError push rp); reflexivity.
Qed.

End MergePaths.

Lemma gitCommands_app (s t : list event) :
  gitCommands (s ++ t) = gitCommands s ++ gitCommands t.
Proof. apply flat_map_app. Qed.

Lemma gitCommands_git (args : list string) (r : ProcResult) (t : list event) :
  gitCommands (EvGit args r :: t) = args :: gitCommands t.
Proof. reflexivity. Qed.

Lemma gitCommands_lock (swarmID : string) (e : option error) (t : list event) :
  gitCommands (EvLock swarmID e :: t) = gitCommands t.
Proof. reflexivity. Qed.

Lemma gitCommands_unlock (swarmID : string) (t : list event) :
  gitCommands (EvUnlock swarmID :: t) = gitCommands t.
Proof. reflexivity. Qed.

Lemma gitCommands_load (swarmID : string) (r : Swarm + error) (t : list event) :
  gitCommands (EvLoad swarmID r :: t) = gitCommands t.
Proof. reflexivity. Qed.

Lemma gitCommands_nil : gitCommands [] = [].
Proof. reflexivity. Qed.

(** Computes the git commands of a log written with [::] and [++]. *)
Ltac git_commands :=
  repeat first [ rewrite gitCommands_app | rewrite gitCommands_git
               | rewrite gitCommands_lock | rewrite gitCommands_unlock
               | rewrite gitCommands_load | rewrite gitCommands_nil ].

Ltac git_commands_in H :=
  repeat first [ rewrite gitCommands_app in H | rewrite gitCommands_git in H
               | rewrite gitCommands_lock in H | rewrite gitCommands_unlock in H
               | rewrite gitCommands_load in H | rewrite gitCommands_nil in H ].

Lemma EvGit_inj (a b : list string) (x y : ProcResult) :
  EvGit a x = EvGit b y -> a = b /\ x = y.
Proof. intros E. injection E. auto. Qed.

(** Taking apart the membership of an event in a log. *)
Ltac in_log :=
  repeat match goal with
    | H : In _ (_ ++ _) |- _ => apply in_app_or in H; destruct H as [H|H]
    | H : In _ (_ :: _) |- _ => destruct H as [H|H]
    | H : In _ [] |- _ => destruct H
    | H : In (EvGit _ _) (trace (fetchWithRetry _ _ _ _)) |- _ =>
        apply fetchWithRetry_event in H
    | H : EvLock _ _ = _ |- _ => discriminate H
    | H : EvUnlock _ = _ |- _ => discriminate H
    | H : EvLoad _ _ = EvGit _ _ |- _ => discriminate H
    | H : EvGit _ _ = EvLoad _ _ |- _ => discriminate H
    | H : _ :: _ = _ :: _ |- _ => discriminate H
    | H : EvGit _ _ = EvGit _ _ |- _ => discriminate H
    | H : EvGit _ _ = EvGit _ _ |- _ =>
        apply EvGit_inj in H; destruct H as [? ?]
    end.

(** Case analysis on the outcomes of the git commands of a run. *)
Ltac run_cases :=
  repeat match goal with
    | |- context [match gitRunError ?a ?r with _ => _ end] =>
        let E := fresh "E" in destruct (gitRunError a r) eqn:E
    end.

(** Rewrites an [Errorf] into the wrapper and the message it builds. *)
Ltac errorf_message :=
  unfold Errorf; f_equal;
  match goal with |- context [Error ?e] => generalize (Error e) end;
  intros ?; cbn; rewrite ?append_nil_r; reflexivity.

Section MergeToIntegrationPaths.
Context {U : Unicode} {W : Type} {H : Host W}.
Variable m : Manager.

Lemma Errorf_current_branch (cause : error) :
  Errorf "getting current branch: %w" [] cause
  = wrapError ("getting current branch: " ++ Error cause) cause.
Proof. errorf_message. Qed.

Lemma Errorf_checkout_integration (e : error) :
  Errorf "checking out integration: %w" [] e
  = wrapError ("checking out integration: " ++ Error e) e.
Proof. errorf_message. Qed.

Lemma Errorf_checkout_target (target : string) (e : error) :
  Errorf "checking out %s: %w" [target] e
  = wrapError ("checking out " ++ target ++ ": " ++ Error e) e.
Proof. errorf_message. Qed.

Lemma Errorf_merging_to (target : string) (e : error) :
  Errorf "merging to %s: %w" [target] e
  = wrapError ("merging to " ++ target ++ ": " ++ Error e) e.
Proof. errorf_message. Qed.

Lemma Errorf_pushing (e : error) :
  Errorf "pushing: %w" [] e = wrapError ("pushing: " ++ Error e) e.
Proof. errorf_message. Qed.

End MergeToIntegrationPaths.

(** X3. When [git rev-parse] cannot tell the current branch,
    [MergeToIntegration] stops there: it runs no other git command,
    releases the lock and returns the failure of the process, as it came
    and not as a [SwarmGitError], wrapped with the prefix "getting current
    branch: ". *)
Theorem MergeToIntegration_current_branch_unknown :
  forall (U : Unicode) (W : Type) (H : Host W) (m : Manager)
         (swarmID workerBranch : string) (w : W) (swarm : Swarm)
         (r : ProcResult) (cause : error),
    let run := MergeToIntegration m swarmID workerBranch w in
    let revParse := ["rev-parse"; "--abbrev-ref"; "HEAD"] in
    In (EvLoad swarmID (inl swarm)) (trace run) ->
    In (EvGit revParse r) (trace run) ->
    runErr r = Some cause ->
    trace run = [EvLock swarmID None; EvLoad swarmID (inl swarm);
                 EvGit revParse r; EvUnlock swarmID]
    /\ result run = Some (wrapError ("getting current branch: " ++ Error cause) cause).
Proof.
  intros U W H m swarmID workerBranch w swarm r cause run revParse Hload Hin Hr.
  subst run revParse. unfold MergeToIntegration in *.
  destruct (withSwarmLock_loaded _ _ _ _ (working_mergeToIntegration m workerBranch) Hload)
    as [Ht [Hres _]].
  rewrite Ht in Hin |- *. rewrite Hres. clear Ht Hres Hload.
  revert Hin. rewrite mergeToIntegration_run. cbv zeta. unfold mergeArgs.
  set (w2 := afterPrologue swarmID w).
  set (r0 := fst (run_git (gitDir m) ["rev-parse"; "--abbrev-ref"; "HEAD"] w2)).
  destruct (runErr r0) as [cause0|] eqn:E0.
  - cbn [trace result fst snd app]. intros Hin. in_log.
    assert (cause0 = cause) as -> by congruence.
    rewrite Errorf_current_branch. split; congruence.
  - destruct (String.eqb _ _); run_cases; cbn [trace result fst snd app];
      intros Hin; exfalso; in_log; congruence.
Qed.

(** X4. [MergeToIntegration] checks out the integration branch exactly when
    the trimmed answer of [git rev-parse] is another name; and when that
    checkout fails it stops there, with the failure wrapped under
    "checking out integration: ", having fetched and merged nothing. *)
Theorem MergeToIntegration_checkout :
  forall (U : Unicode) (W : Type) (H : Host W) (m : Manager)
         (swarmID workerBranch : string) (w : W) (swarm : Swarm)
         (r : ProcResult),
    let run := MergeToIntegration m swarmID workerBranch w in
    let checkout := ["checkout"; Integration swarm] in
    In (EvLoad swarmID (inl swarm)) (trace run) ->
    In (EvGit ["rev-parse"; "--abbrev-ref"; "HEAD"] r) (trace run) ->
    runErr r = None ->
    (TrimSpace (stdout r) = Integration swarm ->
     ~ In checkout (gitCommands (trace run)))
    /\ (TrimSpace (stdout r) <> Integration swarm ->
        exists rc after,
          trace run = EvLock swarmID None :: EvLoad swarmID (inl swarm)
                        :: EvGit ["rev-parse"; "--abbrev-ref"; "HEAD"] r
                        :: EvGit checkout rc :: after
          /\ (forall e, gitRunError checkout rc = Some e ->
                after = [EvUnlock swarmID]
                /\ result run
                   = Some (wrapError ("checking out integration: " ++ Error e) e))).
Proof.
  intros U W H m swarmID workerBranch w swarm r run checkout Hload Hin Hr.
  subst run checkout. unfold MergeToIntegration in *.
  destruct (withSwarmLock_loaded _ _ _ _ (working_mergeToIntegration m workerBranch) Hload)
    as [Ht [Hres _]].
  rewrite Ht in Hin |- *. rewrite Hres. clear Ht Hres Hload.
  revert Hin. rewrite mergeToIntegration_run. cbv zeta. unfold mergeArgs.
  set (w2 := afterPrologue swarmID w).
  set (r0 := fst (run_git (gitDir m) ["rev-parse"; "--abbrev-ref"; "HEAD"] w2)).
  set (w0 := snd (run_git (gitDir m) ["rev-parse"; "--abbrev-ref"; "HEAD"] w2)).
  assert (Hr0 : forall T : list event,
             In (EvGit ["rev-parse"; "--abbrev-ref"; "HEAD"] r)
               (EvLock swarmID None :: EvLoad swarmID (inl swarm)
                  :: EvGit ["rev-parse"; "--abbrev-ref"; "HEAD"] r0 :: T) ->
             (forall a x, In (EvGit a x) T -> a <> ["rev-parse"; "--abbrev-ref"; "HEAD"]) ->
             r0 = r).
  { intros T Hin HT. in_log; try congruence. exfalso. eapply HT; eauto. }
  destruct (runErr r0) as [cause0|] eqn:E0.
  { cbn [trace fst snd app]. intros Hin. in_log. congruence. }
  destruct (String.eqb (TrimSpace (stdout r0)) (Integration swarm)) eqn:Eb.
  - apply String.eqb_eq in Eb. run_cases; cbn [trace result fst snd app];
      intros Hin; (assert (r0 = r) as <-;
        [eapply Hr0; [exact Hin|]; intros a x Hx; in_log; subst a; discriminate|]);
      (split; [|congruence]); intros _ Hco;
      git_commands_in Hco;
      destruct (fetchWithRetry_commands m "origin" workerBranch w0) as [n [_ Hn]];
      rewrite Hn in Hco; in_log; try apply repeat_spec in Hco; discriminate.
  - apply String.eqb_neq in Eb.
    set (rc := fst (run_git (gitDir m) ["checkout"; Integration swarm] w0)).
    run_cases; cbn [trace result fst snd app];
      intros Hin; (assert (r0 = r) as <-;
        [eapply Hr0; [exact Hin|]; intros a x Hx; in_log; subst a; discriminate|]);
      (split; [congruence|]); intros _; exists rc; eexists;
      (split; [reflexivity|]); intros e0 He0; try congruence.
    assert (e = e0) as -> by congruence.
    rewrite Errorf_checkout_integration. auto.
Qed.

Lemma Sprintf_merge_message (workerBranch integration : string) :
  Sprintf "Merge %s into %s" [workerBranch; integration]
  = ("Merge " ++ workerBranch ++ " into " ++ integration)%string.
Proof. cbn. rewrite append_nil_r. reflexivity. Qed.

Lemma Sprintf_land_message (swarmID : string) :
  Sprintf "Land swarm %s" [swarmID] = ("Land swarm " ++ swarmID)%string.
Proof. cbn. rewrite append_nil_r. reflexivity. Qed.

Lemma gitRunError_None {U : Unicode} (args : list string) (r : ProcResult) :
  gitRunError args r = None <-> runErr r = None.
Proof. unfold gitRunError. destruct (runErr r); split; congruence. Qed.

(** X5. Once [MergeToIntegration] is on the integration branch it fetches the
    worker branch, between one and three times, and then merges it
    whatever the fetch returned: the merge is always run, with the message
    "Merge <worker> into <integration>"; a merge that succeeds makes the
    operation succeed and is its last git command, and a merge that fails
    is followed by the listing of the unmerged files. *)
Theorem MergeToIntegration_merges_after_any_fetch :
  forall (U : Unicode) (W : Type) (H : Host W) (m : Manager)
         (swarmID workerBranch : string) (w : W) (swarm : Swarm)
         (r : ProcResult),
    let run := MergeToIntegration m swarmID workerBranch w in
    let revParse := ["rev-parse"; "--abbrev-ref"; "HEAD"] in
    let checkout := ["checkout"; Integration swarm] in
    let fetch := ["fetch"; "origin"; workerBranch] in
    let merge := ["merge"; "--no-ff"; "-m";
                  ("Merge " ++ workerBranch ++ " into " ++ Integration swarm)%string;
                  workerBranch] in
    In (EvLoad swarmID (inl swarm)) (trace run) ->
    In (EvGit revParse r) (trace run) ->
    runErr r = None ->
    (forall rc, In (EvGit checkout rc) (trace run) -> runErr rc = None) ->
    exists n rm,
      (1 <= n <= 3)%nat
      /\ In (EvGit merge rm) (trace run)
      /\ gitCommands (trace run)
         = revParse
             :: (if String.eqb (TrimSpace (stdout r)) (Integration swarm)
                 then [] else [checkout])
             ++ repeat fetch n
             ++ merge :: (match runErr rm with
                          | None => []
                          | Some _ => [["diff"; "--name-only"; "--diff-filter=U"]]
                          end)
      /\ (runErr rm = None -> result run = None).
Proof.
  intros U W H m swarmID workerBranch w swarm r run revParse checkout fetch merge
         Hload Hin Hr Hco.
  subst run revParse checkout fetch merge. unfold MergeToIntegration in *.
  destruct (withSwarmLock_loaded _ _ _ _ (working_mergeToIntegration m workerBranch) Hload)
    as [Ht [Hres _]].
  rewrite Ht in Hin, Hco |- *. rewrite Hres. clear Ht Hres Hload.
  revert Hin Hco. rewrite mergeToIntegration_run. cbv zeta. unfold mergeArgs.
  rewrite Sprintf_merge_message.
  set (merge := ["merge"; "--no-ff"; "-m"; _; workerBranch]).
  set (w2 := afterPrologue swarmID w).
  set (r0 := fst (run_git (gitDir m) ["rev-parse"; "--abbrev-ref"; "HEAD"] w2)).
  set (w0 := snd (run_git (gitDir m) ["rev-parse"; "--abbrev-ref"; "HEAD"] w2)).
  assert (Hr0 : forall T : list event,
             In (EvGit ["rev-parse"; "--abbrev-ref"; "HEAD"] r)
               (EvLock swarmID None :: EvLoad swarmID (inl swarm)
                  :: EvGit ["rev-parse"; "--abbrev-ref"; "HEAD"] r0 :: T) ->
             (forall a x, In (EvGit a x) T -> a <> ["rev-parse"; "--abbrev-ref"; "HEAD"]) ->
             r0 = r).
  { intros T Hin HT. in_log; try congruence. exfalso. eapply HT; eauto. }
  destruct (runErr r0) as [cause0|] eqn:E0.
  { cbn [trace fst snd app]. intros Hin. in_log. congruence. }
  destruct (String.eqb (TrimSpace (stdout r0)) (Integration swarm)) eqn:Eb.
  - destruct (fetchWithRetry_commands m "origin" workerBranch w0) as [n [Hn Hf]].
    set (rm := fst (run_git (gitDir m) merge
                      (final (fetchWithRetry m "origin" workerBranch w0)))).
    destruct (gitRunError merge rm) as [e|] eqn:Em; cbn [trace result fst snd app];
      intros Hin Hco; (assert (r0 = r) as <-;
        [eapply Hr0; [exact Hin|]; intros a x Hx; subst merge; in_log; subst a; discriminate|]);
      rewrite Eb; exists n, rm; (split; [exact Hn|]);
      (split; [do 3 right; apply in_or_app; left; apply in_or_app; right; left; reflexivity|]);
      git_commands; rewrite Hf; cbn [app];
      unfold gitRunError in Em; destruct (runErr rm); try discriminate;
      (split; [rewrite <- app_assoc; reflexivity|]); congruence.
  - set (rc := fst (run_git (gitDir m) ["checkout"; Integration swarm] w0)).
    set (wc := snd (run_git (gitDir m) ["checkout"; Integration swarm] w0)).
    destruct (gitRunError ["checkout"; Integration swarm] rc) as [e|] eqn:Ec.
    { cbn [trace fst snd app]. intros _ Hco. exfalso.
      assert (Hok : runErr rc = None)
        by (apply Hco; do 3 right; left; reflexivity).
      rewrite (proj2 (gitRunError_None ["checkout"; Integration swarm] rc) Hok) in Ec.
      discriminate. }
    destruct (fetchWithRetry_commands m "origin" workerBranch wc) as [n [Hn Hf]].
    set (rm := fst (run_git (gitDir m) merge
                      (final (fetchWithRetry m "origin" workerBranch wc)))).
    destruct (gitRunError merge rm) as [e|] eqn:Em; cbn [trace result fst snd app];
      intros Hin Hco; (assert (r0 = r) as <-;
        [eapply Hr0; [exact Hin|]; intros a x Hx; subst merge; in_log; subst a; discriminate|]);
      rewrite Eb; exists n, rm; (split; [exact Hn|]);
      (split; [do 4 right; apply in_or_app; left; apply in_or_app; right; left; reflexivity|]);
      git_commands; rewrite Hf; cbn [app];
      unfold gitRunError in Em; destruct (runErr rm); try discriminate;
      (split; [rewrite <- app_assoc; reflexivity|]); congruence.
Qed.

(** ** Landing *)

(** X6. When [LandToMain] cannot check out the target branch it stops there:
    nothing is fetched, merged or pushed, the lock is released, and the
    failure comes back wrapped under "checking out <target>: ". *)
Theorem LandToMain_checkout_fails :
  forall (U : Unicode) (W : Type) (H : Host W) (m : Manager)
         (swarmID : string) (w : W) (swarm : Swarm)
         (rc : ProcResult) (e : error),
    let run := LandToMain m swarmID w in
    let checkout := ["checkout"; TargetBranch swarm] in
    In (EvLoad swarmID (inl swarm)) (trace run) ->
    In (EvGit checkout rc) (trace run) ->
    gitRunError checkout rc = Some e ->
    trace run = [EvLock swarmID None; EvLoad swarmID (inl swarm);
                 EvGit checkout rc; EvUnlock swarmID]
    /\ result run
       = Some (wrapError ("checking out " ++ TargetBranch swarm ++ ": " ++ Error e) e).
Proof.
  intros U W H m swarmID w swarm rc e run checkout Hload Hin He.
  subst run checkout. unfold LandToMain in *.
  destruct (withSwarmLock_loaded _ _ _ _ (working_landToMain m swarmID) Hload)
    as [Ht [Hres _]].
  rewrite Ht in Hin |- *. rewrite Hres. clear Ht Hres Hload.
  revert Hin. rewrite landToMain_run. cbv zeta. unfold mergeArgs.
  run_cases; cbn [trace result fst snd app]; intros Hin; in_log;
    try discriminate; subst.
  - assert (e0 = e) as -> by congruence.
    rewrite Errorf_checkout_target. auto.
  - congruence.
  - congruence.
  - congruence.
Qed.

(** X7. A merge of [LandToMain] that fails is decided as in
    [MergeToIntegration]: the unmerged files are listed and the lock is
    released. If the listing succeeds and some line of what it printed,
    trimmed, is not empty, so whenever it printed one or more file names
    one per line, the result is the merge failure itself; if it succeeds
    and every line is empty, so whenever it printed nothing, the failure
    comes back wrapped under "merging to <target>: ", as it does when the
    listing fails. In every case nothing is pushed. *)
Theorem LandToMain_conflict :
  forall (U : Unicode) (W : Type) (H : Host W) (m : Manager)
         (swarmID : string) (w : W) (swarm : Swarm)
         (margs : list string) (r : ProcResult) (e : error),
    let run := LandToMain m swarmID w in
    let wrapped :=
      Some (wrapError ("merging to " ++ TargetBranch swarm ++ ": " ++ Error e) e) in
    In (EvLoad swarmID (inl swarm)) (trace run) ->
    In (EvGit ("merge" :: margs) r) (trace run) ->
    gitRunError ("merge" :: margs) r = Some e ->
    exists pre rd,
      trace run = pre ++ [EvGit ("merge" :: margs) r;
                          EvGit ["diff"; "--name-only"; "--diff-filter=U"] rd;
                          EvUnlock swarmID]
      /\ (runErr rd = None ->
          (exists f, In f (Split (TrimSpace (stdout rd)) newline) /\ f <> "") ->
          result run = Some e)
      /\ (forall files,
            runErr rd = None ->
            files <> [] -> Forall fileName files ->
            TrimSpace (stdout rd) = joinLines files ->
            result run = Some e)
      /\ (runErr rd = None ->
          (forall f, In f (Split (TrimSpace (stdout rd)) newline) -> f = "") ->
          result run = wrapped)
      /\ (runErr rd = None -> TrimSpace (stdout rd) = "" -> result run = wrapped)
      /\ (runErr rd <> None -> result run = wrapped)
      /\ ~ In ["push"; "origin"; TargetBranch swarm] (gitCommands (trace run)).
Proof.
  intros U W H m swarmID w swarm margs r e run wrapped Hload Hin He.
  subst run wrapped. unfold LandToMain in *.
  destruct (withSwarmLock_loaded _ _ _ _ (working_landToMain m swarmID) Hload)
    as [Ht [Hres _]].
  rewrite Ht in Hin |- *. rewrite Hres. clear Ht Hres Hload.
  revert Hin. rewrite landToMain_run. cbv zeta. unfold mergeArgs.
  set (w2 := afterPrologue swarmID w).
  set (wc := snd (run_git (gitDir m) ["checkout"; TargetBranch swarm] w2)).
  destruct (fetchWithRetry_commands m "origin" (TargetBranch swarm) wc) as [n [_ Hf]].
  run_cases; cbn [trace result fst snd app]; intros Hin; in_log;
    try discriminate; try congruence.
  match goal with
  | |- context [conflictsOf ?x] => set (rd := x)
  end.
  exists (EvLock swarmID None :: EvLoad swarmID (inl swarm)
            :: EvGit ["checkout"; TargetBranch swarm]
                 (fst (run_git (gitDir m) ["checkout"; TargetBranch swarm] w2))
            :: trace (fetchWithRetry m "origin" (TargetBranch swarm) wc)), rd.
  match goal with
  | |- context [mergeVerdict _ ?x _] => assert (x = e) as -> by congruence
  end.
  destruct (mergeVerdict_cases (Errorf "merging to %s: %w" [TargetBranch swarm]) e rd)
    as [_ [_ Hfail]].
  pose proof (mergeVerdict_listing
                (Errorf "merging to %s: %w" [TargetBranch swarm]) e rd) as Hlist.
  rewrite Errorf_merging_to in Hfail, Hlist.
  split; [|split; [|split; [|split; [|split; [|split]]]]].
  - subst. cbn [app]. rewrite <- app_assoc.
    match goal with Heq : _ = "merge" :: margs |- _ => rewrite <- Heq end.
    reflexivity.
  - intros Hrd. exact (proj1 (Hlist Hrd)).
  - intros files Hrd. exact (proj1 (proj2 (Hlist Hrd)) files).
  - intros Hrd. exact (proj1 (proj2 (proj2 (Hlist Hrd)))).
  - intros Hrd. exact (proj2 (proj2 (proj2 (Hlist Hrd)))).
  - exact Hfail.
  - intros Hpush. git_commands_in Hpush. rewrite Hf in Hpush.
    in_log; try apply repeat_spec in Hpush; discriminate.
Qed.

(** X8. After a merge that succeeded [LandToMain] pushes the target branch,
    and this push is not best effort: it is the last git command, its
    failure is the result, wrapped under "pushing: ", and only its success
    makes the operation succeed. *)
Theorem LandToMain_push :
  forall (U : Unicode) (W : Type) (H : Host W) (m : Manager)
         (swarmID : string) (w : W) (swarm : Swarm)
         (margs : list string) (r : ProcResult),
    let run := LandToMain m swarmID w in
    let push := ["push"; "origin"; TargetBranch swarm] in
    In (EvLoad swarmID (inl swarm)) (trace run) ->
    In (EvGit ("merge" :: margs) r) (trace run) ->
    runErr r = None ->
    exists pre rp,
      trace run = pre ++ [EvGit ("merge" :: margs) r; EvGit push rp;
                          EvUnlock swarmID]
      /\ (runErr rp = None -> result run = None)
      /\ (forall e, gitRunError push rp = Some e ->
            result run = Some (wrapError ("pushing: " ++ Error e) e)).
Proof.
  intros U W H m swarmID w swarm margs r run push Hload Hin Hr.
  subst run push. unfold LandToMain in *.
  destruct (withSwarmLock_loaded _ _ _ _ (working_landToMain m swarmID) Hload)
    as [Ht [Hres _]].
  rewrite Ht in Hin |- *. rewrite Hres. clear Ht Hres Hload.
  revert Hin. rewrite landToMain_run. cbv zeta. unfold mergeArgs.
  set (w2 := afterPrologue swarmID w).
  set (wc := snd (run_git (gitDir m) ["checkout"; TargetBranch swarm] w2)).
  apply (gitRunError_None ("merge" :: margs)) in Hr.
  run_cases; cbn [trace result fst snd app]; intros Hin; in_log;
    try discriminate; try congruence;
    match goal with
    | |- context [EvGit ["push"; "origin"; _] ?x] => set (rp := x) in *
    end;
    (exists (EvLock swarmID None :: EvLoad swarmID (inl swarm)
              :: EvGit ["checkout"; TargetBranch swarm]
                   (fst (run_git (gitDir m) ["checkout"; TargetBranch swarm] w2))
              :: trace (fetchWithRetry m "origin" (TargetBranch swarm) wc)), rp);
    (split; [subst; cbn [app]; rewrite <- app_assoc;
             match goal with Heq : _ = "merge" :: margs |- _ => rewrite <- Heq end;
             reflexivity|]);
    (split; [intros Hp; apply (gitRunError_None ["push"; "origin"; TargetBranch swarm]) in Hp;
             congruence|]);
    intros e' He'; rewrite <- Errorf_pushing; congruence.
Qed.

(** X9. Once [LandToMain] is on the target branch it fetches it, between one
    and three times, and merges the integration branch whatever the fetch
    returned, with the message "Land swarm <id>"; then it pushes if the
    merge succeeded, and lists the unmerged files if it failed. *)
Theorem LandToMain_commands :
  forall (U : Unicode) (W : Type) (H : Host W) (m : Manager)
         (swarmID : string) (w : W) (swarm : Swarm) (rc : ProcResult),
    let run := LandToMain m swarmID w in
    let checkout := ["checkout"; TargetBranch swarm] in
    let fetch := ["fetch"; "origin"; TargetBranch swarm] in
    let merge := ["merge"; "--no-ff"; "-m"; ("Land swarm " ++ swarmID)%string;
                  Integration swarm] in
    In (EvLoad swarmID (inl swarm)) (trace run) ->
    In (EvGit checkout rc) (trace run) ->
    runErr rc = None ->
    exists n rm,
      (1 <= n <= 3)%nat
      /\ In (EvGit merge rm) (trace run)
      /\ gitCommands (trace run)
         = checkout :: repeat fetch n
             ++ [merge; match runErr rm with
                        | None => ["push"; "origin"; TargetBranch swarm]
                        | Some _ => ["diff"; "--name-only"; "--diff-filter=U"]
                        end].
Proof.
  intros U W H m swarmID w swarm rc run checkout fetch merge Hload Hin Hr.
  subst run checkout fetch merge. unfold LandToMain in *.
  destruct (withSwarmLock_loaded _ _ _ _ (working_landToMain m swarmID) Hload)
    as [Ht [Hres _]].
  rewrite Ht in Hin |- *. clear Ht Hres Hload.
  revert Hin. rewrite landToMain_run. cbv zeta. unfold mergeArgs.
  rewrite Sprintf_land_message.
  set (merge := ["merge"; "--no-ff"; "-m"; _; Integration swarm]).
  set (w2 := afterPrologue swarmID w).
  set (rc0 := fst (run_git (gitDir m) ["checkout"; TargetBranch swarm] w2)).
  set (wc := snd (run_git (gitDir m) ["checkout"; TargetBranch swarm] w2)).
  destruct (fetchWithRetry_commands m "origin" (TargetBranch swarm) wc) as [n [Hn Hf]].
  set (rm := fst (run_git (gitDir m) merge
                    (final (fetchWithRetry m "origin" (TargetBranch swarm) wc)))).
  apply (gitRunError_None ["checkout"; TargetBranch swarm]) in Hr.
  assert (Hrc : forall T : list event,
             In (EvGit ["checkout"; TargetBranch swarm] rc)
               (EvLock swarmID None :: EvLoad swarmID (inl swarm)
                  :: EvGit ["checkout"; TargetBranch swarm] rc0 :: T) ->
             (forall a x, In (EvGit a x) T -> a <> ["checkout"; TargetBranch swarm]) ->
             rc0 = rc).
  { intros T Hin HT. in_log; try congruence. exfalso. eapply HT; eauto. }
  destruct (gitRunError ["checkout"; TargetBranch swarm] rc0) as [e|] eqn:Ec.
  { cbn [trace fst snd app]. intros Hin. in_log. congruence. }
  destruct (gitRunError merge rm) as [e|] eqn:Em;
    [|destruct (gitRunError ["push"; "origin"; TargetBranch swarm] _)];
    cbn [trace result fst snd app]; intros Hin;
    exists n, rm; (split; [exact Hn|]);
    (split; [do 3 right; apply in_or_app; left; apply in_or_app; right; left; reflexivity|]);
    git_commands; rewrite Hf; cbn [app];
    unfold gitRunError in Em; destruct (runErr rm); try discriminate;
    rewrite ?app_nil_r; reflexivity.
Qed.

(** ** What the four locking operations have in common *)

Section Prologue.
Context {U : Unicode} {W : Type} {H : Host W}.
Variable m : Manager.

Lemma withSwarmLock_load_failed (swarmID : string)
    (rest : Swarm -> M W (option error)) (w : W) (err : error) :
  (forall sw, emits working (rest sw)) ->
  In (EvLoad swarmID (inr err)) (trace (withSwarmLock swarmID rest w)) ->
  trace (withSwarmLock swarmID rest w)
  = [EvLock swarmID None; EvLoad swarmID (inr err); EvUnlock swarmID]
  /\ result (withSwarmLock swarmID rest w) = Some err.
Proof.
  intros Hrest. rewrite withSwarmLock_run. cbv zeta.
  destruct (fst (lock_swarm swarmID w)) as [e|].
  - intros [E|[]]. discriminate.
  - destruct (fst (load_swarm swarmID _)) as [sw|e].
    + unfold trace at 1; cbn [fst snd].
      intros [E|[E|Hin]]; [discriminate|discriminate|].
      exfalso. apply in_app_or in Hin. destruct Hin as [Hin|[E|[]]];
        [|discriminate].
      pose proof (Hrest sw) as Hw. unfold emits in Hw.
      setoid_rewrite Forall_forall in Hw. apply (Hw _ _ Hin).
    + intros [E|[E|[E|[]]]]; try discriminate.
      injection E as ->. split; reflexivity.
Qed.

Lemma withSwarmLock_success (swarmID : string)
    (rest : Swarm -> M W (option error)) (w : W) :
  result (withSwarmLock swarmID rest w) = None ->
  exists swarm,
    trace (withSwarmLock swarmID rest w)
    = EvLock swarmID None :: EvLoad swarmID (inl swarm)
        :: trace (rest swarm (afterPrologue swarmID w)) ++ [EvUnlock swarmID]
    /\ result (rest swarm (afterPrologue swarmID w)) = None.
Proof.
  rewrite withSwarmLock_run. unfold afterPrologue. cbv zeta.
  destruct (fst (lock_swarm swarmID w)) as [e|]; [discriminate|].
  destruct (fst (load_swarm swarmID _)) as [sw|e]; [|discriminate].
  cbn [result trace fst snd]. intros Hr. exists sw. split; [reflexivity|exact Hr].
Qed.

Lemma working_perform (op : Operation) :
  exists rest, (forall swarmID, perform m swarmID op = withSwarmLock swarmID (rest swarmID))
               /\ forall swarmID sw, emits working (rest swarmID sw).
Proof.
  destruct op as [|workerBranch| |].
  - exists (fun _ => createIntegrationBranch m). split; [reflexivity|].
    intros _. apply working_createIntegrationBranch.
  - exists (fun _ => mergeToIntegration m workerBranch). split; [reflexivity|].
    intros _. apply working_mergeToIntegration.
  - exists (landToMain m). split; [reflexivity|].
    apply working_landToMain.
  - exists (fun _ => cleanupBranches m). split; [reflexivity|].
    intros _. apply working_cleanupBranches.
Qed.

End Prologue.

(** X10. When the swarm cannot be loaded, each of [CreateIntegrationBranch],
    [MergeToIntegration], [LandToMain] and [CleanupBranches] returns the
    error of [LoadSwarm] as it is, runs no git command, and releases the
    lock it took. *)
Theorem load_failure_is_returned :
  forall (U : Unicode) (W : Type) (H : Host W) (m : Manager)
         (swarmID : string) (op : Operation) (w : W) (err : error),
    let run := perform m swarmID op w in
    In (EvLoad swarmID (inr err)) (trace run) ->
    trace run = [EvLock swarmID None; EvLoad swarmID (inr err); EvUnlock swarmID]
    /\ result run = Some err
    /\ gitCommands (trace run) = [].
Proof.
  intros U W H m swarmID op w err run Hin. subst run.
  destruct (working_perform m op) as [rest [Hop Hw]].
  rewrite Hop in *.
  destruct (@withSwarmLock_load_failed W H swarmID (rest swarmID) w err
              (Hw swarmID) Hin)
    as [Ht Hr].
  rewrite Ht, Hr. repeat split.
Qed.

(** X11. None of the four locking operations reports success unless its
    mandatory git steps ran and succeeded: the creation of the branch for
    [CreateIntegrationBranch], the merge for [MergeToIntegration], the
    merge and the push for [LandToMain], the local deletion of the
    integration branch for [CleanupBranches]; and in every case the swarm
    was loaded under the lock. *)
Theorem success_means_done :
  forall (U : Unicode) (W : Type) (H : Host W) (m : Manager)
         (swarmID : string) (op : Operation) (w : W),
    let run := perform m swarmID op w in
    result run = None ->
    exists swarm body,
      trace run = EvLock swarmID None :: EvLoad swarmID (inl swarm)
                    :: body ++ [EvUnlock swarmID]
      /\ match op with
         | Create =>
             exists r rc rp,
               body = [EvGit ["show-ref"; "--verify"; "--quiet";
                              ("refs/heads/" ++ Integration swarm)%string] r;
                       EvGit ["checkout"; "-b"; Integration swarm; BaseCommit swarm] rc;
                       EvGit ["push"; "-u"; "origin"; Integration swarm] rp]
               /\ runErr r <> None /\ runErr rc = None
         | Merge workerBranch =>
             exists pre rm,
               body = pre ++ [EvGit ["merge"; "--no-ff"; "-m";
                                     ("Merge " ++ workerBranch ++ " into "
                                        ++ Integration swarm)%string;
                                     workerBranch] rm]
               /\ runErr rm = None
         | Land =>
             exists pre rm rp,
               body = pre ++ [EvGit ["merge"; "--no-ff"; "-m";
                                     ("Land swarm " ++ swarmID)%string;
                                     Integration swarm] rm;
                              EvGit ["push"; "origin"; TargetBranch swarm] rp]
               /\ runErr rm = None /\ runErr rp = None
         | Cleanup =>
             exists r1 after,
               body = EvGit ["branch"; "-D"; Integration swarm] r1 :: after
               /\ runErr r1 = None
         end.
Proof.
  intros U W H m swarmID op w run Hres. subst run.
  destruct op as [|workerBranch| |]; cbn [perform] in *.
  - unfold CreateIntegrationBranch in *.
    destruct (withSwarmLock_success _ _ _ Hres) as [swarm [Ht Hr]].
    exists swarm, (trace (createIntegrationBranch m swarm (afterPrologue swarmID w))).
    split; [exact Ht|]. clear Ht Hres. revert Hr.
    rewrite createIntegrationBranch_run. cbv zeta.
    destruct (runErr (fst (run_git _ _ _))) as [e|] eqn:Er; [|discriminate].
    destruct (gitRunError ["checkout"; _; _; _] _) as [e'|] eqn:Ec; [discriminate|].
    intros _. eexists _, _, _. split; [reflexivity|].
    split; [congruence|]. apply gitRunError_None in Ec. exact Ec.
  - unfold MergeToIntegration in *.
    destruct (withSwarmLock_success _ _ _ Hres) as [swarm [Ht Hr]].
    exists swarm, (trace (mergeToIntegration m workerBranch swarm (afterPrologue swarmID w))).
    split; [exact Ht|]. clear Ht Hres. revert Hr.
    rewrite mergeToIntegration_run. cbv zeta. unfold mergeArgs.
    rewrite Sprintf_merge_message.
    destruct (runErr (fst (run_git _ ["rev-parse"; _; _] _))); [discriminate|].
    assert (Hv : forall e rd, mergeVerdict (Errorf "merging: %w" []) e (@conflictsOf U rd) <> None).
    { intros e rd. unfold mergeVerdict. destruct (conflictsOf rd) as [c [x|]];
        [discriminate|]. destruct (0 <? length c)%nat; discriminate. }
    destruct (String.eqb _ _); run_cases; cbn [result trace fst snd];
      intros Hr; try discriminate; try (exfalso; eapply Hv; exact Hr);
      eexists _, _; (split; [rewrite app_assoc; reflexivity|]);
      apply gitRunError_None in E; try exact E;
      match goal with Hm : gitRunError ("merge" :: _) _ = None |- _ =>
        apply gitRunError_None in Hm; exact Hm end.
  - unfold LandToMain in *.
    destruct (withSwarmLock_success _ _ _ Hres) as [swarm [Ht Hr]].
    exists swarm, (trace (landToMain m swarmID swarm (afterPrologue swarmID w))).
    split; [exact Ht|]. clear Ht Hres. revert Hr.
    rewrite landToMain_run. cbv zeta. unfold mergeArgs.
    rewrite Sprintf_land_message.
    assert (Hv : forall wrap e rd, mergeVerdict wrap e (@conflictsOf U rd) <> None).
    { intros wrap e rd. unfold mergeVerdict. destruct (conflictsOf rd) as [c [x|]];
        [discriminate|]. destruct (0 <? length c)%nat; discriminate. }
    run_cases; cbn [result trace fst snd];
      intros Hr; try discriminate; try (exfalso; eapply Hv; exact Hr).
    eexists _, _, _. split.
    + change (?a :: ?l ++ [?x; ?y]) with ((a :: l) ++ [x; y]). reflexivity.
    + split; eapply gitRunError_None; eassumption.
  - unfold CleanupBranches in *.
    destruct (withSwarmLock_success _ _ _ Hres) as [swarm [Ht Hr]].
    exists swarm, (trace (cleanupBranches m swarm (afterPrologue swarmID w))).
    split; [exact Ht|].
    destruct (cleanupBranches_run m swarm (afterPrologue swarmID w)) as [Hr' Ht'].
    rewrite Hr' in Hr. rewrite Ht'. eexists _, _. split; [reflexivity|].
    apply gitRunError_None in Hr. exact Hr.
Qed.

(** ** What [gitRun] reports *)

Section GitRunFacts.
Context {U : Unicode}.

Lemma firstNonFlag_flags (flags rest : list string) :
  Forall (fun f => isFlag f = true) flags ->
  firstNonFlag (flags ++ rest) = firstNonFlag rest.
Proof.
  induction 1 as [|f flags Hf _ IH]; [reflexivity|].
  cbn [app firstNonFlag]. unfold isFlag in Hf. rewrite Hf. exact IH.
Qed.

Lemma firstNonFlag_all_flags (flags : list string) :
  Forall (fun f => isFlag f = true) flags -> firstNonFlag flags = "".
Proof.
  intros Hf. rewrite <- (app_nil_r flags), firstNonFlag_flags by assumption.
  reflexivity.
Qed.

End GitRunFacts.

(** X12. The command name of a [SwarmGitError] is the first argument of the git
    command that does not start with a dash, when there is one and it is
    not empty; otherwise, so when every argument is a flag or that
    argument is the empty string, it is the first argument. *)
Theorem commandName_first_word :
  forall (U : Unicode) (flags rest : list string),
    Forall (fun f => isFlag f = true) flags ->
    (forall word, isFlag word = false -> word <> "" ->
                  commandName (flags ++ word :: rest) = word)
    /\ commandName flags = hd "" flags
    /\ commandName (flags ++ "" :: rest) = hd "" (flags ++ "" :: rest).
Proof.
  intros U flags rest Hflags. unfold commandName. repeat split.
  - intros word Hword Hne. rewrite firstNonFlag_flags by assumption.
    cbn [firstNonFlag]. unfold isFlag in Hword. rewrite Hword. cbn [negb].
    destruct (String.eqb word "") eqn:E; [apply String.eqb_eq in E; contradiction|].
    reflexivity.
  - rewrite firstNonFlag_all_flags by assumption. cbn.
    destruct flags; reflexivity.
  - rewrite firstNonFlag_flags by assumption. cbn [firstNonFlag HasPrefix negb].
    cbn [String.eqb andb]. rewrite length_app. cbn [length].
    replace (0 <? length flags + S (length rest))%nat with true
      by (symmetry; apply Nat.ltb_lt; lia).
    reflexivity.
Qed.

Lemma commandName_first_word_witness :
  @commandName ["--no-pager"; "-c"; "diff"; "--name-only"] = "diff".
Proof.
  apply (proj1 (@commandName_first_word asciiText ["--no-pager"; "-c"] ["--name-only"]
                  ltac:(repeat constructor)) "diff").
  - reflexivity.
  - discriminate.
Defined.

(** X13. A failure of [gitRun] is a [SwarmGitError] that carries the trimmed
    output and the error of the process; its message is the command name,
    a colon, and the trimmed stderr, or the message of the process error
    when stderr is blank; stdout is never part of the message. *)
Theorem gitRun_error_message :
  forall (U : Unicode) (args : list string) (r : ProcResult) (e : error),
    gitRunError args r = Some e ->
    exists cause,
      runErr r = Some cause
      /\ e = SwarmGitError (commandName args) (TrimSpace (stdout r))
               (TrimSpace (stderr r)) (Some cause)
      /\ Error e
         = (commandName args ++ ": "
              ++ (if String.eqb (TrimSpace (stderr r)) "" then Error cause
                  else TrimSpace (stderr r)))%string.
Proof.
  intros U args r e He. unfold gitRunError in He.
  destruct (runErr r) as [cause|]; [|discriminate].
  injection He as <-. exists cause. split; [reflexivity|]. split; [reflexivity|].
  cbn [Error]. destruct (String.eqb (TrimSpace (stderr r)) "").
  - generalize (Error cause) (commandName args). intros x y.
    cbn. rewrite append_nil_r. reflexivity.
  - generalize (TrimSpace (stderr r)) (commandName args). intros x y.
    cbn. rewrite append_nil_r. reflexivity.
Qed.

Lemma gitRun_error_message_witness :
  exists cause,
    runErr (Scripted.exited "128" "ignored" "fatal: bad revision") = Some cause
    /\ SwarmGitError "merge" "ignored" "fatal: bad revision"
         (Some (errorString "exit status 128"))
       = SwarmGitError (@commandName ["merge"; "--abort"])
           (asciiTrimSpace "ignored") (asciiTrimSpace "fatal: bad revision")
           (Some cause)
    /\ Error (SwarmGitError "merge" "ignored" "fatal: bad revision"
                (Some (errorString "exit status 128")))
       = "merge: fatal: bad revision".
Proof.
  apply (@gitRun_error_message asciiText ["merge"; "--abort"]
           (Scripted.exited "128" "ignored" "fatal: bad revision")).
  reflexivity.
Defined.

(** ** What [getConflictingFiles] returns *)

(** X14. [getConflictingFiles] never returns an empty name nor a name that
    holds a newline; it returns the error of the listing as it is, and
    with an error it returns no name at all. *)
Theorem conflictsOf_names :
  forall (U : Unicode) (r : ProcResult),
    Forall fileName (fst (conflictsOf r))
    /\ snd (conflictsOf r) = runErr r
    /\ (runErr r <> None -> fst (conflictsOf r) = []).
Proof.
  intros U r. unfold conflictsOf.
  destruct (runErr r) as [err|]; cbn [fst snd].
  - repeat split; constructor.
  - destruct (String.eqb (TrimSpace (stdout r)) ""); cbn [fst snd].
    + repeat split; try constructor.
    + repeat split; try congruence. apply nonEmpty_names, Split_lines.
Qed.

(** X15. When the listing succeeds and its trimmed output is a list of names,
    one per line, [getConflictingFiles] returns exactly these names, in
    order. *)
Theorem conflictsOf_joinLines :
  forall (U : Unicode) (r : ProcResult) (files : list string),
    runErr r = None ->
    Forall fileName files ->
    TrimSpace (stdout r) = joinLines files ->
    conflictsOf r = (files, None).
Proof.
  intros U r files Hr Hall Hout. unfold conflictsOf. rewrite Hr, Hout.
  destruct files as [|f rest]; [reflexivity|].
  destruct (String.eqb (joinLines (f :: rest)) "") eqn:E.
  - exfalso. apply String.eqb_eq in E. inversion Hall as [|? ? [Hf _] _]; subst.
    destruct rest; cbn [joinLines] in E; [contradiction|].
    destruct f; [contradiction|discriminate].
  - rewrite Split_joinLines by (assumption || discriminate).
    rewrite nonEmpty_id by assumption. reflexivity.
Qed.

Lemma conflictsOf_joinLines_witness :
  @conflictsOf asciiText
    {| runErr := None; stdout := "src/a.go
docs/read me.md
"; stderr := "" |}
  = (["src/a.go"; "docs/read me.md"], None).
Proof.
  apply (@conflictsOf_joinLines asciiText).
  - reflexivity.
  - repeat constructor; discriminate.
  - reflexivity.
Defined.

(** ** The paths above, run on the scripted host *)

Lemma MergeToIntegration_current_branch_unknown_witness :
  let notARepo := Scripted.exited "128" "" "fatal: not a git repository" in
  let run := @MergeToIntegration asciiText _ Scripted.host Scripted.rig
               "sw-1" "sw-1/Toast/task-1" (Scripted.world [notARepo]) in
  trace run = [EvLock "sw-1" None; EvLoad "sw-1" (inl Scripted.sw1);
               EvGit ["rev-parse"; "--abbrev-ref"; "HEAD"] notARepo;
               EvUnlock "sw-1"]
  /\ result run
     = Some (wrapError "getting current branch: exit status 128"
               (errorString "exit status 128")).
Proof.
  intros notARepo run.
  apply (@MergeToIntegration_current_branch_unknown asciiText _ Scripted.host
           Scripted.rig "sw-1" "sw-1/Toast/task-1" (Scripted.world [notARepo])
           Scripted.sw1 notARepo (errorString "exit status 128")).
  - vm_compute. right. left. reflexivity.
  - vm_compute. do 2 right. left. reflexivity.
  - reflexivity.
Defined.

Lemma MergeToIntegration_checkout_witness :
  let missing := Scripted.exited "1" "" "error: pathspec 'swarm/sw-1' did not match" in
  let run := @MergeToIntegration asciiText _ Scripted.host Scripted.rig
               "sw-1" "sw-1/Toast/task-1" (Scripted.world [Runs.onMain; missing]) in
  exists rc after,
    trace run = EvLock "sw-1" None :: EvLoad "sw-1" (inl Scripted.sw1)
                  :: EvGit ["rev-parse"; "--abbrev-ref"; "HEAD"] Runs.onMain
                  :: EvGit ["checkout"; "swarm/sw-1"] rc :: after
    /\ (forall e, @gitRunError asciiText ["checkout"; "swarm/sw-1"] rc = Some e ->
          after = [EvUnlock "sw-1"]
          /\ result run
             = Some (wrapError ("checking out integration: " ++ Error e) e)).
Proof.
  intros missing run.
  apply (@MergeToIntegration_checkout asciiText _ Scripted.host Scripted.rig
           "sw-1" "sw-1/Toast/task-1" (Scripted.world [Runs.onMain; missing])
           Scripted.sw1 Runs.onMain).
  - vm_compute. right. left. reflexivity.
  - vm_compute. do 2 right. left. reflexivity.
  - reflexivity.
  - vm_compute. discriminate.
Defined.

(** The remote is down for all three fetches; the worker branch is merged
    all the same. *)
Lemma MergeToIntegration_merges_after_any_fetch_witness :
  let down := Runs.unreachable in
  let run := @MergeToIntegration asciiText _ Scripted.host Scripted.rig
               "sw-1" "sw-1/Toast/task-1"
               (Scripted.world [Runs.onIntegration; down; down; down]) in
  result run = None
  /\ gitCommands (trace run)
     = [["rev-parse"; "--abbrev-ref"; "HEAD"];
        ["fetch"; "origin"; "sw-1/Toast/task-1"];
        ["fetch"; "origin"; "sw-1/Toast/task-1"];
        ["fetch"; "origin"; "sw-1/Toast/task-1"];
        ["merge"; "--no-ff"; "-m"; "Merge sw-1/Toast/task-1 into swarm/sw-1";
         "sw-1/Toast/task-1"]].
Proof.
  intros down run.
  destruct (@MergeToIntegration_merges_after_any_fetch asciiText _ Scripted.host
              Scripted.rig "sw-1" "sw-1/Toast/task-1"
              (Scripted.world [Runs.onIntegration; down; down; down])
              Scripted.sw1 Runs.onIntegration)
    as [n [rm [Hn [Hin [Hcmds Hres]]]]].
  - vm_compute. right. left. reflexivity.
  - vm_compute. do 2 right. left. reflexivity.
  - reflexivity.
  - intros rc Hin. vm_compute in Hin.
    repeat (destruct Hin as [Hin|Hin]; [discriminate Hin|]). contradiction.
  - split; vm_compute; reflexivity.
Defined.

Lemma LandToMain_checkout_fails_witness :
  let missing := Scripted.exited "1" "" "error: pathspec 'main' did not match" in
  let run := @LandToMain asciiText _ Scripted.host Scripted.rig "sw-1"
               (Scripted.world [missing]) in
  let e := SwarmGitError "checkout" "" "error: pathspec 'main' did not match"
             (Some (errorString "exit status 1")) in
  trace run = [EvLock "sw-1" None; EvLoad "sw-1" (inl Scripted.sw1);
               EvGit ["checkout"; "main"] missing; EvUnlock "sw-1"]
  /\ result run
     = Some (wrapError
               "checking out main: checkout: error: pathspec 'main' did not match" e).
Proof.
  intros missing run e.
  apply (@LandToMain_checkout_fails asciiText _ Scripted.host Scripted.rig "sw-1"
           (Scripted.world [missing]) Scripted.sw1 missing e).
  - vm_compute. right. left. reflexivity.
  - vm_compute. do 2 right. left. reflexivity.
  - reflexivity.
Defined.

Lemma LandToMain_conflict_witness :
  let run rd := @LandToMain asciiText _ Scripted.host Scripted.rig "sw-1"
                  (Scripted.world [Scripted.ok; Scripted.ok; Runs.conflict; rd]) in
  let e := SwarmGitError "merge" "CONFLICT (content): Merge conflict in a.go" ""
             (Some (errorString "exit status 1")) in
  result (run Runs.listing) = Some e
  /\ result (run Scripted.ok)
     = Some (wrapError "merging to main: merge: exit status 1" e)
  /\ ~ In ["push"; "origin"; "main"] (gitCommands (trace (run Runs.listing))).
Proof.
  intros run e.
  assert (Hlast : forall (pre : list event) (a : event) (rd : ProcResult) (l : list event)
                         (a' : event) (rd' : ProcResult),
             l ++ [a'; EvGit diffUnmerged rd'; EvUnlock "sw-1"]
             = pre ++ [a; EvGit diffUnmerged rd; EvUnlock "sw-1"] -> rd = rd').
  { intros pre a rd l a' rd' E.
    apply (f_equal (@rev event)) in E. rewrite !rev_app_distr in E.
    cbn [rev app] in E. congruence. }
  destruct (@LandToMain_conflict asciiText _ Scripted.host Scripted.rig "sw-1"
              (Scripted.world [Scripted.ok; Scripted.ok; Runs.conflict; Runs.listing])
              Scripted.sw1 ["--no-ff"; "-m"; "Land swarm sw-1"; "swarm/sw-1"]
              Runs.conflict e)
    as [pre [rd [Ht [_ [Hfiles [_ [_ [_ Hpush]]]]]]]].
  { vm_compute. right. left. reflexivity. }
  { vm_compute. do 4 right. left. reflexivity. }
  { reflexivity. }
  destruct (@LandToMain_conflict asciiText _ Scripted.host Scripted.rig "sw-1"
              (Scripted.world [Scripted.ok; Scripted.ok; Runs.conflict; Scripted.ok])
              Scripted.sw1 ["--no-ff"; "-m"; "Land swarm sw-1"; "swarm/sw-1"]
              Runs.conflict e)
    as [pre' [rd' [Ht' [_ [_ [_ [Hnone _]]]]]]].
  { vm_compute. right. left. reflexivity. }
  { vm_compute. do 4 right. left. reflexivity. }
  { reflexivity. }
  assert (rd = Runs.listing) as ->.
  { refine (Hlast pre _ rd [_; _; _; _] _ Runs.listing _). exact Ht. }
  assert (rd' = Scripted.ok) as ->.
  { refine (Hlast pre' _ rd' [_; _; _; _] _ Scripted.ok _). exact Ht'. }
  split; [|split].
  - apply (Hfiles ["a.go"]).
    + reflexivity.
    + discriminate.
    + repeat constructor; discriminate.
    + reflexivity.
  - apply Hnone; reflexivity.
  - exact Hpush.
Defined.

(** The merge succeeds and the push is rejected: the landing fails. *)
Lemma LandToMain_push_witness :
  let run := @LandToMain asciiText _ Scripted.host Scripted.rig "sw-1"
               (Scripted.world [Scripted.ok; Scripted.ok; Scripted.ok; Runs.rejected]) in
  exists pre rp,
    trace run = pre ++ [EvGit ["merge"; "--no-ff"; "-m"; "Land swarm sw-1"; "swarm/sw-1"]
                          Scripted.ok;
                        EvGit ["push"; "origin"; "main"] rp; EvUnlock "sw-1"]
    /\ (runErr rp = None -> result run = None)
    /\ (forall e, @gitRunError asciiText ["push"; "origin"; "main"] rp = Some e ->
          result run = Some (wrapError ("pushing: " ++ Error e) e)).
Proof.
  intros run.
  apply (@LandToMain_push asciiText _ Scripted.host Scripted.rig "sw-1"
           (Scripted.world [Scripted.ok; Scripted.ok; Scripted.ok; Runs.rejected])
           Scripted.sw1 ["--no-ff"; "-m"; "Land swarm sw-1"; "swarm/sw-1"] Scripted.ok).
  - vm_compute. right. left. reflexivity.
  - vm_compute. do 4 right. left. reflexivity.
  - reflexivity.
Defined.

Example LandToMain_push_rejected :
  result (@LandToMain asciiText _ Scripted.host Scripted.rig "sw-1"
            (Scripted.world [Scripted.ok; Scripted.ok; Scripted.ok; Runs.rejected]))
  = Some (wrapError "pushing: push: ! [rejected] main -> main (fetch first)"
            (SwarmGitError "push" "" "! [rejected] main -> main (fetch first)"
               (Some (errorString "exit status 1")))).
Proof. vm_compute. reflexivity. Qed.

Lemma LandToMain_commands_witness :
  let run := @LandToMain asciiText _ Scripted.host Scripted.rig "sw-1"
               (Scripted.world [Scripted.ok; Runs.unreachable; Scripted.ok]) in
  gitCommands (trace run)
  = [["checkout"; "main"]; ["fetch"; "origin"; "main"]; ["fetch"; "origin"; "main"];
     ["merge"; "--no-ff"; "-m"; "Land swarm sw-1"; "swarm/sw-1"];
     ["push"; "origin"; "main"]].
Proof.
  intros run.
  destruct (@LandToMain_commands asciiText _ Scripted.host Scripted.rig "sw-1"
              (Scripted.world [Scripted.ok; Runs.unreachable; Scripted.ok])
              Scripted.sw1 Scripted.ok)
    as [n [rm [Hn [Hin Hcmds]]]].
  - vm_compute. right. left. reflexivity.
  - vm_compute. do 2 right. left. reflexivity.
  - reflexivity.
  - vm_compute. reflexivity.
Defined.

Lemma load_failure_is_returned_witness :
  let run := @perform asciiText _ Scripted.host Scripted.rig "sw-1" Cleanup Runs.noStore in
  trace run = [EvLock "sw-1" None; EvLoad "sw-1" (inr Runs.storeDown); EvUnlock "sw-1"]
  /\ result run = Some Runs.storeDown
  /\ gitCommands (trace run) = [].
Proof.
  intros run.
  apply (@load_failure_is_returned asciiText _ Scripted.host Scripted.rig "sw-1"
           Cleanup Runs.noStore Runs.storeDown).
  vm_compute. right. left. reflexivity.
Defined.

Lemma success_means_done_witness :
  let run := @perform asciiText _ Scripted.host Scripted.rig "sw-1" Land
               (Scripted.world []) in
  exists swarm body,
    trace run = EvLock "sw-1" None :: EvLoad "sw-1" (inl swarm)
                  :: body ++ [EvUnlock "sw-1"]
    /\ exists pre rm rp,
         body = pre ++ [EvGit ["merge"; "--no-ff"; "-m"; "Land swarm sw-1";
                               Integration swarm] rm;
                        EvGit ["push"; "origin"; TargetBranch swarm] rp]
         /\ runErr rm = None /\ runErr rp = None.
Proof.
  intros run.
  apply (@success_means_done asciiText _ Scripted.host Scripted.rig "sw-1" Land
           (Scripted.world [])).
  reflexivity.
Defined.

(** * Agent identities *)

Import Session.

(** ** Prefixes and suffixes *)

Lemma dropBytes_append (p b : string) :
  dropBytes (String.length p) (p ++ b) = b.
Proof. induction p as [|c p IH]; [reflexivity|exact IH]. Qed.

Lemma TrimPrefix_append (p b : string) : TrimPrefix (p ++ b) p = b.
Proof.
  unfold TrimPrefix.
  replace (HasPrefix (p ++ b) p) with true
    by (symmetry; apply HasPrefix_iff; eauto).
  apply dropBytes_append.
Qed.

Lemma HasPrefix_TrimPrefix (s p : string) :
  HasPrefix s p = true -> s = (p ++ TrimPrefix s p)%string.
Proof.
  intros Hp. apply HasPrefix_iff in Hp. destruct Hp as [b ->].
  rewrite TrimPrefix_append. reflexivity.
Qed.

Lemma length_append (a b : string) :
  String.length (a ++ b) = String.length a + String.length b.
Proof. induction a as [|c a IH]; cbn; [reflexivity|rewrite IH; reflexivity]. Qed.

Lemma append_same_length (a b x y : string) :
  (a ++ x)%string = (b ++ y)%string ->
  String.length a = String.length b -> a = b /\ x = y.
Proof.
  revert b. induction a as [|c a IH]; intros [|d b]; cbn; intros E L;
    try discriminate; [auto|].
  injection E as <- E. injection L as L.
  destruct (IH b E L) as [-> ->]. auto.
Qed.

(** ** The maps *)

Lemma lookup_remove_same (k : string) (m : GoMap) : lookup k (remove k m) = None.
Proof.
  induction m as [|[k' v] m IH]; cbn; [reflexivity|].
  destruct (String.eqb k' k) eqn:E; [exact IH|]. cbn. rewrite E. exact IH.
Qed.

Lemma lookup_remove_other (k k' : string) (m : GoMap) :
  k' <> k -> lookup k' (remove k m) = lookup k' m.
Proof.
  intros Hne. induction m as [|[k0 v] m IH]; cbn; [reflexivity|].
  destruct (String.eqb k0 k) eqn:E.
  - apply String.eqb_eq in E. subst k0.
    destruct (String.eqb k k') eqn:E'; [apply String.eqb_eq in E'; congruence|].
    exact IH.
  - cbn. rewrite IH. reflexivity.
Qed.

Lemma lookup_store_same (k v : string) (m : GoMap) : lookup k (store k v m) = Some v.
Proof. unfold store. cbn. rewrite String.eqb_refl. reflexivity. Qed.

Lemma lookup_store_other (k v k' : string) (m : GoMap) :
  k' <> k -> lookup k' (store k v m) = lookup k' m.
Proof.
  intros Hne. unfold store. cbn.
  destruct (String.eqb k k') eqn:E; [apply String.eqb_eq in E; congruence|].
  apply lookup_remove_other. exact Hne.
Qed.

Lemma In_keys_lookup (k : string) (m : GoMap) :
  In k (keys m) <-> lookup k m <> None.
Proof.
  induction m as [|[k' v] m IH]; cbn.
  - split; [contradiction|congruence].
  - destruct (String.eqb k' k) eqn:E.
    + apply String.eqb_eq in E. split; [discriminate|auto].
    + apply String.eqb_neq in E. rewrite <- IH. split; [intros [?|?]; [contradiction|auto]|auto].
Qed.

Lemma keys_remove (k k' : string) (m : GoMap) :
  In k' (keys (remove k m)) <-> k' <> k /\ In k' (keys m).
Proof.
  rewrite !In_keys_lookup. split.
  - intros Hl. destruct (String.eqb k' k) eqn:E.
    + apply String.eqb_eq in E. subst. rewrite lookup_remove_same in Hl. congruence.
    + apply String.eqb_neq in E. rewrite lookup_remove_other in Hl by exact E. auto.
  - intros [Hne Hl]. rewrite lookup_remove_other by exact Hne. exact Hl.
Qed.

Lemma NoDup_keys_remove (k : string) (m : GoMap) :
  NoDup (keys m) -> NoDup (keys (remove k m)).
Proof.
  induction m as [|[k' v] m IH]; cbn; intros Hnd; [constructor|].
  inversion Hnd as [|? ? Hnin Hnd']; subst.
  destruct (String.eqb k' k); [auto|]. cbn. constructor; [|auto].
  intros Hin. apply keys_remove in Hin. tauto.
Qed.

Lemma NoDup_keys_store (k v : string) (m : GoMap) :
  NoDup (keys m) -> NoDup (keys (store k v m)).
Proof.
  intros Hnd. unfold store. cbn. constructor.
  - intros Hin. apply keys_remove in Hin. tauto.
  - apply NoDup_keys_remove. exact Hnd.
Qed.

(** ** Sorting the prefixes *)

Lemma insertByLength_perm (p : string) (l : list string) :
  Permutation (insertByLength p l) (p :: l).
Proof.
  induction l as [|q l IH]; cbn [insertByLength]; [reflexivity|].
  destruct (String.length q <? String.length p)%nat; [reflexivity|].
  rewrite IH. apply perm_swap.
Qed.

Lemma insertByLength_sorted (p : string) (l : list string) :
  longestFirst l -> longestFirst (insertByLength p l).
Proof.
  unfold longestFirst. induction l as [|q l IH]; cbn [insertByLength]; intros Hs.
  - repeat constructor.
  - inversion Hs as [|? ? Hs' Hq]; subst.
    destruct (String.length q <? String.length p)%nat eqn:E.
    + apply Nat.ltb_lt in E. constructor; [exact Hs|].
      constructor; [lia|]. eapply Forall_impl; [|exact Hq]. cbn. intros; lia.
    + apply Nat.ltb_ge in E. constructor; [auto|].
      rewrite (insertByLength_perm p l). constructor; [exact E|exact Hq].
Qed.

Lemma RegisteredPrefixes_outcome (reg : Registry) :
  registeredPrefixes reg (RegisteredPrefixes reg).
Proof.
  unfold registeredPrefixes, RegisteredPrefixes.
  induction (keys (prefixToRig reg)) as [|p l [IHp IHs]]; cbn [fold_right].
  - split; [reflexivity|constructor].
  - split.
    + rewrite insertByLength_perm, IHp. reflexivity.
    + apply insertByLength_sorted. exact IHs.
Qed.

(** ** The prefix registry *)

Lemma StronglySorted_after {A} (R : A -> A -> Prop) (front : list A) (a : A)
    (back : list A) :
  StronglySorted R (front ++ a :: back) -> Forall (R a) back.
Proof.
  induction front as [|x front IH]; cbn; intros Hs;
    inversion Hs; subst; auto.
Qed.

(** X16. After [RegisterRigPrefix(rig, prefix)] the rig is found from the prefix
    and the prefix from the rig, the prefix is among the registered
    prefixes, and the answers for every other rig and every other prefix
    are what they were; [ClearPrefixRegistry] brings back the fallbacks,
    "gt" for every rig and the prefix itself for every prefix. *)
Theorem RegisterRigPrefix_lookup :
  forall (reg : Registry) (rigName pre : string),
    let reg' := RegisterRigPrefix rigName pre reg in
    PrefixForRig reg' rigName = pre
    /\ RigForPrefix reg' pre = rigName
    /\ In pre (RegisteredPrefixes reg')
    /\ (forall other, other <> rigName ->
                      PrefixForRig reg' other = PrefixForRig reg other)
    /\ (forall other, other <> pre ->
                      RigForPrefix reg' other = RigForPrefix reg other)
    /\ PrefixForRig (ClearPrefixRegistry reg') rigName = "gt"
    /\ RigForPrefix (ClearPrefixRegistry reg') pre = pre
    /\ RegisteredPrefixes (ClearPrefixRegistry reg') = [].
Proof.
  intros reg rigName pre reg'. subst reg'.
  unfold PrefixForRig, RigForPrefix, RegisterRigPrefix. cbn [prefixToRig rigToPrefix].
  rewrite !lookup_store_same. repeat split.
  - destruct (RegisteredPrefixes_outcome
                {| prefixToRig := store pre rigName (prefixToRig reg);
                   rigToPrefix := store rigName pre (rigToPrefix reg) |}) as [Hp _].
    eapply Permutation_in; [symmetry; exact Hp|]. left. reflexivity.
  - intros other Hne. rewrite lookup_store_other by exact Hne. reflexivity.
  - intros other Hne. rewrite lookup_store_other by exact Hne. reflexivity.
Qed.

(** X17. The registry is not kept one to one: registering a rig again under a
    new prefix leaves the old prefix registered, so that both prefixes
    name the rig while the rig names only the new one. *)
Theorem RegisterRigPrefix_keeps_old_prefix :
  forall (reg : Registry) (rigName old new : string),
    old <> new ->
    let reg' := RegisterRigPrefix rigName new (RegisterRigPrefix rigName old reg) in
    RigForPrefix reg' old = rigName
    /\ RigForPrefix reg' new = rigName
    /\ PrefixForRig reg' rigName = new
    /\ (forall l, registeredPrefixes reg' l -> In old l /\ In new l).
Proof.
  intros reg rigName old new Hne reg'. subst reg'.
  unfold PrefixForRig, RigForPrefix, RegisterRigPrefix. cbn [prefixToRig rigToPrefix].
  rewrite ?lookup_store_same. rewrite lookup_store_other by exact Hne.
  rewrite ?lookup_store_same. repeat split.
  - destruct H as [Hp _]. eapply Permutation_in; [symmetry; exact Hp|].
    apply In_keys_lookup. cbn [prefixToRig].
    rewrite lookup_store_other by exact Hne.
    rewrite lookup_store_same. discriminate.
  - destruct H as [Hp _]. eapply Permutation_in; [symmetry; exact Hp|].
    apply In_keys_lookup. cbn [prefixToRig]. rewrite lookup_store_same. discriminate.
Qed.

Lemma RegisterRigPrefix_keeps_old_prefix_witness :
  let reg := RegisterRigPrefix "hop" "hp" (RegisterRigPrefix "hop" "hop" testRegistry) in
  RigForPrefix reg "hop" = "hop"
  /\ RigForPrefix reg "hp" = "hop"
  /\ PrefixForRig reg "hop" = "hp"
  /\ (forall l, registeredPrefixes reg l -> In "hop" l /\ In "hp" l).
Proof.
  apply (@RegisterRigPrefix_keeps_old_prefix testRegistry "hop" "hop" "hp").
  discriminate.
Defined.

(** What the registry keeps through every registration and every clearing:
    no prefix is bound twice, the prefix of a registered rig is a
    registered prefix, and the rig of a registered prefix is a registered
    rig. *)
Lemma reachable_invariant (reg : Registry) :
  reachable reg ->
  NoDup (keys (prefixToRig reg))
  /\ (forall rigName p, lookup rigName (rigToPrefix reg) = Some p ->
                        lookup p (prefixToRig reg) <> None)
  /\ (forall p rigName, lookup p (prefixToRig reg) = Some rigName ->
                        lookup rigName (rigToPrefix reg) <> None).
Proof.
  induction 1 as [|rigName pre reg _ [Hnd [Hrig Hpre]]|reg _ _].
  - cbn. repeat split; [constructor|discriminate..].
  - unfold RegisterRigPrefix. cbn [prefixToRig rigToPrefix]. repeat split.
    + apply NoDup_keys_store. exact Hnd.
    + intros r p Hr. destruct (string_dec p pre) as [->|Hp].
      * rewrite lookup_store_same. discriminate.
      * rewrite lookup_store_other by exact Hp.
        destruct (string_dec r rigName) as [->|Hne].
        -- rewrite lookup_store_same in Hr. congruence.
        -- rewrite lookup_store_other in Hr by exact Hne. eapply Hrig, Hr.
    + intros p r Hp. destruct (string_dec r rigName) as [->|Hr].
      * rewrite lookup_store_same. discriminate.
      * rewrite lookup_store_other by exact Hr.
        destruct (string_dec p pre) as [->|Hne].
        -- rewrite lookup_store_same in Hp. congruence.
        -- rewrite lookup_store_other in Hp by exact Hne. eapply Hpre, Hp.
  - cbn. repeat split; [constructor|discriminate..].
Qed.

(** X18. Whatever was registered and cleared before, and in whatever order
    the registered prefixes come back, [RegisteredPrefixes] returns no
    prefix twice, however often it was registered; the prefix that
    [PrefixForRig] gives for a registered rig is one of them; and the rig
    that [RigForPrefix] gives for each of them is a registered rig. *)
Theorem RegisteredPrefixes_closed :
  forall (reg : Registry) (l : list string),
    reachable reg ->
    registeredPrefixes reg l ->
    NoDup l
    /\ (forall rigName, lookup rigName (rigToPrefix reg) <> None ->
                        In (PrefixForRig reg rigName) l)
    /\ (forall p, In p l ->
                  lookup (RigForPrefix reg p) (rigToPrefix reg) <> None).
Proof.
  intros reg l Hreach [Hperm _].
  destruct (reachable_invariant Hreach) as [Hnd [Hrig Hpre]].
  split; [|split].
  - eapply Permutation_NoDup; [symmetry; exact Hperm|exact Hnd].
  - intros rigName Hr. unfold PrefixForRig.
    destruct (lookup rigName (rigToPrefix reg)) as [p|] eqn:E; [|congruence].
    eapply Permutation_in; [symmetry; exact Hperm|].
    apply In_keys_lookup. eapply Hrig, E.
  - intros p Hin. unfold RigForPrefix.
    assert (Hp : lookup p (prefixToRig reg) <> None).
    { apply In_keys_lookup. eapply Permutation_in; [exact Hperm|exact Hin]. }
    destruct (lookup p (prefixToRig reg)) as [r|] eqn:E; [|congruence].
    eapply Hpre, E.
Qed.

(** The registry of the tests after "gt" is registered once more, for
    another rig: the three prefixes come back once each. *)
Lemma RegisteredPrefixes_closed_witness :
  let reg := RegisterRigPrefix "hop" "gt" testRegistry in
  let l := ["gt"; "fb"; "bd"] in
  NoDup l
  /\ (forall rigName, lookup rigName (rigToPrefix reg) <> None ->
                      In (PrefixForRig reg rigName) l)
  /\ (forall p, In p l ->
                lookup (RigForPrefix reg p) (rigToPrefix reg) <> None).
Proof.
  apply (@RegisteredPrefixes_closed (RegisterRigPrefix "hop" "gt" testRegistry)
           ["gt"; "fb"; "bd"]).
  - repeat constructor.
  - split.
    + reflexivity.
    + repeat constructor.
Defined.

(** ** Session names *)

Section SessionNameFacts.
Context {U : Unicode} {Q : Quoting} {N : SessionNames}.

(** What the loop of [ParseSessionName] does with the prefix it stops at. *)
Lemma parseRegistered_stops (reg : Registry) (session : string)
    (front : list string) (p : string) (back : list string) :
  (forall q, In q front -> HasPrefix session (q ++ "-") = false) ->
  HasPrefix session (p ++ "-") = true ->
  parseRegistered reg (front ++ p :: back) session
  = if String.eqb (TrimPrefix session (p ++ "-")) ""
    then (None, Some (errorString
                        (Sprintf "invalid session name %s: empty after prefix"
                           [Quote session])))
    else parseRigSuffix (TrimPrefix session (p ++ "-")) (RigForPrefix reg p) p.
Proof.
  intros Hfront Hp. induction front as [|q front IH]; cbn [app parseRegistered].
  - rewrite Hp. reflexivity.
  - rewrite (Hfront q) by (left; reflexivity). cbn [negb].
    apply IH. intros q' Hq'. apply Hfront. right. exact Hq'.
Qed.

Lemma parseRegistered_no_match (reg : Registry) (session : string)
    (l : list string) :
  (forall q, In q l -> HasPrefix session (q ++ "-") = false) ->
  parseRegistered reg l session
  = (None, Some (errorString
                   (Sprintf "invalid session name %s: no registered prefix matches"
                      [Quote session]))).
Proof.
  intros Hl. induction l as [|q l IH]; cbn [parseRegistered]; [reflexivity|].
  rewrite (Hl q) by (left; reflexivity). cbn [negb].
  apply IH. intros q' Hq'. apply Hl. right. exact Hq'.
Qed.

Lemma first_match (session : string) (l : list string) :
  (forall q, In q l -> HasPrefix session (q ++ "-") = false)
  \/ exists front p back,
       l = front ++ p :: back
       /\ (forall q, In q front -> HasPrefix session (q ++ "-") = false)
       /\ HasPrefix session (p ++ "-") = true.
Proof.
  induction l as [|q l [IH|[front [p [back [-> [Hf Hp]]]]]]].
  - left. intros q [].
  - destruct (HasPrefix session (q ++ "-")) eqn:E.
    + right. exists [], q, l. split; [reflexivity|]. split; [intros ? []|exact E].
    + left. intros q' [<-|Hq']; auto.
  - destruct (HasPrefix session (q ++ "-")) eqn:E.
    + right. exists [], q, (front ++ p :: back).
      split; [reflexivity|]. split; [intros ? []|exact E].
    + right. exists (q :: front), p, back. split; [reflexivity|].
      split; [|exact Hp]. intros q' [<-|Hq']; auto.
Qed.

Lemma match_same_length (session p q : string) :
  HasPrefix session (p ++ "-") = true ->
  HasPrefix session (q ++ "-") = true ->
  String.length p = String.length q -> p = q.
Proof.
  intros Hp Hq Hl. apply HasPrefix_iff in Hp, Hq.
  destruct Hp as [b ->]. destruct Hq as [b' E].
  rewrite !append_assoc in E.
  apply append_same_length in E; [tauto|exact Hl].
Qed.

(** The prefix the loop stops at is the longest registered prefix that the
    session name starts with, followed by a dash. *)
Lemma parseRegistered_longest (reg : Registry) (l : list string)
    (session p : string) :
  registeredPrefixes reg l ->
  In p (keys (prefixToRig reg)) ->
  HasPrefix session (p ++ "-") = true ->
  (forall q, In q (keys (prefixToRig reg)) ->
             HasPrefix session (q ++ "-") = true ->
             String.length q <= String.length p) ->
  parseRegistered reg l session
  = if String.eqb (TrimPrefix session (p ++ "-")) ""
    then (None, Some (errorString
                        (Sprintf "invalid session name %s: empty after prefix"
                           [Quote session])))
    else parseRigSuffix (TrimPrefix session (p ++ "-")) (RigForPrefix reg p) p.
Proof.
  intros [Hperm Hsort] Hin Hp Hmax.
  assert (Hinl : In p l) by (eapply Permutation_in; [symmetry; exact Hperm|exact Hin]).
  destruct (first_match session l) as [Hnone|[front [p0 [back [-> [Hf Hp0]]]]]].
  - rewrite (Hnone p Hinl) in Hp. discriminate.
  - assert (p0 = p) as ->.
    { apply (match_same_length session); [exact Hp0|exact Hp|].
      apply Nat.le_antisymm.
      - apply Hmax; [|exact Hp0]. eapply Permutation_in; [exact Hperm|].
        apply in_or_app. right. left. reflexivity.
      - apply in_app_or in Hinl. destruct Hinl as [Hin1|[->|Hin2]].
        + rewrite (Hf p Hin1) in Hp. discriminate.
        + apply Nat.le_refl.
        + unfold longestFirst in Hsort. apply StronglySorted_after in Hsort.
          rewrite Forall_forall in Hsort. apply Hsort. exact Hin2. }
    apply parseRegistered_stops; assumption.
Qed.

(** Two slices [RegisteredPrefixes] can return give the same parse. *)
Lemma parseRegistered_any_order (reg : Registry) (l1 l2 : list string)
    (session : string) :
  registeredPrefixes reg l1 -> registeredPrefixes reg l2 ->
  parseRegistered reg l1 session = parseRegistered reg l2 session.
Proof.
  intros H1 H2.
  destruct (first_match session l1) as [Hnone|[front [p [back [E [Hf Hp]]]]]].
  - rewrite !parseRegistered_no_match; [reflexivity| |exact Hnone].
    intros q Hq. apply Hnone. destruct H1 as [P1 _], H2 as [P2 _].
    eapply Permutation_in; [symmetry; exact P1|].
    eapply Permutation_in; [exact P2|exact Hq].
  - assert (Hin : In p (keys (prefixToRig reg))).
    { destruct H1 as [P1 _]. eapply Permutation_in; [exact P1|].
      rewrite E. apply in_or_app. right. left. reflexivity. }
    assert (Hmax : forall q, In q (keys (prefixToRig reg)) ->
                             HasPrefix session (q ++ "-") = true ->
                             String.length q <= String.length p).
    { intros q Hq Hm. destruct H1 as [P1 S1].
      assert (Hql : In q l1) by (eapply Permutation_in; [symmetry; exact P1|exact Hq]).
      rewrite E in Hql, S1. apply in_app_or in Hql. destruct Hql as [Hq1|[->|Hq2]].
      - rewrite (Hf q Hq1) in Hm. discriminate.
      - apply Nat.le_refl.
      - unfold longestFirst in S1. apply StronglySorted_after in S1.
        rewrite Forall_forall in S1. apply S1. exact Hq2. }
    rewrite (@parseRegistered_longest reg l1 session p H1 Hin Hp Hmax).
    rewrite (@parseRegistered_longest reg l2 session p H2 Hin Hp Hmax).
    reflexivity.
Qed.

End SessionNameFacts.

(** ** Parsing session names *)

Lemma longer_prefix_needs_dash (p q name : string) :
  hasByte "-" name = false ->
  HasPrefix (p ++ "-" ++ name) (q ++ "-") = true ->
  String.length q <= String.length p.
Proof.
  intros Hname. revert q. induction p as [|c p IH]; intros [|d q]; cbn; intros H.
  - apply Nat.le_refl.
  - apply andb_true_iff in H. destruct H as [_ H].
    apply HasPrefix_iff in H. destruct H as [b ->].
    rewrite append_assoc, hasByte_append in Hname. cbn in Hname.
    rewrite orb_true_r in Hname. discriminate.
  - apply Nat.le_0_l.
  - apply andb_true_iff in H. destruct H as [_ H].
    apply le_n_S. apply IH. exact H.
Qed.

Lemma HasPrefix_marker (p suffix : string) :
  HasPrefix (p ++ "-" ++ suffix) (p ++ "-") = true.
Proof. apply HasPrefix_iff. exists suffix. rewrite append_assoc. reflexivity. Qed.

Lemma TrimPrefix_marker (p suffix : string) :
  TrimPrefix (p ++ "-" ++ suffix) (p ++ "-") = suffix.
Proof. rewrite <- append_assoc. apply TrimPrefix_append. Qed.

Lemma eqb_false_of_ne (a b : string) : a <> b -> String.eqb a b = false.
Proof. intros H. destruct (String.eqb_spec a b); [contradiction|reflexivity]. Qed.

(** A parse that the loop of [ParseSessionName] accepts is the parse of
    what follows a prefix of the slice and a dash. *)
Lemma parseRegistered_sound {Q : Quoting} (reg : Registry) (l : list string)
    (session : string) (a : AgentIdentity) (e : option error) :
  parseRegistered reg l session = (Some a, e) ->
  exists p suffix,
    In p l /\ session = (p ++ "-" ++ suffix)%string /\ suffix <> ""
    /\ parseRigSuffix suffix (RigForPrefix reg p) p = (Some a, e).
Proof.
  induction l as [|q l IH]; cbn [parseRegistered]; [discriminate|].
  destruct (HasPrefix session (q ++ "-")) eqn:Hq; cbn [negb].
  - destruct (String.eqb_spec (TrimPrefix session (q ++ "-")) "") as [E|E];
      [discriminate|].
    intros H. exists q, (TrimPrefix session (q ++ "-")).
    split; [left; reflexivity|]. split; [|split; assumption].
    rewrite <- append_assoc. apply HasPrefix_TrimPrefix. exact Hq.
  - intros H. destruct (IH H) as [p [suffix [Hin Hrest]]].
    exists p, suffix. split; [right; exact Hin|exact Hrest].
Qed.

Lemma parseRegistered_some_or_error {Q : Quoting} (reg : Registry)
    (l : list string) (session : string) :
  (exists a, parseRegistered reg l session = (Some a, None))
  \/ (exists e, parseRegistered reg l session = (None, Some e)).
Proof.
  induction l as [|q l IH]; cbn [parseRegistered]; [right; eauto|].
  destruct (HasPrefix session (q ++ "-")); cbn [negb]; [|exact IH].
  destruct (String.eqb (TrimPrefix session (q ++ "-")) ""); [right; eauto|].
  unfold parseRigSuffix.
  repeat match goal with
         | |- context [if ?b then _ else _] => destruct b
         end; eauto.
Qed.

(** What [parseRigSuffix] accepts. *)
Lemma parseRigSuffix_some {Q : Quoting} (suffix rigName pre : string)
    (a : AgentIdentity) (e : option error) :
  suffix <> "" ->
  parseRigSuffix suffix rigName pre = (Some a, e) ->
  e = None /\ Rig a = rigName /\ Prefix a = pre
  /\ (Role a = RoleWitness /\ Name a = "" /\ suffix = "witness"
      \/ Role a = RoleRefinery /\ Name a = "" /\ suffix = "refinery"
      \/ Role a = RoleCrew /\ Name a <> "" /\ suffix = ("crew-" ++ Name a)%string
      \/ Role a = RolePolecat /\ Name a = suffix).
Proof.
  intros Hne. unfold parseRigSuffix.
  destruct (String.eqb_spec suffix "witness") as [->|_].
  { intros H. injection H as <- <-. cbn. tauto. }
  destruct (String.eqb_spec suffix "refinery") as [->|_].
  { intros H. injection H as <- <-. cbn. tauto. }
  destruct (HasPrefix suffix "crew-") eqn:Hc.
  - destruct (String.eqb_spec (TrimPrefix suffix "crew-") "") as [E|E];
      [discriminate|].
    intros H. injection H as <- <-. cbn [Rig Prefix Role Name identity].
    repeat split. right. right. left. repeat split; [exact E|].
    apply HasPrefix_TrimPrefix. exact Hc.
  - intros H. injection H as <- <-. cbn. tauto.
Qed.

(** X19. Go ranges over the registry in any order and [sort.Slice] is not
    stable, so [RegisteredPrefixes] can return the prefixes of one length
    in any order: [ParseSessionName] gives the same identity and the same
    error for all of these slices, the ones computed here included. *)
Theorem ParseSessionName_any_order :
  forall {Q : Quoting} {N : SessionNames} (reg : Registry) (l : list string)
         (session : string),
    registeredPrefixes reg l ->
    ParseSessionNameWith reg l session = ParseSessionName reg session.
Proof.
  intros Q N reg l session Hl. unfold ParseSessionName, ParseSessionNameWith.
  destruct (HasPrefix session HQPrefix); [reflexivity|].
  apply parseRegistered_any_order; [exact Hl|apply RegisteredPrefixes_outcome].
Qed.

(** X20. The longest match wins: a session name made of a registered prefix, a
    dash and a non-empty rest, which does not start with the town prefix,
    is parsed under that prefix when no longer registered prefix followed
    by a dash starts the name, whatever shorter prefixes do. *)
Theorem ParseSessionName_longest_prefix :
  forall {Q : Quoting} {N : SessionNames} (reg : Registry) (l : list string)
         (p suffix : string),
    registeredPrefixes reg l ->
    In p l ->
    suffix <> "" ->
    HasPrefix (p ++ "-" ++ suffix) HQPrefix = false ->
    (forall q, In q l ->
               HasPrefix (p ++ "-" ++ suffix) (q ++ "-") = true ->
               String.length q <= String.length p) ->
    ParseSessionNameWith reg l (p ++ "-" ++ suffix)
    = parseRigSuffix suffix (RigForPrefix reg p) p.
Proof.
  intros Q N reg l p suffix Hl Hin Hne Hhq Hmax.
  unfold ParseSessionNameWith. rewrite Hhq.
  assert (Hk : forall q, In q (keys (prefixToRig reg)) <-> In q l).
  { intros q. destruct Hl as [Hp _]. split; intros H.
    - eapply Permutation_in; [symmetry; exact Hp|exact H].
    - eapply Permutation_in; [exact Hp|exact H]. }
  rewrite (@parseRegistered_longest Q reg l (p ++ "-" ++ suffix) p Hl).
  - rewrite TrimPrefix_marker, (@eqb_false_of_ne _ _ Hne). reflexivity.
  - apply Hk. exact Hin.
  - apply HasPrefix_marker.
  - intros q Hq. apply Hmax. apply Hk. exact Hq.
Qed.

(** X21. A name without a dash is never taken for part of a prefix: a registered
    prefix, a dash and such a name parse under that prefix whatever else
    is registered, as the witness, the refinery or the polecat of that
    name. *)
Theorem ParseSessionName_plain_name :
  forall {Q : Quoting} {N : SessionNames} (reg : Registry) (l : list string)
         (p name : string),
    registeredPrefixes reg l ->
    In p l ->
    name <> "" ->
    hasByte "-" name = false ->
    HasPrefix (p ++ "-" ++ name) HQPrefix = false ->
    ParseSessionNameWith reg l (p ++ "-" ++ name)
    = (Some (if String.eqb name "witness"
             then identity RoleWitness (RigForPrefix reg p) "" p
             else if String.eqb name "refinery"
             then identity RoleRefinery (RigForPrefix reg p) "" p
             else identity RolePolecat (RigForPrefix reg p) name p),
       None).
Proof.
  intros Q N reg l p name Hl Hin Hne Hdash Hhq.
  unfold ParseSessionNameWith. rewrite Hhq.
  assert (Hk : In p (keys (prefixToRig reg))).
  { destruct Hl as [Hp _]. eapply Permutation_in; [exact Hp|exact Hin]. }
  rewrite (@parseRegistered_longest Q reg l (p ++ "-" ++ name) p Hl Hk).
  - rewrite TrimPrefix_marker, (@eqb_false_of_ne _ _ Hne). unfold parseRigSuffix.
    destruct (String.eqb name "witness"); [reflexivity|].
    destruct (String.eqb name "refinery"); [reflexivity|].
    destruct (HasPrefix name "crew-") eqn:Hc; [|reflexivity].
    apply HasPrefix_iff in Hc. destruct Hc as [b ->]. discriminate.
  - apply HasPrefix_marker.
  - intros q _. apply longer_prefix_needs_dash. exact Hdash.
Qed.

(** X22. [ParseSessionName] never returns a nil identity without an error, and
    returns an identity together with an error only for the overseer of
    the town. An identity returned without an error is the mayor or the
    deacon of the town under the prefix "hq", or belongs to the rig of a
    prefix of the slice whose marker starts the name: a witness or a
    refinery without a name, or a crew member or a polecat with a
    non-empty name. *)
Theorem ParseSessionName_result :
  forall {Q : Quoting} {N : SessionNames} (reg : Registry) (l : list string)
         (session : string),
    match ParseSessionNameWith reg l session with
    | (Some a, None) =>
        (HasPrefix session HQPrefix = true
         /\ Prefix a = "hq" /\ Rig a = ""
         /\ (Role a = RoleMayor /\ Name a = ""
             \/ Role a = RoleDeacon /\ (Name a = "" \/ Name a = "boot")))
        \/ (HasPrefix session HQPrefix = false
            /\ In (Prefix a) l
            /\ HasPrefix session (Prefix a ++ "-") = true
            /\ Rig a = RigForPrefix reg (Prefix a)
            /\ (Role a = RoleWitness /\ Name a = ""
                \/ Role a = RoleRefinery /\ Name a = ""
                \/ Role a = RoleCrew /\ Name a <> ""
                \/ Role a = RolePolecat /\ Name a <> ""))
    | (Some a, Some _) =>
        a = identity "" "" "" "hq" /\ session = (HQPrefix ++ "overseer")%string
    | (None, Some _) => True
    | (None, None) => False
    end.
Proof.
  intros Q N reg l session. unfold ParseSessionNameWith.
  destruct (HasPrefix session HQPrefix) eqn:Hhq.
  - destruct (String.eqb (TrimPrefix session HQPrefix) "mayor").
    { left. cbn. tauto. }
    destruct (String.eqb (TrimPrefix session HQPrefix) "deacon").
    { left. cbn. tauto. }
    destruct (String.eqb (TrimPrefix session HQPrefix) "boot").
    { left. cbn. tauto. }
    destruct (String.eqb_spec (TrimPrefix session HQPrefix) "overseer") as [E|_];
      [|exact I].
    split; [reflexivity|]. rewrite <- E. apply HasPrefix_TrimPrefix. exact Hhq.
  - destruct (parseRegistered_some_or_error reg l session) as [[a Ha]|[e He]].
    + rewrite Ha. right.
      destruct (@parseRegistered_sound _ _ _ _ _ _ Ha)
        as [p [suffix [Hin [-> [Hne Hs]]]]].
      destruct (@parseRigSuffix_some _ _ _ _ _ _ Hne Hs) as [_ [Hrig [Hpre Hrole]]].
      rewrite Hpre, Hrig. repeat split; [exact Hin|apply HasPrefix_marker|].
      destruct Hrole as [[Hr [Hn _]]|[[Hr [Hn _]]|[[Hr [Hn _]]|[Hr Hn]]]]; auto.
      right. right. right. split; [exact Hr|]. rewrite Hn. exact Hne.
    + rewrite He. exact I.
Qed.

(** X23. With the session names as documented, a session name that parses
    under a non-empty prefix is the session name of the identity parsed
    from it, whatever is registered. *)
Theorem ParseSessionName_SessionName :
  forall {Q : Quoting} (reg : Registry) (l : list string) (session : string)
         (a : AgentIdentity),
    @ParseSessionNameWith Q documentedNames reg l session = (Some a, None) ->
    Prefix a <> "" ->
    @SessionName documentedNames reg a = session.
Proof.
  intros Q reg l session a. unfold ParseSessionNameWith.
  cbn [HQPrefix documentedNames].
  destruct (HasPrefix session "hq-") eqn:Hhq.
  - apply HasPrefix_TrimPrefix in Hhq. revert Hhq.
    generalize (TrimPrefix session "hq-"). intros suffix ->.
    destruct (String.eqb_spec suffix "mayor") as [->|_].
    { intros H _. injection H as <-. reflexivity. }
    destruct (String.eqb_spec suffix "deacon") as [->|_].
    { intros H _. injection H as <-. reflexivity. }
    destruct (String.eqb_spec suffix "boot") as [->|_].
    { intros H _. injection H as <-. reflexivity. }
    destruct (String.eqb suffix "overseer"); discriminate.
  - intros H Hp.
    destruct (@parseRegistered_sound _ _ _ _ _ _ H) as [p [suffix [_ [-> [Hne Hs]]]]].
    destruct (@parseRigSuffix_some _ _ _ _ _ _ Hne Hs) as [_ [_ [Hpre Hrole]]].
    unfold SessionName. rewrite (@eqb_false_of_ne _ _ Hp), Hpre.
    destruct Hrole as [[Hr [_ ->]]|[[Hr [_ ->]]|[[Hr [_ ->]]|[Hr Hn]]]];
      rewrite Hr; cbn; try reflexivity.
    rewrite Hn. reflexivity.
Qed.

Lemma ParseSessionName_any_order_witness :
  @ParseSessionNameWith plainQuoting documentedNames testRegistry
    ["gt"; "fb"; "bd"] "gt-crew-max"
  = @ParseSessionName plainQuoting documentedNames testRegistry "gt-crew-max".
Proof.
  apply (@ParseSessionName_any_order plainQuoting documentedNames testRegistry
           ["gt"; "fb"; "bd"] "gt-crew-max").
  split.
  - apply (Permutation_cons_app ["fb"; "bd"] []). reflexivity.
  - repeat constructor.
Defined.

Lemma ParseSessionName_longest_prefix_witness :
  @ParseSessionNameWith plainQuoting documentedNames
    (RegisterRigPrefix "alpha" "gt-a" testRegistry)
    ["gt-a"; "gt"; "fb"; "bd"] "gt-a-b"
  = (Some (identity RolePolecat "alpha" "b" "gt-a"), None).
Proof.
  refine (@ParseSessionName_longest_prefix plainQuoting documentedNames
            (RegisterRigPrefix "alpha" "gt-a" testRegistry)
            ["gt-a"; "gt"; "fb"; "bd"] "gt-a" "b" _ _ _ _ _).
  - split.
    + apply perm_skip. apply (Permutation_cons_app ["fb"; "bd"] []). reflexivity.
    + repeat constructor.
  - left. reflexivity.
  - discriminate.
  - reflexivity.
  - intros q [<-|[<-|[<-|[<-|[]]]]] _; cbn; lia.
Defined.

Lemma ParseSessionName_plain_name_witness :
  @ParseSessionNameWith plainQuoting documentedNames
    (RegisterRigPrefix "alpha" "gt-a" testRegistry)
    ["gt-a"; "gt"; "fb"; "bd"] "gt-morsov"
  = (Some (identity RolePolecat "gastown" "morsov" "gt"), None).
Proof.
  refine (@ParseSessionName_plain_name plainQuoting documentedNames
            (RegisterRigPrefix "alpha" "gt-a" testRegistry)
            ["gt-a"; "gt"; "fb"; "bd"] "gt" "morsov" _ _ _ _ _).
  - split.
    + apply perm_skip. apply (Permutation_cons_app ["fb"; "bd"] []). reflexivity.
    + repeat constructor.
  - right. left. reflexivity.
  - discriminate.
  - reflexivity.
  - reflexivity.
Defined.

Lemma ParseSessionName_SessionName_witness :
  @SessionName documentedNames testRegistry
    (identity RoleCrew "gastown" "max" "gt") = "gt-crew-max".
Proof.
  apply (@ParseSessionName_SessionName plainQuoting testRegistry
           (RegisteredPrefixes testRegistry) "gt-crew-max").
  - reflexivity.
  - discriminate.
Defined.

(** ** Addresses *)

Lemma Split_parts (s : string) (sep : ascii) :
  Forall (fun f => hasByte sep f = false) (Split s sep).
Proof.
  induction s as [|c s IH]; cbn [Split].
  - repeat constructor.
  - destruct (Ascii.eqb c sep) eqn:Ec.
    + constructor; [reflexivity|exact IH].
    + destruct (Split s sep) as [|h t].
      * constructor; [|constructor]. cbn [hasByte]. rewrite Ec. reflexivity.
      * inversion IH as [|? ? Hh Ht]; subst.
        constructor; [|exact Ht]. cbn [hasByte]. rewrite Ec, Hh. reflexivity.
Qed.

Lemma TrimSuffix_not_suffix (s suffix : string) :
  HasSuffix s suffix = false -> TrimSuffix s suffix = s.
Proof.
  destruct s as [|c s]; cbn [HasSuffix TrimSuffix];
    destruct (String.eqb _ suffix); try discriminate; [reflexivity|].
  intros ->. reflexivity.
Qed.

Lemma HasSuffix_byte (s : string) (c : ascii) :
  HasSuffix s (String c "") = true -> hasByte c s = true.
Proof.
  induction s as [|d s IH]; cbn [HasSuffix hasByte].
  - destruct (String.eqb_spec "" (String c "")); discriminate.
  - destruct (String.eqb_spec (String d s) (String c "")) as [E|_].
    + injection E as -> ->. intros _. rewrite Ascii.eqb_refl. reflexivity.
    + intros H. rewrite (IH H). apply orb_true_r.
Qed.

Lemma HasSuffix_append (a b : string) (c : ascii) :
  b <> "" -> hasByte c b = false -> HasSuffix (a ++ b) (String c "") = false.
Proof.
  intros Hne Hb. induction a as [|d a IH]; cbn [append].
  - destruct (HasSuffix b (String c "")) eqn:E; [|reflexivity].
    apply HasSuffix_byte in E. congruence.
  - cbn [HasSuffix].
    destruct (String.eqb_spec (String d (a ++ b)) (String c "")) as [E|_];
      [|exact IH].
    injection E as _ E. destruct a; [contradiction|discriminate].
Qed.

Section AddressFacts.
Context {U : Unicode} {Q : Quoting}.

(** An address of two parts, already trimmed. *)
Lemma ParseAddress_two (rig name : string) :
  TrimSpace (rig ++ "/" ++ name) = (rig ++ "/" ++ name)%string ->
  hasByte slash rig = false ->
  hasByte slash name = false ->
  name <> "" ->
  ParseAddress (rig ++ "/" ++ name)
  = if String.eqb name "witness"
    then (Some (identity RoleWitness rig "" ""), None)
    else if String.eqb name "refinery"
    then (Some (identity RoleRefinery rig "" ""), None)
    else if String.eqb name "crew" || String.eqb name "polecats"
    then invalidAddress (rig ++ "/" ++ name)
    else (Some (identity RolePolecat rig name ""), None).
Proof.
  intros Htrim Hrig Hname Hne. unfold ParseAddress. cbv zeta. rewrite Htrim.
  assert (Hs : hasByte slash (rig ++ "/" ++ name) = true).
  { rewrite hasByte_append. cbn. apply orb_true_r. }
  destruct (String.eqb_spec (rig ++ "/" ++ name) "") as [E|_];
    [rewrite E in Hs; discriminate|].
  destruct (String.eqb_spec (rig ++ "/" ++ name) "mayor") as [E|_];
    [rewrite E in Hs; discriminate|].
  destruct (String.eqb_spec (rig ++ "/" ++ name) "mayor/") as [E|_].
  { apply (@cut_left_unique slash rig name "mayor" "") in E;
      [destruct E; contradiction|exact Hrig|reflexivity]. }
  destruct (String.eqb_spec (rig ++ "/" ++ name) "deacon") as [E|_];
    [rewrite E in Hs; discriminate|].
  destruct (String.eqb_spec (rig ++ "/" ++ name) "deacon/") as [E|_].
  { apply (@cut_left_unique slash rig name "deacon" "") in E;
      [destruct E; contradiction|exact Hrig|reflexivity]. }
  destruct (String.eqb_spec (rig ++ "/" ++ name) "overseer") as [E|_];
    [rewrite E in Hs; discriminate|].
  cbn [orb].
  rewrite TrimSuffix_not_suffix
    by (rewrite <- append_assoc; apply HasSuffix_append; assumption).
  change (rig ++ "/" ++ name)%string with (rig ++ String slash name)%string.
  rewrite (@Split_append rig _ slash Hrig), (@Split_no_sep name slash Hname).
  reflexivity.
Qed.

(** An address of three parts, already trimmed. *)
Lemma ParseAddress_three (rig role name : string) :
  TrimSpace (rig ++ "/" ++ role ++ "/" ++ name)
  = (rig ++ "/" ++ role ++ "/" ++ name)%string ->
  hasByte slash rig = false ->
  hasByte slash role = false ->
  hasByte slash name = false ->
  name <> "" ->
  ParseAddress (rig ++ "/" ++ role ++ "/" ++ name)
  = if String.eqb role "crew"
    then (Some (identity RoleCrew rig name ""), None)
    else if String.eqb role "polecats"
    then (Some (identity RolePolecat rig name ""), None)
    else invalidAddress (rig ++ "/" ++ role ++ "/" ++ name).
Proof.
  intros Htrim Hrig Hrole Hname Hne. unfold ParseAddress. cbv zeta. rewrite Htrim.
  set (s := (rig ++ "/" ++ role ++ "/" ++ name)%string).
  assert (Hs : hasByte slash s = true).
  { unfold s. rewrite hasByte_append. cbn. apply orb_true_r. }
  destruct (String.eqb_spec s "") as [E|_]; [rewrite E in Hs; discriminate|].
  destruct (String.eqb_spec s "mayor") as [E|_]; [rewrite E in Hs; discriminate|].
  destruct (String.eqb_spec s "mayor/") as [E|_].
  { apply (@cut_left_unique slash rig (role ++ "/" ++ name) "mayor" "") in E;
      [|exact Hrig|reflexivity].
    destruct E as [_ E]. destruct role; discriminate. }
  destruct (String.eqb_spec s "deacon") as [E|_]; [rewrite E in Hs; discriminate|].
  destruct (String.eqb_spec s "deacon/") as [E|_].
  { apply (@cut_left_unique slash rig (role ++ "/" ++ name) "deacon" "") in E;
      [|exact Hrig|reflexivity].
    destruct E as [_ E]. destruct role; discriminate. }
  destruct (String.eqb_spec s "overseer") as [E|_]; [rewrite E in Hs; discriminate|].
  cbn [orb].
  rewrite TrimSuffix_not_suffix.
  2:{ unfold s. rewrite <- !append_assoc. apply HasSuffix_append; assumption. }
  unfold s.
  change (rig ++ "/" ++ role ++ "/" ++ name)%string
    with (rig ++ String slash (role ++ String slash name))%string.
  rewrite (@Split_append rig _ slash Hrig), (@Split_append role _ slash Hrole),
    (@Split_no_sep name slash Hname).
  reflexivity.
Qed.

End AddressFacts.

Lemma HasSuffix_self (s x : string) : HasSuffix (s ++ x) x = true.
Proof.
  induction s as [|c s IH]; cbn [append].
  - destruct x; cbn [HasSuffix]; rewrite String.eqb_refl; reflexivity.
  - cbn [HasSuffix]. rewrite IH. destruct (String.eqb _ x); reflexivity.
Qed.

Lemma TrimSuffix_append (s x : string) : x <> "" -> TrimSuffix (s ++ x) x = s.
Proof.
  intros Hx. induction s as [|c s IH]; cbn [append].
  - destruct x; [contradiction|]. cbn [TrimSuffix].
    rewrite String.eqb_refl. reflexivity.
  - cbn [TrimSuffix]. destruct (String.eqb_spec (String c (s ++ x)) x) as [E|_].
    + apply (f_equal String.length) in E. cbn in E. rewrite length_append in E. lia.
    + rewrite HasSuffix_self, IH. reflexivity.
Qed.

(** X24. The address of a well-formed identity parses back to the identity: the
    prefix is unset, the mayor and the deacon have no rig and no name, a
    witness and a refinery have no name, a crew member and a polecat have a
    non-empty name, and neither the rig nor the name contains a slash or
    is changed by trimming the address. *)
Theorem ParseAddress_Address :
  forall {U : Unicode} {Q : Quoting} (a : AgentIdentity),
    Prefix a = "" ->
    TrimSpace (Address a) = Address a ->
    ((Role a = RoleMayor \/ Role a = RoleDeacon) /\ Rig a = "" /\ Name a = ""
     \/ (Role a = RoleWitness \/ Role a = RoleRefinery)
        /\ Name a = "" /\ hasByte slash (Rig a) = false
     \/ (Role a = RoleCrew \/ Role a = RolePolecat)
        /\ Name a <> "" /\ hasByte slash (Rig a) = false
        /\ hasByte slash (Name a) = false) ->
    ParseAddress (Address a) = (Some a, None).
Proof.
  intros U Q [role rig name pre]. cbn [Prefix Role Rig Name].
  intros -> Htrim
    [[[->| ->] [-> ->]]|[[[->| ->] [-> Hrig]]|[[->| ->] [Hne [Hrig Hname]]]]];
    revert Htrim; unfold Address; cbn [Role Rig Name String.eqb Ascii.eqb Bool.eqb RoleMayor
      RoleDeacon RoleWitness RoleRefinery RoleCrew RolePolecat Sprintf isVerb orb append];
    intros Htrim.
  - unfold ParseAddress. cbv zeta. rewrite Htrim. reflexivity.
  - unfold ParseAddress. cbv zeta. rewrite Htrim. reflexivity.
  - apply (@ParseAddress_two U Q rig "witness" Htrim Hrig); [reflexivity|discriminate].
  - apply (@ParseAddress_two U Q rig "refinery" Htrim Hrig); [reflexivity|discriminate].
  - rewrite append_nil_r in Htrim |- *.
    apply (@ParseAddress_three U Q rig "crew" name Htrim Hrig); auto.
  - rewrite append_nil_r in Htrim |- *.
    apply (@ParseAddress_three U Q rig "polecats" name Htrim Hrig); auto.
Qed.

Lemma ParseAddress_Address_witness :
  @ParseAddress asciiText plainQuoting
    (Address (identity RoleCrew "gastown" "max" ""))
  = (Some (identity RoleCrew "gastown" "max" ""), None).
Proof.
  apply (@ParseAddress_Address asciiText plainQuoting
           (identity RoleCrew "gastown" "max" "")).
  - reflexivity.
  - reflexivity.
  - right. right. split; [left; reflexivity|].
    split; [discriminate|]. split; reflexivity.
Defined.

(** X25. A polecat has two addresses: the explicit one, rig/polecats/name, always
    names it, and the short one, rig/name, names it unless the name is one
    of the four words the second part is reserved for. *)
Theorem ParseAddress_polecat_forms :
  forall {U : Unicode} {Q : Quoting} (rig name : string),
    hasByte slash rig = false ->
    hasByte slash name = false ->
    name <> "" ->
    TrimSpace (rig ++ "/polecats/" ++ name) = (rig ++ "/polecats/" ++ name)%string ->
    TrimSpace (rig ++ "/" ++ name) = (rig ++ "/" ++ name)%string ->
    ParseAddress (rig ++ "/polecats/" ++ name)
    = (Some (identity RolePolecat rig name ""), None)
    /\ (~ In name ["witness"; "refinery"; "crew"; "polecats"] ->
        ParseAddress (rig ++ "/" ++ name)
        = (Some (identity RolePolecat rig name ""), None)).
Proof.
  intros U Q rig name Hrig Hname Hne Hlong Hshort. split.
  - apply (@ParseAddress_three U Q rig "polecats" name Hlong Hrig); auto.
  - intros Hres. rewrite (@ParseAddress_two U Q rig name Hshort Hrig Hname Hne).
    repeat match goal with
           | |- context [String.eqb name ?w] =>
               destruct (String.eqb_spec name w) as [E|_];
               [exfalso; apply Hres; rewrite E; cbn; tauto|]
           end.
    reflexivity.
Qed.

Lemma ParseAddress_polecat_forms_witness :
  @ParseAddress asciiText plainQuoting "gastown/polecats/nux"
  = (Some (identity RolePolecat "gastown" "nux" ""), None)
  /\ (~ In "nux" ["witness"; "refinery"; "crew"; "polecats"] ->
      @ParseAddress asciiText plainQuoting "gastown/nux"
      = (Some (identity RolePolecat "gastown" "nux" ""), None)).
Proof.
  apply (@ParseAddress_polecat_forms asciiText plainQuoting "gastown" "nux").
  - reflexivity.
  - reflexivity.
  - discriminate.
  - reflexivity.
  - reflexivity.
Defined.

(** X26. [ParseAddress] returns either an identity or an error, never both and
    never neither. The identity has no prefix, its rig and its name contain
    no slash, its role is one of the six roles, the mayor and the deacon
    have neither rig nor name, and a witness and a refinery have no
    name. *)
Theorem ParseAddress_result :
  forall {U : Unicode} {Q : Quoting} (address : string),
    match ParseAddress address with
    | (Some a, None) =>
        Prefix a = ""
        /\ hasByte slash (Rig a) = false
        /\ hasByte slash (Name a) = false
        /\ ((Role a = RoleMayor \/ Role a = RoleDeacon)
            /\ Rig a = "" /\ Name a = ""
            \/ (Role a = RoleWitness \/ Role a = RoleRefinery) /\ Name a = ""
            \/ Role a = RoleCrew
            \/ Role a = RolePolecat)
    | (None, Some _) => True
    | _ => False
    end.
Proof.
  intros U Q address. unfold ParseAddress, invalidAddress. cbv zeta.
  destruct (String.eqb (TrimSpace address) ""); [exact I|].
  destruct (String.eqb (TrimSpace address) "mayor" || String.eqb (TrimSpace address) "mayor/").
  { cbn. tauto. }
  destruct (String.eqb (TrimSpace address) "deacon" || String.eqb (TrimSpace address) "deacon/").
  { cbn. tauto. }
  destruct (String.eqb (TrimSpace address) "overseer"); [exact I|].
  pose proof (Split_parts (TrimSuffix (TrimSpace address) "/") slash) as Hparts.
  destruct (Split (TrimSuffix (TrimSpace address) "/") slash)
    as [|rig [|name [|third [|fourth rest]]]]; cbn [length Nat.ltb Nat.leb nth];
    try exact I.
  - inversion Hparts as [|? ? Hrig Hrest]; subst.
    inversion Hrest as [|? ? Hname _]; subst.
    destruct (String.eqb name "witness"); [cbn; tauto|].
    destruct (String.eqb name "refinery"); [cbn; tauto|].
    destruct (String.eqb name "crew" || String.eqb name "polecats"); [exact I|].
    cbn. tauto.
  - inversion Hparts as [|? ? Hrig Hrest]; subst.
    inversion Hrest as [|? ? _ Hrest']; subst.
    inversion Hrest' as [|? ? Hthird _]; subst.
    destruct (String.eqb name "crew"); [cbn; tauto|].
    destruct (String.eqb name "polecats"); [cbn; tauto|].
    exact I.
Qed.

(** X27. An empty name is not refused everywhere: a rig followed by two slashes
    is the address of a polecat without a name, while the address that
    [Address] gives for this polecat is refused. *)
Theorem ParseAddress_empty_name :
  forall {U : Unicode} {Q : Quoting} (rig : string),
    hasByte slash rig = false ->
    TrimSpace (rig ++ "//") = (rig ++ "//")%string ->
    TrimSpace (rig ++ "/polecats/") = (rig ++ "/polecats/")%string ->
    ParseAddress (rig ++ "//") = (Some (identity RolePolecat rig "" ""), None)
    /\ ParseAddress (Address (identity RolePolecat rig "" ""))
       = invalidAddress (rig ++ "/polecats").
Proof.
  intros U Q rig Hrig Hshort Hlong. split.
  - unfold ParseAddress. cbv zeta. rewrite Hshort.
    assert (Hs : hasByte slash (rig ++ "//") = true).
    { rewrite hasByte_append. cbn. apply orb_true_r. }
    destruct (String.eqb_spec (rig ++ "//") "") as [E|_];
      [rewrite E in Hs; discriminate|].
    destruct (String.eqb_spec (rig ++ "//") "mayor") as [E|_];
      [rewrite E in Hs; discriminate|].
    destruct (String.eqb_spec (rig ++ "//") "mayor/") as [E|_].
    { apply (@cut_left_unique slash rig "/" "mayor" "") in E;
        [destruct E; discriminate|exact Hrig|reflexivity]. }
    destruct (String.eqb_spec (rig ++ "//") "deacon") as [E|_];
      [rewrite E in Hs; discriminate|].
    destruct (String.eqb_spec (rig ++ "//") "deacon/") as [E|_].
    { apply (@cut_left_unique slash rig "/" "deacon" "") in E;
        [destruct E; discriminate|exact Hrig|reflexivity]. }
    destruct (String.eqb_spec (rig ++ "//") "overseer") as [E|_];
      [rewrite E in Hs; discriminate|].
    cbn [orb].
    change (rig ++ "//")%string with (rig ++ "/" ++ "/")%string.
    rewrite <- append_assoc, TrimSuffix_append by discriminate.
    change (rig ++ "/")%string with (rig ++ String slash "")%string.
    rewrite (@Split_append rig _ slash Hrig). reflexivity.
  - change (Address (identity RolePolecat rig "" ""))
      with (rig ++ "/polecats/" ++ "")%string.
    rewrite append_nil_r.
    unfold ParseAddress. cbv zeta. rewrite Hlong.
    assert (Hs : hasByte slash (rig ++ "/polecats/") = true).
    { rewrite hasByte_append. cbn. apply orb_true_r. }
    destruct (String.eqb_spec (rig ++ "/polecats/") "") as [E|_];
      [rewrite E in Hs; discriminate|].
    destruct (String.eqb_spec (rig ++ "/polecats/") "mayor") as [E|_];
      [rewrite E in Hs; discriminate|].
    destruct (String.eqb_spec (rig ++ "/polecats/") "mayor/") as [E|_].
    { apply (@cut_left_unique slash rig "polecats/" "mayor" "") in E;
        [destruct E; discriminate|exact Hrig|reflexivity]. }
    destruct (String.eqb_spec (rig ++ "/polecats/") "deacon") as [E|_];
      [rewrite E in Hs; discriminate|].
    destruct (String.eqb_spec (rig ++ "/polecats/") "deacon/") as [E|_].
    { apply (@cut_left_unique slash rig "polecats/" "deacon" "") in E;
        [destruct E; discriminate|exact Hrig|reflexivity]. }
    destruct (String.eqb_spec (rig ++ "/polecats/") "overseer") as [E|_];
      [rewrite E in Hs; discriminate|].
    cbn [orb].
    change (rig ++ "/polecats/")%string with (rig ++ "/polecats" ++ "/")%string.
    rewrite <- append_assoc, TrimSuffix_append by discriminate.
    change (rig ++ "/polecats")%string with (rig ++ String slash "polecats")%string.
    rewrite (@Split_append rig _ slash Hrig). reflexivity.
Qed.

Lemma ParseAddress_empty_name_witness :
  @ParseAddress asciiText plainQuoting "gastown//"
  = (Some (identity RolePolecat "gastown" "" ""), None)
  /\ @ParseAddress asciiText plainQuoting
       (Address (identity RolePolecat "gastown" "" ""))
     = @invalidAddress plainQuoting "gastown/polecats".
Proof.
  apply (@ParseAddress_empty_name asciiText plainQuoting "gastown");
    reflexivity.
Defined.
